(** * imgss: a texture-atlas generator (src/imgss.py)

    A shallow embedding of [ImageAtlasGenerator] and of the parts of the
    Python runtime it relies on.

    - Python [int] is [Z]; [//] and [%] are [Z.div] and [Z.modulo] (same
      sign conventions), raising [ZeroDivisionError] on a zero divisor.
    - Python [float] is IEEE 754 binary64 with round-to-nearest-even: a
      finite float is the rational it denotes ([Q]), and every operation
      computes the exact result and rounds it once ([Float64.round]).
      [int / int] is the correctly rounded quotient, [int * float]
      converts the int first; overflow raises where Python raises.
    - [str] is [string], a sequence of bytes; [lower] acts on the ASCII
      letters, which is all the comparison with the supported extensions
      depends on.  [os.path] is [posixpath].
    - Exceptions are an error monad over a mutable state ([M]): a raised
      exception keeps the state reached so far, as in Python.  [exn]
      lists instances of [Exception], what [except Exception] catches.
    - The file system and the image library (Pillow) are collaborators,
      given by a [world] of oracles: each call succeeds or raises; a call
      that succeeds returns what the library documents ([resize] an image
      of the size asked for, [convert('RGBA')] an image of the same size).
      The pixels are not modelled: the canvas is the list of the pastes
      made on it.  [Image.save] opens the file before it encodes: when it
      raises it may leave an atlas that was there replaced by an incomplete
      one ([pil_save_damages]).
    - Text is encoded when it is printed or written: [print] raises
      [UnicodeEncodeError] when the standard output cannot encode a file
      name found in the directory ([stdout_encodes]), and so does
      [f.write] when the mapping file cannot ([file_encodes]).  Names on
      a file system are any bytes.  The command-line arguments, the
      numbers, the fixed texts and the messages of the exceptions are
      text that the standard output can show, and the standard output
      itself stays open; once the mapping file is open, a write to it
      fails only on a name it cannot encode. *)

From Stdlib Require Import ZArith QArith Qround Qpower Qminmax Lia Lqa.
From Stdlib Require Import List Bool String Ascii Sorted Permutation.
From Stdlib Require PrimFloat FloatOps SpecFloat Uint63.
From Stdlib Require DecimalString DecimalPos DecimalZ.
Import ListNotations.

Local Open Scope Z_scope.

(** ** Exceptions and results *)

(** Instances of Python's [Exception] class that the program can meet. *)
Inductive exn : Type :=
| ZeroDivisionError
| OverflowError
| ValueError
| FileNotFoundError
| NotADirectoryError
| OSError
| UnidentifiedImageError
| MemoryError
| UnicodeEncodeError.

Inductive result (A : Type) : Type :=
| Ok (a : A)
| Raise (e : exn).
Arguments Ok {A} a.
Arguments Raise {A} e.

Definition rbind {A B} (r : result A) (k : A -> result B) : result B :=
  match r with
  | Ok a => k a
  | Raise e => Raise e
  end.

Definition is_ok {A} (r : result A) : bool :=
  match r with Ok _ => true | Raise _ => false end.

(** ** Integers *)

Definition floordiv (a b : Z) : result Z :=
  if b =? 0 then Raise ZeroDivisionError else Ok (a / b).

Definition pymod (a b : Z) : result Z :=
  if b =? 0 then Raise ZeroDivisionError else Ok (a mod b).

(** ** Floats: IEEE 754 binary64, round to nearest, ties to even *)

Module Float64.

Local Open Scope Q_scope.

(** A float is finite (the rational it denotes) or infinite.  The sign
    of zero is not kept: nothing in the program observes it.  NaN never
    arises: the program only multiplies finite floats, and [math.sqrt]
    raises on negative arguments. *)
Inductive t : Type :=
| Fin (q : Q)
| Inf (neg : bool).

(** [floor (log2 x)] for [x > 0]. *)
Definition Qlog2 (x : Q) : Z :=
  let k := (Z.log2 (Qnum x) - Z.log2 (Zpos (Qden x)))%Z in
  if Qle_bool (2 ^ k) x then k else (k - 1)%Z.

(** Nearest integer, ties to the even one. *)
Definition rne (x : Q) : Z :=
  let f := Qfloor x in
  match Qcompare (x - inject_Z f) (1 # 2) with
  | Lt => f
  | Gt => (f + 1)%Z
  | Eq => if Z.even f then f else (f + 1)%Z
  end.

(** Exponent of the unit in the last place of [x > 0]: 53 significant
    bits, and no exponent below that of the subnormals. *)
Definition ulp_exp (x : Q) : Z := Z.max (Qlog2 x - 52) (-1074).

(** Rounding of a magnitude [x > 0], exponent unbounded above. *)
Definition round_mag (x : Q) : Q :=
  let e := ulp_exp x in
  inject_Z (rne (x / 2 ^ e)) * 2 ^ e.

Definition overflows (r : Q) : bool := Qle_bool (2 ^ 1024) r.

Definition round (x : Q) : t :=
  match Qnum x with
  | Z0 => Fin 0
  | Zpos _ =>
      let r := round_mag x in
      if overflows r then Inf false else Fin (Qred r)
  | Zneg _ =>
      let r := round_mag (- x) in
      if overflows r then Inf true else Fin (Qred (- r))
  end.

(** [float(n)], as done implicitly by [int * float]. *)
Definition of_int (n : Z) : result Q :=
  match round (inject_Z n) with
  | Fin q => Ok q
  | Inf _ => Raise OverflowError
  end.

(** [a / b] on two ints: the correctly rounded quotient. *)
Definition truediv (a b : Z) : result Q :=
  if (b =? 0)%Z then Raise ZeroDivisionError
  else match round (inject_Z a / inject_Z b) with
       | Fin q => Ok q
       | Inf _ => Raise OverflowError
       end.

(** [x * y] on two finite floats; overflow gives an infinity. *)
Definition mul (x y : Q) : t := round (x * y).

(** [n * y] with [n] an int and [y] a float. *)
Definition int_mul (n : Z) (y : Q) : result t :=
  rbind (of_int n) (fun x => Ok (mul x y)).

(** [x * n] with [x] a float and [n] an int. *)
Definition mul_int (x : Q) (n : Z) : result t :=
  rbind (of_int n) (fun y => Ok (mul x y)).

Definition Qltb (x y : Q) : bool := negb (Qle_bool y x).

(** [min(a, b)]: the first argument unless the second is smaller. *)
Definition min (a b : Q) : Q := if Qltb b a then b else a.

(** Correctly rounded square root of a finite float [x > 0]; the result
    is always in the normal range. *)
Definition sqrt_mag (x : Q) : Q :=
  let e := (Qlog2 x / 2 - 52)%Z in
  let y := x / 2 ^ (2 * e) in
  let f := Z.sqrt (Qfloor y) in
  let h := inject_Z f + (1 # 2) in
  let m := match Qcompare y (h * h) with
           | Lt => f
           | Gt => (f + 1)%Z
           | Eq => if Z.even f then f else (f + 1)%Z
           end in
  Qred (inject_Z m * 2 ^ e).

(** [math.sqrt]. *)
Definition sqrt (x : t) : result t :=
  match x with
  | Inf false => Ok (Inf false)
  | Inf true => Raise ValueError
  | Fin q =>
      match Qnum q with
      | Z0 => Ok (Fin 0)
      | Zpos _ => Ok (Fin (sqrt_mag q))
      | Zneg _ => Raise ValueError
      end
  end.

(** [math.floor], [math.ceil] and [int(...)] on a float. *)
Definition floor (x : t) : result Z :=
  match x with
  | Fin q => Ok (Qfloor q)
  | Inf _ => Raise OverflowError
  end.

Definition ceil (x : t) : result Z :=
  match x with
  | Fin q => Ok (Qceiling q)
  | Inf _ => Raise OverflowError
  end.

Definition Qtrunc (q : Q) : Z :=
  if Qltb q 0 then Qceiling q else Qfloor q.

Definition to_int (x : t) : result Z :=
  match x with
  | Fin q => Ok (Qtrunc q)
  | Inf _ => Raise OverflowError
  end.

(** Python's [round(x)] to an int: nearest, ties to even. *)
Definition pyround (x : t) : result Z :=
  match x with
  | Fin q => Ok (rne q)
  | Inf _ => Raise OverflowError
  end.

(** Unit roundoff, and the largest rounding error of a subnormal. *)
Definition u : Q := 2 ^ (-53).
Definition eta : Q := 2 ^ (-1075).

End Float64.

(** ** Strings and [os.path] (posixpath) *)

(** Number of characters, as an int. *)
Definition len (s : string) : Z := Z.of_nat (String.length s).

(** [s.rfind(c)] for a one-character [c]: the highest index, or [-1]. *)
Fixpoint rfind (c : ascii) (s : string) : Z :=
  match s with
  | EmptyString => -1
  | String a r =>
      let k := rfind c r in
      if 0 <=? k then k + 1 else if Ascii.eqb a c then 0 else -1
  end.

(** [s[:n]] and [s[n:]] for [n >= 0]. *)
Fixpoint take (n : nat) (s : string) : string :=
  match n, s with
  | S n', String a r => String a (take n' r)
  | _, _ => EmptyString
  end.

Fixpoint drop (n : nat) (s : string) : string :=
  match n, s with
  | S n', String _ r => drop n' r
  | _, _ => s
  end.

Definition slice_to (i : Z) (s : string) : string := take (Z.to_nat i) s.
Definition slice_from (i : Z) (s : string) : string := drop (Z.to_nat i) s.
Definition slice (i j : Z) (s : string) : string := slice_from i (slice_to j s).

Fixpoint endswith_char (s : string) (c : ascii) : bool :=
  match s with
  | EmptyString => false
  | String a EmptyString => Ascii.eqb a c
  | String _ r => endswith_char r c
  end.

Definition startswith_char (s : string) (c : ascii) : bool :=
  match s with
  | String a _ => Ascii.eqb a c
  | EmptyString => false
  end.

(** [c.lower()] on ASCII letters. *)
Definition lower_char (c : ascii) : ascii :=
  let n := N_of_ascii c in
  if ((65 <=? n) && (n <=? 90))%N then ascii_of_N (n + 32) else c.

Fixpoint lower (s : string) : string :=
  match s with
  | EmptyString => EmptyString
  | String a r => String (lower_char a) (lower r)
  end.

Definition sep : ascii := "/"%char.
Definition extsep : ascii := "."%char.

(** The loop of [genericpath._splitext] that skips leading dots: is there
    a character other than a dot in [s]? *)
Fixpoint has_non_dot (s : string) : bool :=
  match s with
  | EmptyString => false
  | String a r => if Ascii.eqb a extsep then has_non_dot r else true
  end.

(** [os.path.splitext]. *)
Definition splitext (p : string) : string * string :=
  let sepIndex := rfind sep p in
  let dotIndex := rfind extsep p in
  if sepIndex <? dotIndex then
    if has_non_dot (slice (sepIndex + 1) dotIndex p)
    then (slice_to dotIndex p, slice_from dotIndex p)
    else (p, EmptyString)
  else (p, EmptyString).

(** [os.path.basename]. *)
Definition basename (p : string) : string := slice_from (rfind sep p + 1) p.

(** [os.path.join(a, b)]. *)
Definition join (a b : string) : string :=
  if startswith_char b sep then b
  else if String.eqb a EmptyString || endswith_char a sep then (a ++ b)%string
  else (a ++ String sep b)%string.

(** [sorted] on a list of strings: code-point lexicographic order. *)
Fixpoint insert_sorted (x : string) (l : list string) : list string :=
  match l with
  | [] => [x]
  | y :: r => if String.leb x y then x :: l else y :: insert_sorted x r
  end.

Fixpoint sorted (l : list string) : list string :=
  match l with
  | [] => []
  | x :: r => insert_sorted x (sorted r)
  end.

Definition in_set (x : string) (l : list string) : bool :=
  existsb (String.eqb x) l.

(** ** The collaborators: file system and image library *)

Inductive fs_node : Type :=
| Missing
| NotADirectory
| Directory (entries : list string).

(** What the program reads of a [PIL.Image]. *)
Record image : Type := mkImage {
  source : string;
  width : Z;
  height : Z;
  mode : string
}.

(** Each call into the collaborators either succeeds or raises. *)
Record world : Type := mkWorld {
  lookup : string -> fs_node;
  pil_open : string -> result image;
  pil_convert_raises : image -> option exn;
  pil_resize_raises : image -> Z -> Z -> option exn;
  pil_new_raises : Z -> Z -> option exn;
  pil_paste_raises : image -> Z -> Z -> option exn;
  pil_save_raises : string -> option exn;
  open_raises : string -> option exn;
  stdout_encodes : string -> bool;
  file_encodes : string -> bool;
  pil_save_damages : string -> bool
}.

(** ** Program state and the monad of effects *)

(** A value of the mapping dict. *)
Record placement : Type := mkPlacement {
  p_x : Z;
  p_y : Z;
  p_width : Z;
  p_height : Z;
  p_cell_x : Z;
  p_cell_y : Z;
  p_cell_width : Z;
  p_cell_height : Z;
  p_original_size : Z * Z
}.

(** A Python dict with string keys: insertion ordered, a repeated key
    keeps its position and takes the new value. *)
Definition dict : Type := list (string * placement).

Fixpoint dict_set (k : string) (v : placement) (d : dict) : dict :=
  match d with
  | [] => [(k, v)]
  | (k', v') :: r =>
      if String.eqb k' k then (k, v) :: r else (k', v') :: dict_set k v r
  end.

Fixpoint dict_get (k : string) (d : dict) : option placement :=
  match d with
  | [] => None
  | (k', v') :: r => if String.eqb k' k then Some v' else dict_get k r
  end.

(** One call of [atlas.paste(img, (px, py), img)]. *)
Record paste : Type := mkPaste {
  pasted : image;
  at_x : Z;
  at_y : Z
}.

(** Lines written to standard output. *)
Inductive line : Type :=
| Found (n : Z)
| Cols (cols : Z)
| GridLayout (cols rows : Z)
| CellSize (w h : Z)
| Processing (name : string)
| ErrorProcessing (path : string) (e : exn)
| AtlasSaved (path : string)
| MappingSaved (path : string)
| Complete
| AtlasLine (path : string)
| Processed (n : Z)
| ErrorLine (e : exn).

Inductive file_content : Type :=
| Png (w h : Z) (pastes : list paste)
| MappingText (w h : Z) (entries : dict)
| IncompletePng.

Record state : Type := mkState {
  stdout : list line;
  atlas : list paste;          (* what has been composited on the canvas *)
  atlas_mapping : dict;
  files : list (string * file_content)
}.

Definition initial : state := mkState [] [] [] [].

Definition M (A : Type) : Type := state -> result A * state.

Definition ret {A} (a : A) : M A := fun s => (Ok a, s).

Definition bind {A B} (m : M A) (k : A -> M B) : M B :=
  fun s => match m s with
           | (Ok a, s') => k a s'
           | (Raise e, s') => (Raise e, s')
           end.

Definition raise {A} (e : exn) : M A := fun s => (Raise e, s).

Definition lift {A} (r : result A) : M A := fun s => (r, s).

Definition check (o : option exn) : M unit :=
  match o with
  | None => ret tt
  | Some e => raise e
  end.

(** [try: body  except Exception as e: handler(e)]. *)
Definition try_except (body : M unit) (handler : exn -> M unit) : M unit :=
  fun s => match body s with
           | (Ok a, s') => (Ok a, s')
           | (Raise e, s') => handler e s'
           end.

Declare Scope monad_scope.
Delimit Scope monad_scope with monad.
Notation "x <- m ;; k" := (bind m (fun x => k))
  (at level 61, m at next level, right associativity) : monad_scope.
Notation "' pat <- m ;; k" := (bind m (fun x => match x with pat => k end))
  (at level 61, pat pattern, m at next level, right associativity)
  : monad_scope.
Notation "m ;;; k" := (bind m (fun _ => k))
  (at level 61, right associativity) : monad_scope.

Definition print (l : line) : M unit :=
  fun s =>
    (Ok tt, mkState (stdout s ++ [l]) (atlas s) (atlas_mapping s) (files s)).

(** [print] of a text that holds the name of a file found in the
    directory. *)
Definition print_name (W : world) (filename : string) (l : line) : M unit :=
  if stdout_encodes W filename then print l else raise UnicodeEncodeError.

Definition new_atlas : M unit :=
  fun s => (Ok tt, mkState (stdout s) [] (atlas_mapping s) (files s)).

Definition new_mapping : M unit :=
  fun s => (Ok tt, mkState (stdout s) (atlas s) [] (files s)).

Definition do_paste (p : paste) : M unit :=
  fun s =>
    (Ok tt, mkState (stdout s) (atlas s ++ [p]) (atlas_mapping s) (files s)).

Definition set_item (k : string) (v : placement) : M unit :=
  fun s =>
    (Ok tt, mkState (stdout s) (atlas s) (dict_set k v (atlas_mapping s))
                    (files s)).

Definition write_file (path : string) (c : file_content) : M unit :=
  fun s =>
    (Ok tt, mkState (stdout s) (atlas s) (atlas_mapping s)
                    (files s ++ [(path, c)])).

Definition get_atlas : M (list paste) := fun s => (Ok (atlas s), s).
Definition get_mapping : M dict := fun s => (Ok (atlas_mapping s), s).

Declare Scope result_scope.
Delimit Scope result_scope with result.
Notation "x <- r ;; k" := (rbind r (fun x => k))
  (at level 61, r at next level, right associativity) : result_scope.

(** ** The program: [class ImageAtlasGenerator] *)

Record ImageAtlasGenerator : Type := mkGenerator {
  input_dir : string;
  output_path : string;
  output_name : string;
  sprite_width : Z;
  sprite_height : Z;
  atlas_width : Z;
  atlas_height : Z
}.

Definition supported_formats : list string :=
  [".png"; ".jpeg"; ".jpg"; ".webm"; ".webp"]%string.

Definition null {A} (l : list A) : bool :=
  match l with [] => true | _ => false end.

Section Program.

Variable W : world.
Variable self : ImageAtlasGenerator.

(** [get_image_files] (lines 26-38): first its loop over [os.listdir]. *)
Fixpoint collect_image_files (entries : list string) : list string :=
  match entries with
  | [] => []
  | filename :: rest =>
      let file_ext := lower (snd (splitext filename)) in
      if in_set file_ext supported_formats
      then join (input_dir self) filename :: collect_image_files rest
      else collect_image_files rest
  end.

Definition get_image_files : result (list string) :=
  match lookup W (input_dir self) with
  | Missing => Raise FileNotFoundError          (* os.path.exists is false *)
  | NotADirectory => Raise NotADirectoryError   (* raised by os.listdir *)
  | Directory entries => Ok (sorted (collect_image_files entries))
  end.

(** [calculate_grid_size] (lines 40-51); it prints [cols] on its way. *)
Definition calculate_grid_size (num_images : Z) : M (Z * Z) :=
  (if num_images =? 0 then ret (1, 1)
   else
     ratio <- lift (Float64.truediv (atlas_width self) (sprite_width self)) ;;
     product <- lift (Float64.mul_int ratio num_images) ;;
     root <- lift (Float64.sqrt product) ;;
     cols <- lift (Float64.floor root) ;;
     print (Cols cols) ;;;
     quotient <- lift (Float64.truediv num_images cols) ;;
     rows <- lift (Float64.ceil (Float64.Fin quotient)) ;;
     ret (cols, rows))%monad.

(** [resize_image_to_fit] (lines 53-65): first the two dimensions it
    computes, then the call of [image.resize]. *)
Definition new_size (img : image) (cell_width cell_height : Z)
  : result (Z * Z) :=
  (scale_x <- Float64.truediv cell_width (width img) ;;
   scale_y <- Float64.truediv cell_height (height img) ;;
   let scale := Float64.min scale_x scale_y in
   scaled_width <- Float64.int_mul (width img) scale ;;
   new_width <- Float64.to_int scaled_width ;;
   scaled_height <- Float64.int_mul (height img) scale ;;
   new_height <- Float64.to_int scaled_height ;;
   Ok (new_width, new_height))%result.

Definition resize_image_to_fit (img : image) (cell_width cell_height : Z)
  : result image :=
  (size <- new_size img cell_width cell_height ;;
   let '(new_width, new_height) := size in
   match pil_resize_raises W img new_width new_height with
   | Some e => Raise e
   | None => Ok (mkImage (source img) new_width new_height (mode img))
   end)%result.

(** [img.convert('RGBA')]. *)
Definition convert_rgba (img : image) : result image :=
  match pil_convert_raises W img with
  | Some e => Raise e
  | None => Ok (mkImage (source img) (width img) (height img) "RGBA")
  end.

(** The body of the [try] in [create_atlas], for one file (lines
    97-135). *)
Definition process_image (cols cell_width cell_height : Z)
    (i : Z) (image_path : string) : M unit :=
  (col <- lift (pymod i cols) ;;
   row <- lift (floordiv i cols) ;;
   let x := col * cell_width in
   let y := row * cell_height in
   print_name W (basename image_path) (Processing (basename image_path)) ;;;
   opened <- lift (pil_open W image_path) ;;
   img <- lift (if negb (String.eqb (mode opened) "RGBA")
                then convert_rgba opened else Ok opened) ;;
   resized_img <- lift (resize_image_to_fit img cell_width cell_height) ;;
   let paste_x := x + (cell_width - width resized_img) / 2 in
   let paste_y := y + (cell_height - height resized_img) / 2 in
   check (pil_paste_raises W resized_img paste_x paste_y) ;;;
   do_paste (mkPaste resized_img paste_x paste_y) ;;;
   let filename := basename image_path in
   set_item filename
     (mkPlacement paste_x paste_y (width resized_img) (height resized_img)
                  x y cell_width cell_height (width img, height img)))%monad.

(** The handler of the loop (lines 137-139): [image_path] is the input
    directory, a command-line argument, joined with the file name. *)
Definition log_failure (image_path : string) (e : exn) : M unit :=
  print_name W (basename image_path) (ErrorProcessing image_path e).

(** One turn of the loop: [try: ... except Exception as e: print(...);
    continue]. *)
Definition process_or_skip (cols cell_width cell_height : Z)
    (i : Z) (image_path : string) : M unit :=
  try_except (process_image cols cell_width cell_height i image_path)
             (log_failure image_path).

(** [for i, image_path in enumerate(image_files): ...] (lines 95-139),
    from index [i] on. *)
Fixpoint for_each_image (cols cell_width cell_height : Z)
    (i : Z) (image_files : list string) : M unit :=
  match image_files with
  | [] => ret tt
  | image_path :: rest =>
      (process_or_skip cols cell_width cell_height i image_path ;;;
       for_each_image cols cell_width cell_height (i + 1) rest)%monad
  end.

(** Where [create_atlas] saves the atlas (line 142). *)
Definition atlas_path : string :=
  (output_path self
     ++ (if endswith_char (output_path self) sep then "" else "/")
     ++ output_name self ++ "-atlus.png")%string.

(** [atlas.save(path, 'PNG')] (line 142). *)
Definition save_atlas (pastes : list paste) : M unit :=
  match pil_save_raises W atlas_path with
  | None =>
      write_file atlas_path
                 (Png (atlas_width self) (atlas_height self) pastes)
  | Some e =>
      ((if pil_save_damages W atlas_path
        then write_file atlas_path IncompletePng else ret tt) ;;;
       raise e)%monad
  end.

(** [create_atlas] (lines 67-145). *)
Definition create_atlas : M dict :=
  (image_files <- lift get_image_files ;;
   if null image_files then raise ValueError
   else
     print (Found (Z.of_nat (List.length image_files))) ;;;
     grid <- calculate_grid_size (Z.of_nat (List.length image_files)) ;;
     let '(cols, rows) := grid in
     print (GridLayout cols rows) ;;;
     let cell_width := sprite_width self in
     let cell_height := sprite_height self in
     print (CellSize cell_width cell_height) ;;;
     check (pil_new_raises W (atlas_width self) (atlas_height self)) ;;;
     new_atlas ;;;
     new_mapping ;;;
     for_each_image cols cell_width cell_height 0 image_files ;;;
     pastes <- get_atlas ;;
     save_atlas pastes ;;;
     print (AtlasSaved (output_path self)) ;;;
     get_mapping)%monad.

(** [save_mapping_file] (lines 147-162): first the path it writes to, then
    the loop of its [f.write] calls.  The text of the file is kept as the
    data it is printed from. *)
Definition mapping_file_path (mapping_path : option string) : string :=
  match mapping_path with
  | None => (fst (splitext (output_path self)) ++ "_mapping.txt")%string
  | Some p => p
  end.

(** The entries written before an [f.write] raises, if one does: the
    lines are written one by one, and the text of a line is encoded as a
    whole before any of it is written. *)
Fixpoint written_entries (mapping : dict) : dict * option exn :=
  match mapping with
  | [] => ([], None)
  | (filename, info) :: rest =>
      if file_encodes W filename
      then let (written, outcome) := written_entries rest in
           ((filename, info) :: written, outcome)
      else ([], Some UnicodeEncodeError)
  end.

(** The [with] statement closes the file on the way out: what was written
    before an exception is in the file. *)
Definition save_mapping_file (mapping : dict) (mapping_path : option string)
  : M unit :=
  (let path := mapping_file_path mapping_path in
   check (open_raises W path) ;;;
   let (written, outcome) := written_entries mapping in
   write_file path
              (MappingText (atlas_width self) (atlas_height self) written) ;;;
   check outcome ;;;
   print (MappingSaved path))%monad.

End Program.

(** The value of [cols] in [calculate_grid_size] (line 47),
    [math.floor(math.sqrt((self.atlas_width / self.sprite_width) * num_images))],
    operation by operation: each of the division, the product and the
    square root gives the float nearest to its exact result. *)
Definition grid_columns (self : ImageAtlasGenerator) (num_images : Z)
  : result Z :=
  (ratio <- Float64.truediv (atlas_width self) (sprite_width self) ;;
   product <- Float64.mul_int ratio num_images ;;
   root <- Float64.sqrt product ;;
   Float64.floor root)%result.

(** ** [main] *)

Record arguments : Type := mkArguments {
  arg_input_dir : string;
  arg_output_path : string;
  arg_output_name : string;
  arg_sprite_width : Z;
  arg_sprite_height : Z;
  arg_width : Z;
  arg_height : Z;
  arg_mapping : option string
}.

Definition generator_of (args : arguments) : ImageAtlasGenerator :=
  mkGenerator (arg_input_dir args) (arg_output_path args)
              (arg_output_name args) (arg_sprite_width args)
              (arg_sprite_height args) (arg_width args) (arg_height args).

(** [main] (lines 164-201), after the parsing of the command line; the
    result is the exit status of the process. *)
Definition main (W : world) (args : arguments) (s : state) : Z * state :=
  let generator := generator_of args in
  let body :=
    (mapping <- create_atlas W generator ;;
     save_mapping_file W generator mapping (arg_mapping args) ;;;
     print Complete ;;;
     print (AtlasLine (arg_output_path args)) ;;;
     print (Processed (Z.of_nat (List.length mapping))))%monad in
  match body s with
  | (Ok _, s') => (0, s')
  | (Raise e, s') => (1, snd (print (ErrorLine e) s'))
  end.

(** ** The specification's wording, for comparison with the code *)

Module Spec.

Local Open Scope Q_scope.

(** "scale = min(cellWidth/imgWidth, cellHeight/imgHeight)" *)
Definition scale (imgWidth imgHeight cellWidth cellHeight : Z) : Q :=
  Qmin (inject_Z cellWidth / inject_Z imgWidth)
       (inject_Z cellHeight / inject_Z imgHeight).

(** "new size = round(imgWidth*scale), round(imgHeight*scale)":
    nearest-integer rounding of the uniformly scaled dimensions. *)
Definition rounded_size (imgWidth imgHeight cellWidth cellHeight : Z)
  : Z * Z :=
  let s := scale imgWidth imgHeight cellWidth cellHeight in
  (Float64.rne (inject_Z imgWidth * s), Float64.rne (inject_Z imgHeight * s)).

(** "the atlas output path with its extension replaced by
    [_mapping.txt]", the atlas output path being
    [{output_path}/{output_name}-atlus.png]. *)
Definition mapping_file_path (self : ImageAtlasGenerator) : string :=
  (fst (splitext (atlas_path self)) ++ "_mapping.txt")%string.

(** "entries whose lowercased extension is one of
    {.png, .jpg, .jpeg, .webp, .webm}" *)
Definition supported (entry : string) : bool :=
  in_set (lower (snd (splitext entry)))
         [".png"; ".jpg"; ".jpeg"; ".webp"; ".webm"]%string.

(** "columns = floor(sqrt((atlasWidth / spriteWidth) * imageCount))", on
    the numbers themselves: the floor of the square root of a rational
    that is not negative is the integer square root of its floor. *)
Definition columns (self : ImageAtlasGenerator) (imageCount : Z) : Z :=
  Z.sqrt (Qfloor (inject_Z (atlas_width self) / inject_Z (sprite_width self)
                  * inject_Z imageCount)).

(** "rows = ceil(imageCount / columns)": the least [r] with
    [r * columns >= imageCount], for [columns >= 1]. *)
Definition rows (imageCount columns : Z) : Z :=
  ((imageCount + columns - 1) / columns)%Z.

End Spec.

(** ** The kernel's binary64 floats, to compare the model with *)

Module Hardware.

(** The rational a kernel float denotes, when it is finite. *)
Definition to_Q (f : PrimFloat.float) : option Q :=
  match FloatOps.Prim2SF f with
  | SpecFloat.S754_zero _ => Some 0%Q
  | SpecFloat.S754_finite s m e =>
      Some (Qred ((if s then -1 else 1) * inject_Z (Z.pos m) * 2 ^ e))
  | _ => None
  end.

(** An int from 0 to 2^63 - 1 as a kernel float. *)
Definition of_Z (n : Z) : PrimFloat.float :=
  PrimFloat.of_uint63 (Uint63.of_Z n).

Definition same (r : result Q) (f : PrimFloat.float) : bool :=
  match r, to_Q f with
  | Ok q, Some q' => Qeq_bool q q'
  | _, _ => false
  end.

Definition same_float (r : result Float64.t) (f : PrimFloat.float) : bool :=
  match r with
  | Ok (Float64.Fin q) => same (Ok q) f
  | _ => false
  end.

(** [a / b], [b * (a / b)] and [math.sqrt(a / b)], in the model and in the
    kernel. *)
Definition div_agrees (ab : Z * Z) : bool :=
  let (a, b) := ab in
  same (Float64.truediv a b) (PrimFloat.div (of_Z a) (of_Z b)).

Definition mul_agrees (ab : Z * Z) : bool :=
  let (a, b) := ab in
  same_float (rbind (Float64.truediv a b) (Float64.int_mul b))
             (PrimFloat.mul (of_Z b) (PrimFloat.div (of_Z a) (of_Z b))).

Definition sqrt_agrees (ab : Z * Z) : bool :=
  let (a, b) := ab in
  same_float (rbind (Float64.truediv a b)
                    (fun q => Float64.sqrt (Float64.Fin q)))
             (PrimFloat.sqrt (PrimFloat.div (of_Z a) (of_Z b))).

Definition sample_operands : list (Z * Z) :=
  [(512, 4096); (512, 32); (32, 128); (32, 7); (32, 49); (1, 49); (32, 3);
   (32, 2); (4, 8); (1, 3); (2, 3); (5, 7); (640, 480); (1, 1); (1000, 33)].

End Hardware.

(** ** Outcome of the loop, file by file *)

Definition lex_le (a b : string) : Prop := String.leb a b = true.

(** The image handed to [resize_image_to_fit]: converted to RGBA when the
    decoded one is not. *)
Definition normalized (opened : image) : image :=
  if negb (String.eqb (mode opened) "RGBA")
  then mkImage (source opened) (width opened) (height opened) "RGBA"
  else opened.

(** Do the calls of the image library succeed for the file of index [i]:
    decoding, conversion to RGBA where the decoded image is not, resizing
    to the scaled size, pasting at the centred position? *)
Definition library_calls_succeed (W : world) (cols cell_width cell_height : Z)
    (i : Z) (image_path : string) : bool :=
  match pil_open W image_path with
  | Raise _ => false
  | Ok opened =>
      match (if negb (String.eqb (mode opened) "RGBA")
             then pil_convert_raises W opened else None) with
      | Some _ => false
      | None =>
          let img := normalized opened in
          match new_size img cell_width cell_height with
          | Raise _ => false
          | Ok (new_width, new_height) =>
              match pil_resize_raises W img new_width new_height with
              | Some _ => false
              | None =>
                  match pil_paste_raises W
                          (mkImage (source img) new_width new_height (mode img))
                          (i mod cols * cell_width
                           + (cell_width - new_width) / 2)
                          (i / cols * cell_height
                           + (cell_height - new_height) / 2) with
                  | Some _ => false
                  | None => true
                  end
              end
          end
      end
  end.

(** Does the body of the [try] complete for the file of index [i]?  (Its
    outcome does not depend on the state it starts from.) *)
Definition processed (W : world) (cols cell_width cell_height : Z)
    (i : Z) (image_path : string) : bool :=
  is_ok (fst (process_image W cols cell_width cell_height i image_path initial)).

(** Base names of the files for which the calls of the image library
    succeed, in order, the first file having index [i]. *)
Fixpoint placed_names (W : world) (cols cell_width cell_height : Z)
    (i : Z) (image_files : list string) : list string :=
  match image_files with
  | [] => []
  | image_path :: rest =>
      if library_calls_succeed W cols cell_width cell_height i image_path
      then basename image_path
           :: placed_names W cols cell_width cell_height (i + 1) rest
      else placed_names W cols cell_width cell_height (i + 1) rest
  end.


(** The pasted rectangle of a placement lies inside its cell. *)
Definition inside_cell (p : placement) : Prop :=
  p_cell_x p <= p_x p /\ p_x p + p_width p <= p_cell_x p + p_cell_width p /\
  p_cell_y p <= p_y p /\ p_y p + p_height p <= p_cell_y p + p_cell_height p.

(** Dimensions far beyond what the image library can allocate (its sizes
    are C ints), and within which binary64 arithmetic keeps the scaled
    size inside the cell. *)
Definition max_dimension : Z := 2 ^ 50.

Definition dimension (n : Z) : Prop := 1 <= n <= max_dimension.

(** The cell the body of index [i] gives its placement. *)
Definition in_cell_of (cols cell_width cell_height i : Z) (pl : placement) : Prop :=
  p_cell_x pl = i mod cols * cell_width /\
  p_cell_y pl = i / cols * cell_height /\
  p_cell_width pl = cell_width /\
  p_cell_height pl = cell_height.


(** ** Rectangles of the atlas *)

(** A rectangle: x, y, width, height. *)
Definition rectangle : Type := (Z * Z * Z * Z)%type.

(** Where a paste puts its image, and where an entry of the mapping says
    one is. *)
Definition pasted_rectangle (p : paste) : rectangle :=
  (at_x p, at_y p, width (pasted p), height (pasted p)).

Definition recorded_rectangle (e : string * placement) : rectangle :=
  (p_x (snd e), p_y (snd e), p_width (snd e), p_height (snd e)).

Definition cell_rectangle (pl : placement) : rectangle :=
  (p_cell_x pl, p_cell_y pl, p_cell_width pl, p_cell_height pl).

(** Two rectangles without a common pixel: one ends before the other
    begins, horizontally or vertically. *)
Definition disjoint (a b : rectangle) : Prop :=
  let '(x1, y1, w1, h1) := a in
  let '(x2, y2, w2, h2) := b in
  x1 + w1 <= x2 \/ x2 + w2 <= x1 \/ y1 + h1 <= y2 \/ y2 + h2 <= y1.

(** ** Paths of the enumerated files *)

(** What [os.path.join] puts in front of a name without separator. *)
Definition joined_prefix (self : ImageAtlasGenerator) : string :=
  if String.eqb (input_dir self) EmptyString
     || endswith_char (input_dir self) sep
  then input_dir self
  else (input_dir self ++ String sep "")%string.

(** ** The text of the mapping file *)








(** ** Example inputs *)
Definition wide_sprites : ImageAtlasGenerator :=
  mkGenerator "in" "out" "sprites" 4096 32 512 512.

Definition defaults : ImageAtlasGenerator :=
  mkGenerator "in" "out" "sprites" 32 32 512 512.

Definition example_entries : list string :=
  ["d.png"; "b.PNG"; "readme.txt"; "bad.png"; "a.jpg"]%string.

(** A directory [in] with these five entries.  Every image decodes to a 128x7
    RGB image, except [bad.png], which does not decode, and [d.png], which
    is 128x1: its scaled height is 0, which the library refuses to resize
    to. *)
Definition example_world : world :=
  mkWorld
    (fun d => if String.eqb d "in" then Directory example_entries
              else Missing)
    (fun p => if String.eqb p "in/bad.png" then Raise UnidentifiedImageError
              else if String.eqb p "in/d.png" then Ok (mkImage p 128 1 "RGB")
              else Ok (mkImage p 128 7 "RGB"))
    (fun _ => None)
    (fun _ w h => if (w <? 1) || (h <? 1) then Some ValueError else None)
    (fun _ _ => None)
    (fun _ _ _ => None)
    (fun _ => None)
    (fun _ => None)
    (fun _ => true)
    (fun _ => true)
    (fun _ => false).

(** A world in which a chosen call of the image library raises: 0 the
    decoding, 1 the conversion, 2 the resizing, 3 the pasting; any other
    number, none. *)
Definition world_failing_at (step : nat) : world :=
  mkWorld
    (fun _ => Missing)
    (fun p => if Nat.eqb step 0 then Raise UnidentifiedImageError
              else Ok (mkImage p 64 48 "RGB"))
    (fun _ => if Nat.eqb step 1 then Some OSError else None)
    (fun _ _ _ => if Nat.eqb step 2 then Some MemoryError else None)
    (fun _ _ => None)
    (fun _ _ _ => if Nat.eqb step 3 then Some ValueError else None)
    (fun _ => None)
    (fun _ => None)
    (fun _ => true)
    (fun _ => true)
    (fun _ => false).

(** What one turn of the loop on [in/x.png] prints and leaves in the
    mapping, in that world and with [cols] columns. *)
Definition one_turn (step : nat) (cols : Z) : result unit * list line * nat :=
  let '(r, s) :=
    process_or_skip (world_failing_at step) cols 32 32 0 "in/x.png" initial in
  (r, stdout s, List.length (atlas_mapping s)).

(** A file name that is not text: the byte 255 occurs in no UTF-8
    sequence. *)
Definition unprintable_name : string := String "b" (String "255" ".png").

(** A directory [in] with three images that decode, the second with that
    name, and a standard output and a mapping file that encode UTF-8
    only. *)
Definition strict_world : world :=
  mkWorld
    (fun d => if String.eqb d "in"
              then Directory ["c.png"; unprintable_name; "a.png"]%string
              else Missing)
    (fun p => Ok (mkImage p 128 7 "RGBA"))
    (fun _ => None)
    (fun _ _ _ => None)
    (fun _ _ => None)
    (fun _ _ _ => None)
    (fun _ => None)
    (fun _ => None)
    (fun text => rfind "255" text <? 0)
    (fun text => rfind "255" text <? 0)
    (fun _ => false).

(** A directory [in] with three images, the second of which, in sorted
    order, does not decode. *)
Definition gap_world : world :=
  mkWorld
    (fun d => if String.eqb d "in"
              then Directory ["c.png"; "bad.png"; "a.png"]%string
              else Missing)
    (fun p => if String.eqb p "in/bad.png" then Raise UnidentifiedImageError
              else Ok (mkImage p 128 7 "RGB"))
    (fun _ => None)
    (fun _ _ _ => None)
    (fun _ _ => None)
    (fun _ _ _ => None)
    (fun _ => None)
    (fun _ => None)
    (fun _ => true)
    (fun _ => true)
    (fun _ => false).

Definition example_arguments (sprite_width : Z) : arguments :=
  mkArguments "in" "out" "sprites" sprite_width 32 512 512 None.


(** ** Tactics *)

(** Closes a goal about concrete inputs. *)
Ltac by_evaluation :=
  lazymatch goal with
  | |- dimension _ => unfold dimension, max_dimension; simpl; lia
  | |- _ => vm_compute; reflexivity
  end.


(** Unfolds the operations of the monad, leaving the program's own
    functions folded. *)
Ltac run_monad :=
  cbv beta iota zeta
      delta [bind lift print raise ret check null new_atlas new_mapping
             get_atlas get_mapping write_file];
  cbn [stdout atlas atlas_mapping files].

Ltac run_monad_in H :=
  cbv beta iota zeta
      delta [bind lift print raise ret check null new_atlas new_mapping
             get_atlas get_mapping write_file] in H;
  cbn [stdout atlas atlas_mapping files] in H.

(** * Facts about the runtime *)

(** ** Rounding *)

Module Float64Facts.
Import Float64.
Local Open Scope Q_scope.

Lemma rne_upper (x : Q) : inject_Z (rne x) <= x + (1 # 2).
Proof.
  unfold rne.
  pose proof (Qfloor_le x) as Hf.
  pose proof (Qlt_floor x) as Hc.
  rewrite inject_Z_plus in Hc. change (inject_Z 1) with 1 in Hc.
  destruct (Qcompare_spec (x - inject_Z (Qfloor x)) (1 # 2)) as [E | E | E].
  - destruct (Z.even (Qfloor x)); [lra | ].
    rewrite inject_Z_plus. change (inject_Z 1) with 1. lra.
  - lra.
  - rewrite inject_Z_plus. change (inject_Z 1) with 1. lra.
Qed.

Lemma rne_lower (x : Q) : x - (1 # 2) <= inject_Z (rne x).
Proof.
  unfold rne.
  pose proof (Qfloor_le x) as Hf.
  pose proof (Qlt_floor x) as Hc.
  rewrite inject_Z_plus in Hc. change (inject_Z 1) with 1 in Hc.
  destruct (Qcompare_spec (x - inject_Z (Qfloor x)) (1 # 2)) as [E | E | E].
  - destruct (Z.even (Qfloor x)); [lra | ].
    rewrite inject_Z_plus. change (inject_Z 1) with 1. lra.
  - lra.
  - rewrite inject_Z_plus. change (inject_Z 1) with 1. lra.
Qed.

Lemma rne_nonneg (x : Q) : 0 <= x -> (0 <= rne x)%Z.
Proof.
  intros Hx.
  assert (0 <= Qfloor x)%Z as Hf.
  { change 0%Z with (Qfloor 0). now apply Qfloor_resp_le. }
  unfold rne.
  destruct (Qcompare _ _); [destruct (Z.even _) | | ]; lia.
Qed.

Lemma rne_integer (z : Z) : rne (inject_Z z) = z.
Proof.
  unfold rne. rewrite Qfloor_Z.
  destruct (Qcompare_spec (inject_Z z - inject_Z z) (1 # 2)) as [E | E | E];
    try lra; reflexivity.
Qed.

Lemma rne_comp (x y : Q) : x == y -> rne x = rne y.
Proof.
  intros E. unfold rne. rewrite (Qfloor_comp x y E).
  assert (x - inject_Z (Qfloor y) == y - inject_Z (Qfloor y)) as E' by lra.
  rewrite (Qcompare_comp _ _ E' (1 # 2) (1 # 2) (Qeq_refl _)). reflexivity.
Qed.

Lemma two_power_pos (e : Z) : 0 < 2 ^ e.
Proof. apply Qpower_0_lt. reflexivity. Qed.

Lemma Qlog2_lower (x : Q) : 0 < x -> 2 ^ Qlog2 x <= x.
Proof.
  intros Hx. unfold Qlog2.
  set (k := (Z.log2 (Qnum x) - Z.log2 (Z.pos (Qden x)))%Z).
  destruct (Qle_bool (2 ^ k) x) eqn:E.
  - now apply Qle_bool_iff.
  - destruct x as [n d]. simpl in k.
    assert (0 < n)%Z as Hn by (unfold Qlt in Hx; simpl in Hx; lia).
    pose proof (Z.log2_spec n Hn) as [Hn1 _].
    pose proof (Z.log2_spec (Z.pos d) (Pos2Z.is_pos d)) as [_ Hd2].
    pose proof (Z.log2_nonneg n) as Hn0.
    pose proof (Z.log2_nonneg (Z.pos d)) as Hd0.
    replace (k - 1)%Z with (Z.log2 n - Z.succ (Z.log2 (Z.pos d)))%Z
      by (unfold k; simpl; lia).
    rewrite Qpower_minus by (intro A; discriminate A).
    rewrite <- !(Zpower_Qpower 2) by lia.
    rewrite (Qmake_Qdiv n d).
    apply Qle_shift_div_l.
    { change 0 with (inject_Z 0). rewrite <- Zlt_Qlt. lia. }
    unfold Qdiv. rewrite <- Qmult_assoc, (Qmult_comm (/ _)), Qmult_assoc.
    apply Qle_shift_div_r.
    { change 0 with (inject_Z 0). rewrite <- Zlt_Qlt. lia. }
    rewrite <- !inject_Z_mult, <- Zle_Qle.
    nia.
Qed.

Lemma Qlog2_upper (x : Q) : 0 < x -> x < 2 ^ (Qlog2 x + 1).
Proof.
  intros Hx. unfold Qlog2.
  set (k := (Z.log2 (Qnum x) - Z.log2 (Z.pos (Qden x)))%Z).
  destruct (Qle_bool (2 ^ k) x) eqn:E.
  - destruct x as [n d]. simpl in k.
    assert (0 < n)%Z as Hn by (unfold Qlt in Hx; simpl in Hx; lia).
    pose proof (Z.log2_spec n Hn) as [_ Hn2].
    pose proof (Z.log2_spec (Z.pos d) (Pos2Z.is_pos d)) as [Hd1 _].
    pose proof (Z.log2_nonneg n) as Hn0.
    pose proof (Z.log2_nonneg (Z.pos d)) as Hd0.
    replace (k + 1)%Z with (Z.succ (Z.log2 n) - Z.log2 (Z.pos d))%Z
      by (unfold k; simpl; lia).
    rewrite Qpower_minus by (intro A; discriminate A).
    rewrite <- !(Zpower_Qpower 2) by lia.
    rewrite (Qmake_Qdiv n d).
    apply Qlt_shift_div_l.
    { change 0 with (inject_Z 0). rewrite <- Zlt_Qlt. lia. }
    unfold Qdiv. rewrite <- Qmult_assoc, (Qmult_comm (/ _)), Qmult_assoc.
    apply Qlt_shift_div_r.
    { change 0 with (inject_Z 0). rewrite <- Zlt_Qlt. lia. }
    rewrite <- !inject_Z_mult, <- Zlt_Qlt.
    nia.
  - replace (k - 1 + 1)%Z with k by lia.
    apply Qnot_le_lt. intros A. apply Qle_bool_iff in A. congruence.
Qed.

Lemma half_ulp_bound (x : Q) :
  0 < x -> 2 ^ ulp_exp x * (1 # 2) <= x * u + eta.
Proof.
  intros Hx. unfold ulp_exp.
  pose proof (Qlog2_lower x Hx) as HL.
  assert (0 <= x * u) as Hxu.
  { apply Qmult_le_0_compat; [lra | apply Qlt_le_weak, two_power_pos]. }
  assert (0 <= eta) as Heta by apply Qlt_le_weak, two_power_pos.
  destruct (Z.max_spec (Qlog2 x - 52) (-1074)) as [[_ ->] | [_ ->]].
  - change (2 ^ (-1074) * (1 # 2)) with eta. lra.
  - replace (Qlog2 x - 52)%Z with (Qlog2 x + (-52))%Z by lia.
    rewrite Qpower_plus by (intro A; discriminate A).
    assert (2 ^ Qlog2 x * 2 ^ (-52) * (1 # 2) == 2 ^ Qlog2 x * u) as ->.
    { unfold u. change (2 ^ (-53)) with (2 ^ (-52) * (1 # 2)). ring. }
    assert (2 ^ Qlog2 x * u <= x * u).
    { apply Qmult_le_compat_r; [exact HL | apply Qlt_le_weak, two_power_pos]. }
    lra.
Qed.

Lemma round_mag_scaled (x : Q) :
  round_mag x == inject_Z (rne (x / 2 ^ ulp_exp x)) * 2 ^ ulp_exp x.
Proof. reflexivity. Qed.

Lemma div_mul_power (x : Q) (e : Z) : x / 2 ^ e * 2 ^ e == x.
Proof.
  pose proof (two_power_pos e). field. lra.
Qed.

Lemma round_mag_upper (x : Q) : 0 < x -> round_mag x <= x + x * u + eta.
Proof.
  intros Hx. rewrite round_mag_scaled.
  pose proof (half_ulp_bound x Hx) as Hu.
  pose proof (two_power_pos (ulp_exp x)) as Hp.
  pose proof (rne_upper (x / 2 ^ ulp_exp x)) as Hr.
  apply (Qmult_le_compat_r _ _ (2 ^ ulp_exp x)) in Hr; [ | lra].
  rewrite Qmult_plus_distr_l, div_mul_power in Hr.
  lra.
Qed.

Lemma round_mag_lower (x : Q) : 0 < x -> x - x * u - eta <= round_mag x.
Proof.
  intros Hx. rewrite round_mag_scaled.
  pose proof (half_ulp_bound x Hx) as Hu.
  pose proof (two_power_pos (ulp_exp x)) as Hp.
  pose proof (rne_lower (x / 2 ^ ulp_exp x)) as Hr.
  apply (Qmult_le_compat_r _ _ (2 ^ ulp_exp x)) in Hr; [ | lra].
  unfold Qminus in Hr.
  rewrite Qmult_plus_distr_l, div_mul_power in Hr.
  lra.
Qed.

Lemma round_mag_nonneg (x : Q) : 0 < x -> 0 <= round_mag x.
Proof.
  intros Hx. rewrite round_mag_scaled.
  apply Qmult_le_0_compat; [ | apply Qlt_le_weak, two_power_pos].
  change 0 with (inject_Z 0). rewrite <- Zle_Qle.
  apply rne_nonneg.
  apply Qle_shift_div_l; [apply two_power_pos | lra].
Qed.

(** An integer below 2^53 is a float: rounding keeps it. *)
Lemma round_mag_integer (x : Q) (k : Z) :
  x == inject_Z k -> (0 < k < 2 ^ 53)%Z -> round_mag x == inject_Z k.
Proof.
  intros E Hk.
  assert (0 < x) as Hx.
  { rewrite E. change 0 with (inject_Z 0). rewrite <- Zlt_Qlt. lia. }
  assert (ulp_exp x <= 0)%Z as He.
  { unfold ulp_exp.
    assert (Qlog2 x < 53)%Z; [ | lia].
    apply (Qpower_lt_compat_l_inv 2); [ | reflexivity].
    apply Qle_lt_trans with x; [now apply Qlog2_lower | ].
    rewrite E. rewrite <- (Zpower_Qpower 2) by lia.
    rewrite <- Zlt_Qlt. lia. }
  rewrite round_mag_scaled.
  set (e := ulp_exp x) in *.
  assert (x / 2 ^ e == inject_Z (k * 2 ^ (- e))) as Hs.
  { rewrite inject_Z_mult, (Zpower_Qpower 2) by lia.
    rewrite Qpower_opp, E. reflexivity. }
  rewrite (rne_comp _ _ Hs), rne_integer.
  rewrite inject_Z_mult, (Zpower_Qpower 2) by lia.
  rewrite Qpower_opp.
  change (inject_Z 2) with 2.
  pose proof (two_power_pos e) as Hp.
  rewrite <- Qmult_assoc, (Qmult_comm (/ _)), Qmult_inv_r by lra.
  apply Qmult_1_r.
Qed.

(** Rounding a non-negative real that is far from overflowing: the
    standard error model, with relative error [u] and absolute error
    [eta]. *)
Lemma round_nonneg (x : Q) :
  0 <= x -> x <= 2 ^ 1000 ->
  exists q, round x = Fin q /\ 0 <= q /\
            q <= x + x * u + eta /\ x - x * u - eta <= q.
Proof.
  intros H0 Hmax.
  assert (0 < eta) as Heta by apply two_power_pos.
  assert (0 < u) as Hu by apply two_power_pos.
  unfold round. destruct x as [n d]. simpl Qnum.
  destruct n as [ | p | p].
  - exists 0. split; [reflexivity | ].
    assert (0 # d == 0) as -> by reflexivity. lra.
  - assert (0 < Z.pos p # d) as Hx by reflexivity.
    pose proof (round_mag_upper _ Hx).
    pose proof (round_mag_lower _ Hx).
    pose proof (round_mag_nonneg _ Hx).
    assert (overflows (round_mag (Z.pos p # d)) = false) as ->.
    { unfold overflows. apply not_true_is_false. intros A.
      apply Qle_bool_iff in A.
      assert ((Z.pos p # d) * u <= 2 ^ 1000 * u).
      { apply Qmult_le_compat_r; lra. }
      assert (2 ^ 1000 + 2 ^ 1000 * u + eta < 2 ^ 1024) by reflexivity.
      lra. }
    exists (Qred (round_mag (Z.pos p # d))).
    split; [reflexivity | ]. rewrite Qred_correct. lra.
  - exfalso. unfold Qle in H0. simpl in H0. lia.
Qed.

Lemma round_integer (x : Q) (k : Z) :
  x == inject_Z k -> (0 <= k < 2 ^ 53)%Z ->
  exists q, round x = Fin q /\ q == inject_Z k.
Proof.
  intros E Hk. unfold round.
  destruct (Z.eq_dec k 0) as [-> | Hk0].
  - assert (Qnum x = 0%Z) as ->.
    { unfold Qeq in E. simpl in E. lia. }
    exists 0. split; reflexivity.
  - pose proof (round_mag_integer x k E ltac:(lia)) as Er.
    assert (overflows (round_mag x) = false) as Ho.
    { unfold overflows. apply not_true_is_false. intros A.
      apply Qle_bool_iff in A. rewrite Er in A.
      assert (inject_Z k < inject_Z (2 ^ 53)) by (rewrite <- Zlt_Qlt; lia).
      assert (inject_Z (2 ^ 53) < 2 ^ 1024) by reflexivity.
      lra. }
    destruct (Qnum x) as [ | p | p] eqn:En.
    + exfalso. unfold Qeq in E. simpl in E. nia.
    + rewrite Ho. eexists. split; [reflexivity | ].
      now rewrite Qred_correct.
    + exfalso. unfold Qeq in E. simpl in E. nia.
Qed.

Lemma u_value : u == 1 # 9007199254740992.
Proof. reflexivity. Qed.

Lemma eta_small : 0 < eta /\ eta <= 1 # 1267650600228229401496703205376.
Proof. split; [apply two_power_pos | ]. unfold eta. now apply Qle_bool_iff. Qed.

Lemma Qtrunc_nonneg (q : Q) : 0 <= q -> Qtrunc q = Qfloor q.
Proof.
  intros H. unfold Qtrunc, Qltb.
  apply Qle_bool_iff in H. now rewrite H.
Qed.

Lemma min_bounds (a b : Q) : 0 <= a -> 0 <= b ->
  0 <= min a b /\ min a b <= a /\ min a b <= b.
Proof.
  intros Ha Hb. unfold min, Qltb.
  destruct (Qle_bool a b) eqn:E; simpl.
  - apply Qle_bool_iff in E. lra.
  - assert (~ a <= b) as N.
    { intros A. apply Qle_bool_iff in A. congruence. }
    lra.
Qed.

(** The quotient of two dimensions, as [truediv] returns it. *)
Lemma truediv_dims (c n : Z) :
  (1 <= c <= 2 ^ 50)%Z -> (1 <= n <= 2 ^ 50)%Z ->
  exists q, truediv c n = Ok q /\ 0 <= q /\
            inject_Z n * q <= inject_Z c + inject_Z c * u + inject_Z n * eta.
Proof.
  intros Hc Hn. unfold truediv.
  assert ((n =? 0)%Z = false) as -> by (apply Z.eqb_neq; lia).
  assert (0 < inject_Z n) as Hn0.
  { change 0 with (inject_Z 0). rewrite <- Zlt_Qlt. lia. }
  assert (1 <= inject_Z n) as Hn1.
  { change 1 with (inject_Z 1). rewrite <- Zle_Qle. lia. }
  assert (0 < inject_Z c) as Hc0.
  { change 0 with (inject_Z 0). rewrite <- Zlt_Qlt. lia. }
  assert (inject_Z c <= inject_Z (2 ^ 50)) as Hc1 by (rewrite <- Zle_Qle; lia).
  set (r := inject_Z c / inject_Z n).
  assert (inject_Z n * r == inject_Z c) as Hr by (unfold r; field; lra).
  assert (0 <= r) as Hr0.
  { unfold r. apply Qle_shift_div_l; lra. }
  assert (r <= inject_Z c) as Hr1.
  { unfold r. apply Qle_shift_div_r; [lra | ]. nra. }
  destruct (round_nonneg r Hr0) as (q & -> & Hq0 & Hq1 & _).
  { assert (inject_Z (2 ^ 50) <= 2 ^ 1000) by now apply Qle_bool_iff. lra. }
  exists q. split; [reflexivity | ]. split; [exact Hq0 | ].
  apply (Qmult_le_l _ _ (inject_Z n)) in Hq1; [ | exact Hn0].
  assert (inject_Z n * (r + r * u + eta)
          == inject_Z n * r + inject_Z n * r * u + inject_Z n * eta) as E by ring.
  rewrite E, Hr in Hq1. exact Hq1.
Qed.

(** [int(n * scale)] when [scale] is at most the rounded quotient
    [c / n]: the result never exceeds [c]. *)
Lemma scaled_dimension_fits (n c : Z) (scale q : Q) :
  (1 <= c <= 2 ^ 50)%Z -> (1 <= n <= 2 ^ 50)%Z ->
  0 <= scale -> scale <= q ->
  inject_Z n * q <= inject_Z c + inject_Z c * u + inject_Z n * eta ->
  exists p z, int_mul n scale = Ok (Fin p) /\ to_int (Fin p) = Ok z /\
              (0 <= z <= c)%Z.
Proof.
  intros Hc Hn Hs0 Hsq Hq.
  destruct eta_small as [He0 He1]. rewrite u_value in Hq.
  assert (1 <= inject_Z n) as Hn1.
  { change 1 with (inject_Z 1). rewrite <- Zle_Qle. lia. }
  assert (inject_Z n <= inject_Z (2 ^ 50)) as Hn2 by (rewrite <- Zle_Qle; lia).
  assert (1 <= inject_Z c) as Hc0.
  { change 1 with (inject_Z 1). rewrite <- Zle_Qle. lia. }
  assert (inject_Z c <= inject_Z (2 ^ 50)) as Hc1 by (rewrite <- Zle_Qle; lia).
  assert (inject_Z (2 ^ 50) == 1125899906842624) as HB by reflexivity.
  unfold int_mul, of_int.
  destruct (round_integer (inject_Z n) n (Qeq_refl _) ltac:(lia))
    as (nf & -> & Enf).
  simpl rbind. unfold mul.
  assert (nf * scale <= inject_Z n * q) as Hx.
  { rewrite Enf. apply Qmult_le_compat_nonneg; lra. }
  assert (0 <= nf * scale) as Hx0.
  { rewrite Enf. apply Qmult_le_0_compat; lra. }
  assert (inject_Z n * eta <= 1125899906842624 * eta) as Hne.
  { apply Qmult_le_compat_r; lra. }
  destruct (round_nonneg (nf * scale) Hx0) as (p & -> & Hp0 & Hp1 & _);
    [ | rewrite u_value in Hp1].
  { assert (inject_Z (2 ^ 50) + inject_Z (2 ^ 50) + 1 <= 2 ^ 1000)
      by now apply Qle_bool_iff.
    lra. }
  exists p, (Qfloor p). split; [reflexivity | ].
  split; [simpl; now rewrite Qtrunc_nonneg | ].
  split.
  - change 0%Z with (Qfloor 0). now apply Qfloor_resp_le.
  - assert (p < inject_Z (c + 1)) as Hlt.
    { rewrite inject_Z_plus. change (inject_Z 1) with 1.
      lra. }
    assert (Qfloor p < c + 1)%Z; [ | lia].
    rewrite Zlt_Qlt. apply Qle_lt_trans with p; [apply Qfloor_le | exact Hlt].
Qed.

(** *** Quotients and ceilings *)

Lemma inject_Z_pos (z : Z) : (0 < z)%Z -> 0 < inject_Z z.
Proof. intros H. change 0 with (inject_Z 0). now rewrite <- Zlt_Qlt. Qed.

(** The error model for the quotient of two positive ints below 2^53. *)
Lemma truediv_bounds (a b : Z) :
  (1 <= a <= 2 ^ 53)%Z -> (1 <= b <= 2 ^ 53)%Z ->
  exists q, truediv a b = Ok q /\
            inject_Z b * q <= inject_Z a + inject_Z a * u + inject_Z b * eta /\
            inject_Z a - inject_Z a * u - inject_Z b * eta <= inject_Z b * q.
Proof.
  intros Ha Hb. unfold truediv.
  assert ((b =? 0)%Z = false) as -> by (apply Z.eqb_neq; lia).
  pose proof (inject_Z_pos b ltac:(lia)) as Hb0.
  pose proof (inject_Z_pos a ltac:(lia)) as Ha0.
  assert (1 <= inject_Z b) as Hb1.
  { change 1 with (inject_Z 1). rewrite <- Zle_Qle. lia. }
  assert (inject_Z a <= inject_Z (2 ^ 53)) as Ha1 by (rewrite <- Zle_Qle; lia).
  set (r := inject_Z a / inject_Z b).
  assert (inject_Z b * r == inject_Z a) as Hr by (unfold r; field; lra).
  assert (0 <= r) as Hr0.
  { unfold r. apply Qle_shift_div_l; lra. }
  assert (r <= inject_Z a) as Hr1.
  { unfold r. apply Qle_shift_div_r; [lra | ]. nra. }
  destruct (round_nonneg r Hr0) as (q & -> & Hq0 & Hq1 & Hq2).
  { assert (inject_Z (2 ^ 53) <= 2 ^ 1000) by now apply Qle_bool_iff. lra. }
  exists q. split; [reflexivity | ].
  apply (Qmult_le_l _ _ (inject_Z b)) in Hq1; [ | exact Hb0].
  apply (Qmult_le_l _ _ (inject_Z b)) in Hq2; [ | exact Hb0].
  assert (inject_Z b * (r + r * u + eta)
          == inject_Z b * r + inject_Z b * r * u + inject_Z b * eta) as E1 by ring.
  assert (inject_Z b * (r - r * u - eta)
          == inject_Z b * r - inject_Z b * r * u - inject_Z b * eta) as E2 by ring.
  rewrite E1, Hr in Hq1. rewrite E2, Hr in Hq2. split; assumption.
Qed.

(** An exact quotient below 2^53 is returned as it is. *)
Lemma truediv_exact (a b k : Z) :
  (0 < b)%Z -> (0 <= k < 2 ^ 53)%Z -> a = (k * b)%Z ->
  exists q, truediv a b = Ok q /\ q == inject_Z k.
Proof.
  intros Hb Hk ->. unfold truediv.
  assert ((b =? 0)%Z = false) as -> by (apply Z.eqb_neq; lia).
  pose proof (inject_Z_pos b Hb) as Hb0.
  assert (inject_Z (k * b) / inject_Z b == inject_Z k) as E.
  { rewrite inject_Z_mult. field. lra. }
  destruct (round_integer _ k E Hk) as (q & -> & Eq).
  exists q. split; [reflexivity | exact Eq].
Qed.

Lemma Qceiling_between (q : Q) (k : Z) :
  inject_Z (k - 1) < q -> q <= inject_Z k -> Qceiling q = k.
Proof.
  intros Hl Hu.
  pose proof (Qle_ceiling q) as A. pose proof (Qceiling_lt q) as B.
  assert (k - 1 < Qceiling q)%Z by (rewrite Zlt_Qlt; lra).
  assert (Qceiling q - 1 < k)%Z by (rewrite Zlt_Qlt; lra).
  lia.
Qed.

(** [math.ceil(n / c)] is the exact ceiling of the quotient, for counts
    below 2^52. *)
Lemma ceil_truediv (n c : Z) :
  (1 <= n < 2 ^ 52)%Z -> (1 <= c < 2 ^ 52)%Z ->
  exists q, truediv n c = Ok q /\ Qceiling q = Spec.rows n c.
Proof.
  intros Hn Hc. unfold Spec.rows.
  set (k := ((n + c - 1) / c)%Z).
  assert (c * k <= n + c - 1 < c * k + c)%Z as Hk.
  { unfold k. pose proof (Z.mul_div_le (n + c - 1) c ltac:(lia)).
    pose proof (Z.mul_succ_div_gt (n + c - 1) c ltac:(lia)). lia. }
  assert (1 <= k <= n)%Z as Hk1 by nia.
  destruct (Z.eq_dec n (k * c)) as [E | N].
  - destruct (truediv_exact n c k ltac:(lia) ltac:(lia) E) as (q & Eq & Hq).
    exists q. split; [exact Eq | ].
    rewrite (Qceiling_comp _ _ Hq). apply Qceiling_Z.
  - destruct (truediv_bounds n c ltac:(lia) ltac:(lia)) as (q & Eq & Hu & Hl).
    exists q. split; [exact Eq | ].
    destruct eta_small as [He0 He1]. rewrite u_value in Hu, Hl.
    pose proof (inject_Z_pos c ltac:(lia)) as Hc0.
    assert (inject_Z n <= inject_Z (2 ^ 52)) as Hn1 by (rewrite <- Zle_Qle; lia).
    assert (inject_Z c <= inject_Z (2 ^ 52)) as Hc1 by (rewrite <- Zle_Qle; lia).
    assert (inject_Z (2 ^ 52) == 4503599627370496) as HB by reflexivity.
    assert (inject_Z c * eta <= 4503599627370496 * eta) as Hce.
    { apply Qmult_le_compat_r; lra. }
    assert (inject_Z n + 1 <= inject_Z c * inject_Z k) as Hup.
    { rewrite <- inject_Z_mult. change 1 with (inject_Z 1).
      rewrite <- inject_Z_plus, <- Zle_Qle. lia. }
    assert (inject_Z c * inject_Z (k - 1) + 1 <= inject_Z n) as Hlow.
    { rewrite <- inject_Z_mult. change 1 with (inject_Z 1).
      rewrite <- inject_Z_plus, <- Zle_Qle. nia. }
    apply Qceiling_between.
    + apply (Qmult_lt_l _ _ (inject_Z c)); [exact Hc0 | ]. lra.
    + apply (Qmult_le_l _ _ (inject_Z c)); [exact Hc0 | ]. lra.
Qed.

(** *** Reals that are at least 1 *)

Lemma rne_at_least (x : Q) (k : Z) : inject_Z k <= x -> (k <= rne x)%Z.
Proof.
  intros H.
  assert (k <= Qfloor x)%Z as Hf.
  { rewrite <- (Qfloor_Z k). now apply Qfloor_resp_le. }
  unfold rne.
  destruct (Qcompare _ _); [destruct (Z.even _) | | ]; lia.
Qed.

Lemma two_power_ge_one (e : Z) : (0 <= e)%Z -> 1 <= 2 ^ e.
Proof.
  intros He. rewrite <- (Zpower_Qpower 2) by exact He.
  change 1 with (inject_Z 1). rewrite <- Zle_Qle.
  pose proof (Z.pow_pos_nonneg 2 e ltac:(lia) He). lia.
Qed.

Lemma two_power_opp (e : Z) : 2 ^ (- e) * 2 ^ e == 1.
Proof.
  rewrite Qpower_opp. pose proof (two_power_pos e).
  rewrite Qmult_comm. apply Qmult_inv_r. lra.
Qed.

(** Rounding never takes a real that is at least 1 below 1. *)
Lemma round_mag_ge_one (x : Q) : 1 <= x -> 1 <= round_mag x.
Proof.
  intros Hx. rewrite round_mag_scaled.
  set (e := ulp_exp x).
  pose proof (two_power_pos e) as Hp.
  destruct (Z_le_gt_dec e 0) as [He | He].
  - assert (inject_Z (2 ^ (- e)) <= x / 2 ^ e) as Hs.
    { rewrite (Zpower_Qpower 2) by lia. change (inject_Z 2) with 2.
      apply Qle_shift_div_l; [exact Hp | ]. rewrite two_power_opp. exact Hx. }
    apply rne_at_least in Hs. rewrite Zle_Qle in Hs.
    rewrite (Zpower_Qpower 2) in Hs by lia. change (inject_Z 2) with 2 in Hs.
    apply (Qmult_le_compat_r _ _ (2 ^ e)) in Hs; [ | lra].
    rewrite two_power_opp in Hs. exact Hs.
  - assert (2 ^ (e + 52) <= x) as Hl.
    { assert (e = Qlog2 x - 52)%Z as E by (unfold e, ulp_exp in *; lia).
      replace (e + 52)%Z with (Qlog2 x) by lia.
      apply Qlog2_lower. lra. }
    assert (inject_Z 1 <= x / 2 ^ e) as Hs.
    { apply Qle_shift_div_l; [exact Hp | ].
      change (inject_Z 1) with 1. rewrite Qmult_1_l.
      apply Qle_trans with (2 ^ (e + 52)); [ | exact Hl].
      apply Qpower_le_compat_l; [lia | discriminate]. }
    apply rne_at_least in Hs. rewrite Zle_Qle in Hs.
    change (inject_Z 1) with 1 in Hs.
    pose proof (two_power_ge_one e ltac:(lia)) as H1.
    apply Qle_trans with (1 * 2 ^ e); [lra | ].
    apply Qmult_le_compat_r; lra.
Qed.

Lemma round_ge_one (x : Q) :
  1 <= x -> x <= 2 ^ 1000 ->
  exists q, round x = Fin q /\ 1 <= q /\ q <= x + x * u + eta.
Proof.
  intros Hx Hmax.
  destruct (round_nonneg x ltac:(lra) Hmax) as (q & E & _ & Hu & _).
  exists q. split; [exact E | ]. split; [ | exact Hu].
  unfold round in E. destruct x as [n d]. simpl Qnum in E.
  destruct n as [ | p | p].
  - exfalso. unfold Qle in Hx. simpl in Hx. lia.
  - destruct (overflows _); [discriminate | ].
    assert (q = Qred (round_mag (Z.pos p # d))) as -> by congruence.
    rewrite Qred_correct. now apply round_mag_ge_one.
  - exfalso. unfold Qle in Hx. simpl in Hx. lia.
Qed.

(** The square root of a float that is at least 1 is at least 1. *)
Lemma sqrt_mag_ge_one (x : Q) : 1 <= x -> 1 <= sqrt_mag x.
Proof.
  intros Hx. unfold sqrt_mag.
  set (e := (Qlog2 x / 2 - 52)%Z).
  set (y := x / 2 ^ (2 * e)).
  set (f := Z.sqrt (Qfloor y)).
  set (m := match Qcompare y _ with Lt => f | Eq => _ | Gt => _ end).
  assert (f <= m)%Z as Hm.
  { unfold m. destruct (Qcompare _ _); [destruct (Z.even f) | | ]; lia. }
  rewrite Qred_correct.
  pose proof (two_power_pos e) as Hp.
  pose proof (two_power_pos (2 * e)) as Hp2.
  assert (1 <= inject_Z f * 2 ^ e) as Hf.
  { destruct (Z_le_gt_dec e 0) as [He | He].
    - set (k := (2 ^ (- e))%Z).
      assert (0 < k)%Z as Hk by (apply Z.pow_pos_nonneg; lia).
      assert (inject_Z (k * k) <= y) as Hy.
      { unfold y, k. rewrite <- Z.pow_add_r by lia.
        rewrite (Zpower_Qpower 2) by lia. change (inject_Z 2) with 2.
        apply Qle_shift_div_l; [exact Hp2 | ].
        replace (- e + - e)%Z with (- (2 * e))%Z by lia.
        rewrite two_power_opp. exact Hx. }
      assert (k <= f)%Z as Hkf.
      { unfold f. rewrite <- (Z.sqrt_square k) by lia.
        apply Z.sqrt_le_mono. rewrite <- (Qfloor_Z (k * k)).
        now apply Qfloor_resp_le. }
      rewrite Zle_Qle in Hkf. unfold k in Hkf.
      rewrite (Zpower_Qpower 2) in Hkf by lia. change (inject_Z 2) with 2 in Hkf.
      apply (Qmult_le_compat_r _ _ (2 ^ e)) in Hkf; [ | lra].
      rewrite two_power_opp in Hkf. exact Hkf.
    - assert (inject_Z 1 <= y) as Hy.
      { unfold y. apply Qle_shift_div_l; [exact Hp2 | ].
        change (inject_Z 1) with 1. rewrite Qmult_1_l.
        apply Qle_trans with (2 ^ Qlog2 x); [ | apply Qlog2_lower; lra].
        apply Qpower_le_compat_l; [ | discriminate].
        pose proof (Z.mul_div_le (Qlog2 x) 2 ltac:(lia)). unfold e. lia. }
      assert (1 <= f)%Z as Hkf.
      { unfold f. change 1%Z with (Z.sqrt 1) at 1.
        apply Z.sqrt_le_mono. rewrite <- (Qfloor_Z 1).
        now apply Qfloor_resp_le. }
      rewrite Zle_Qle in Hkf. change (inject_Z 1) with 1 in Hkf.
      pose proof (two_power_ge_one e ltac:(lia)) as H1.
      apply Qle_trans with (1 * 2 ^ e); [lra | ].
      apply Qmult_le_compat_r; lra. }
  apply Qle_trans with (inject_Z f * 2 ^ e); [exact Hf | ].
  apply Qmult_le_compat_r; [ | lra]. now rewrite <- Zle_Qle.
Qed.

End Float64Facts.

(** On sample operands, among them those of the examples below, the model
    computes what the kernel's binary64 floats compute. *)
Example model_agrees_with_kernel_floats :
  forallb Hardware.div_agrees Hardware.sample_operands = true /\
  forallb Hardware.mul_agrees Hardware.sample_operands = true /\
  forallb Hardware.sqrt_agrees Hardware.sample_operands = true.
Proof. repeat split; vm_compute; reflexivity. Qed.

(** ** Strings and paths *)

Section StringFacts.

Lemma len_append (a b : string) : len (a ++ b) = len a + len b.
Proof.
  unfold len. induction a as [ | c a IH]; simpl String.length.
  - simpl. lia.
  - simpl String.length in *. lia.
Qed.

Lemma len_nonneg (a : string) : 0 <= len a.
Proof. unfold len. lia. Qed.

Lemma rfind_range (c : ascii) (s : string) : -1 <= rfind c s < len s.
Proof.
  unfold len. induction s as [ | a r IH]; simpl rfind; simpl String.length.
  - lia.
  - destruct (0 <=? rfind c r) eqn:E.
    + apply Z.leb_le in E. lia.
    + destruct (Ascii.eqb a c); lia.
Qed.

Lemma rfind_append (c : ascii) (a b : string) :
  rfind c (a ++ b) =
  if 0 <=? rfind c b then len a + rfind c b else rfind c a.
Proof.
  induction a as [ | x a IH].
  - simpl. unfold len. simpl.
    destruct (0 <=? rfind c b) eqn:E; [reflexivity | ].
    apply Z.leb_gt in E. pose proof (rfind_range c b). lia.
  - change (String x a ++ b)%string with (String x (a ++ b)).
    simpl rfind. rewrite IH.
    replace (len (String x a)) with (len a + 1)
      by (unfold len; simpl String.length; lia).
    pose proof (rfind_range c b) as Hb. pose proof (len_nonneg a) as Ha.
    destruct (0 <=? rfind c b) eqn:E.
    + apply Z.leb_le in E.
      assert ((0 <=? len a + rfind c b) = true) as -> by (apply Z.leb_le; lia).
      lia.
    + reflexivity.
Qed.

Lemma drop_append (a b : string) : drop (String.length a) (a ++ b) = b.
Proof. induction a as [ | x a IH]; simpl; [now destruct b | exact IH]. Qed.

Lemma take_append (a b : string) : take (String.length a) (a ++ b) = a.
Proof. induction a as [ | x a IH]; simpl; [now destruct b | now rewrite IH]. Qed.

Lemma take_length (n : nat) (s : string) :
  (String.length (take n s) <= String.length s)%nat.
Proof.
  revert s. induction n as [ | n IH]; intros [ | a r]; simpl; try lia.
  specialize (IH r). lia.
Qed.

Lemma append_assoc (a b c : string) : ((a ++ b) ++ c = a ++ (b ++ c))%string.
Proof. induction a as [ | x a IH]; simpl; [reflexivity | now rewrite IH]. Qed.

Lemma append_nil_r (a : string) : (a ++ "")%string = a.
Proof. induction a as [ | x a IH]; simpl; [reflexivity | now rewrite IH]. Qed.

Lemma endswith_rfind (s : string) (c : ascii) :
  endswith_char s c = true -> rfind c s = len s - 1.
Proof.
  unfold len. induction s as [ | a r IH]; [discriminate | ].
  intros H. simpl rfind. simpl String.length.
  destruct r as [ | b r'].
  - simpl in *. rewrite H. reflexivity.
  - change (endswith_char (String a (String b r')) c)
      with (endswith_char (String b r') c) in H.
    rewrite (IH H).
    assert ((0 <=? Z.of_nat (String.length (String b r')) - 1) = true) as ->.
    { apply Z.leb_le. simpl String.length. lia. }
    lia.
Qed.

(** A name without a separator is the base name of its join with any
    directory. *)
Lemma basename_join (d n : string) :
  rfind sep n = -1 -> basename (join d n) = n.
Proof.
  intros Hn. unfold join.
  assert (startswith_char n sep = false) as ->.
  { destruct n as [ | a r]; [reflexivity | ]. simpl in *.
    destruct (0 <=? rfind sep r); [pose proof (rfind_range sep r); lia | ].
    destruct (Ascii.eqb a sep); [discriminate | reflexivity]. }
  unfold basename, slice_from.
  destruct (String.eqb d "") eqn:Ed.
  - apply String.eqb_eq in Ed. subst d. simpl. rewrite Hn. reflexivity.
  - simpl orb. destruct (endswith_char d sep) eqn:Ee.
    + rewrite rfind_append, Hn. change (0 <=? -1) with false. cbv iota.
      rewrite (endswith_rfind _ _ Ee).
      replace (Z.to_nat (len d - 1 + 1)) with (String.length d)
        by (unfold len; lia).
      apply drop_append.
    + assert (rfind sep (String sep n) = 0) as H0.
      { simpl. rewrite Hn. reflexivity. }
      rewrite rfind_append, H0. change (0 <=? 0) with true. cbv iota.
      replace (Z.to_nat (len d + 0 + 1)) with (String.length (d ++ "/"))
        by (pose proof (len_append d "/") as L; unfold len in *;
            simpl String.length in *; lia).
      change (String sep n) with ("/" ++ n)%string.
      rewrite <- append_assoc. apply drop_append.
Qed.

End StringFacts.

Section PathFacts.

Lemma drop_append_le (n : nat) (a b : string) :
  (n <= String.length a)%nat -> drop n (a ++ b) = (drop n a ++ b)%string.
Proof.
  revert a. induction n as [ | n IH]; intros a H.
  - now destruct a.
  - destruct a as [ | x a]; simpl in *; [lia | apply IH; lia].
Qed.

Lemma has_non_dot_append (a b : string) :
  has_non_dot b = true -> has_non_dot (a ++ b) = true.
Proof.
  intros H. induction a as [ | x a IH]; simpl; [exact H | ].
  destruct (Ascii.eqb x extsep); [exact IH | reflexivity].
Qed.

(** The root of a path that ends in [-atlus.png]. *)
Lemma splitext_atlus (p : string) :
  splitext (p ++ "-atlus.png") = ((p ++ "-atlus")%string, ".png"%string).
Proof.
  assert ((p ++ "-atlus.png")%string = ((p ++ "-atlus") ++ ".png")%string) as E
    by now rewrite append_assoc.
  pose proof (rfind_range sep p) as Hs.
  pose proof (len_append p "-atlus") as Hl.
  change (len "-atlus") with 6 in Hl.
  pose proof (len_nonneg p) as Hp.
  assert (rfind extsep (p ++ "-atlus.png") = len (p ++ "-atlus")) as Hdot.
  { rewrite E, rfind_append. change (rfind extsep ".png") with 0.
    change (0 <=? 0) with true. cbv iota. lia. }
  assert (rfind sep (p ++ "-atlus.png") = rfind sep p) as Hsep.
  { rewrite rfind_append. change (rfind sep "-atlus.png") with (-1).
    reflexivity. }
  unfold splitext. rewrite Hdot, Hsep.
  assert ((rfind sep p <? len (p ++ "-atlus")) = true) as ->
    by (apply Z.ltb_lt; lia).
  unfold slice, slice_to, slice_from.
  replace (Z.to_nat (len (p ++ "-atlus"))) with (String.length (p ++ "-atlus"))
    by (unfold len; lia).
  rewrite E, take_append, drop_append.
  rewrite drop_append_le by (unfold len in *; lia).
  rewrite has_non_dot_append by reflexivity.
  reflexivity.
Qed.

Lemma splitext_root_length (p : string) :
  (String.length (fst (splitext p)) <= String.length p)%nat.
Proof.
  unfold splitext.
  destruct (rfind sep p <? rfind extsep p); [ | simpl; lia].
  destruct (has_non_dot _); simpl; [apply take_length | lia].
Qed.

Lemma length_append (a b : string) :
  String.length (a ++ b) = (String.length a + String.length b)%nat.
Proof. induction a as [ | x a IH]; simpl; [reflexivity | now rewrite IH]. Qed.

End PathFacts.

Section SortFacts.

Lemma ascii_compare_cases (a b : ascii) :
  match Ascii.compare a b with
  | Eq => a = b
  | Lt => (N_of_ascii a < N_of_ascii b)%N
  | Gt => (N_of_ascii b < N_of_ascii a)%N
  end.
Proof.
  destruct (Ascii.compare a b) eqn:E.
  - now apply Ascii.compare_eq_iff.
  - now apply N.compare_lt_iff.
  - now apply N.compare_gt_iff.
Qed.

Lemma ascii_compare_refl (a : ascii) : Ascii.compare a a = Eq.
Proof. apply N.compare_refl. Qed.

Lemma lex_le_trans (a b c : string) : lex_le a b -> lex_le b c -> lex_le a c.
Proof.
  unfold lex_le, String.leb. revert b c.
  induction a as [ | x a IH]; intros [ | y b] [ | z c]; simpl;
    try congruence; try (intros; reflexivity).
  pose proof (ascii_compare_cases x y) as Hxy.
  pose proof (ascii_compare_cases y z) as Hyz.
  pose proof (ascii_compare_cases x z) as Hxz.
  destruct (Ascii.compare x y); destruct (Ascii.compare y z);
    destruct (Ascii.compare x z); subst;
    try congruence; try (intros; reflexivity); try lia;
    try (rewrite ascii_compare_refl in *; congruence); try apply IH.
  all: try (intros _ _; pose proof (ascii_compare_cases z z) as R;
            rewrite ascii_compare_refl in R; lia).
Qed.

Lemma insert_sorted_perm (x : string) (l : list string) :
  Permutation (x :: l) (insert_sorted x l).
Proof.
  induction l as [ | y r IH]; simpl; [reflexivity | ].
  destruct (String.leb x y); [reflexivity | ].
  rewrite perm_swap. now constructor.
Qed.

Lemma sorted_perm (l : list string) : Permutation l (sorted l).
Proof.
  induction l as [ | x r IH]; simpl; [reflexivity | ].
  rewrite <- insert_sorted_perm. now constructor.
Qed.

Lemma insert_sorted_ordered (x : string) (l : list string) :
  StronglySorted lex_le l -> StronglySorted lex_le (insert_sorted x l).
Proof.
  induction 1 as [ | y r Hr IH Hy]; simpl.
  - repeat constructor.
  - destruct (String.leb x y) eqn:E.
    + constructor; [now constructor | ].
      constructor; [exact E | ].
      eapply Forall_impl; [ | exact Hy].
      intros z Hz. now apply lex_le_trans with y.
    + constructor; [exact IH | ].
      apply (Permutation_Forall (insert_sorted_perm x r)).
      constructor; [ | exact Hy].
      destruct (String.leb_total x y) as [A | A]; [congruence | exact A].
Qed.

Lemma sorted_ordered (l : list string) : StronglySorted lex_le (sorted l).
Proof.
  induction l as [ | x r IH]; simpl; [constructor | ].
  now apply insert_sorted_ordered.
Qed.

End SortFacts.

(** ** Dictionaries and the loop over the files *)

Section DictFacts.

Lemma dict_get_set_same (k : string) (v : placement) (d : dict) :
  dict_get k (dict_set k v d) = Some v.
Proof.
  induction d as [ | [k' v'] r IH]; simpl.
  - now rewrite String.eqb_refl.
  - destruct (String.eqb k' k) eqn:E; simpl.
    + now rewrite String.eqb_refl.
    + now rewrite E.
Qed.

Lemma dict_get_set_other (k k' : string) (v : placement) (d : dict) :
  k' <> k -> dict_get k' (dict_set k v d) = dict_get k' d.
Proof.
  intros N. induction d as [ | [k0 v0] r IH]; simpl.
  - assert (String.eqb k k' = false) as -> by (apply String.eqb_neq; congruence).
    reflexivity.
  - destruct (String.eqb k0 k) eqn:E; simpl.
    + apply String.eqb_eq in E. subst k0.
      assert (String.eqb k k' = false) as -> by (apply String.eqb_neq; congruence).
      reflexivity.
    + destruct (String.eqb k0 k'); [reflexivity | exact IH].
Qed.

Lemma dict_set_new_keys (k : string) (v : placement) (d : dict) :
  dict_get k d = None -> map fst (dict_set k v d) = map fst d ++ [k].
Proof.
  induction d as [ | [k' v'] r IH]; simpl; [reflexivity | ].
  destruct (String.eqb k' k); [discriminate | ].
  intros H. simpl. now rewrite IH.
Qed.

Lemma dict_set_In (k : string) (v : placement) (d : dict) (e : string * placement) :
  In e (dict_set k v d) -> e = (k, v) \/ In e d.
Proof.
  induction d as [ | [k' v'] r IH]; simpl.
  - intros [<- | []]. now left.
  - destruct (String.eqb k' k); simpl.
    + intros [<- | H]; [now left | right; now right].
    + intros [<- | H]; [right; now left | ].
      destruct (IH H) as [-> | H']; [now left | right; now right].
Qed.

End DictFacts.

Section LoopFacts.

Variable W : world.
Variables cols cell_width cell_height : Z.


Lemma convert_cases (opened : image) :
  (if negb (String.eqb (mode opened) "RGBA")
   then convert_rgba W opened else Ok opened) = Ok (normalized opened)
  \/ exists e, (if negb (String.eqb (mode opened) "RGBA")
                then convert_rgba W opened else Ok opened) = Raise e.
Proof.
  unfold normalized, convert_rgba.
  destruct (negb (String.eqb (mode opened) "RGBA")); [ | now left].
  destruct (pil_convert_raises W opened) as [e | ];
    [right; now exists e | now left].
Qed.

(** What a completed body has done. *)
Lemma process_image_ok (i : Z) (image_path : string) (s s' : state) :
  process_image W cols cell_width cell_height i image_path s = (Ok tt, s') ->
  exists opened new_width new_height,
    cols <> 0 /\
    pil_open W image_path = Ok opened /\
    new_size (normalized opened) cell_width cell_height
      = Ok (new_width, new_height) /\
    let img := normalized opened in
    let x := i mod cols * cell_width in
    let y := i / cols * cell_height in
    let paste_x := x + (cell_width - new_width) / 2 in
    let paste_y := y + (cell_height - new_height) / 2 in
    s' = mkState
           (stdout s ++ [Processing (basename image_path)])
           (atlas s ++ [mkPaste (mkImage (source img) new_width new_height
                                         (mode img)) paste_x paste_y])
           (dict_set (basename image_path)
              (mkPlacement paste_x paste_y new_width new_height x y
                           cell_width cell_height (width img, height img))
              (atlas_mapping s))
           (files s).
Proof.
  unfold process_image, bind, lift, pymod, floordiv, print_name, print, check,
    do_paste, set_item, raise, ret.
  destruct (cols =? 0) eqn:Ec; [discriminate | ]. apply Z.eqb_neq in Ec.
  destruct (stdout_encodes W (basename image_path)); [ | discriminate].
  destruct (pil_open W image_path) as [opened | e]; [ | discriminate].
  destruct (convert_cases opened) as [C | [e C]]; rewrite C; [ | discriminate].
  unfold resize_image_to_fit.
  destruct (new_size (normalized opened) cell_width cell_height)
    as [[new_width new_height] | e] eqn:En; simpl; [ | discriminate].
  destruct (pil_resize_raises W (normalized opened) new_width new_height);
    simpl; [discriminate | ].
  destruct (pil_paste_raises W _ _ _); simpl; [discriminate | ].
  intros H. injection H as <-.
  exists opened, new_width, new_height. repeat split; auto.
Qed.

(** A body completes only when the name of its file could be printed. *)
Lemma process_image_printable (i : Z) (image_path : string) (s s' : state) :
  process_image W cols cell_width cell_height i image_path s = (Ok tt, s') ->
  stdout_encodes W (basename image_path) = true.
Proof.
  unfold process_image, bind, lift, pymod, floordiv, print_name, raise.
  destruct (cols =? 0); [discriminate | ].
  destruct (stdout_encodes W (basename image_path));
    [reflexivity | discriminate].
Qed.

(** A body that raises has touched neither the mapping nor the canvas. *)
Lemma process_image_raise (i : Z) (image_path : string) (s s1 : state) (e : exn) :
  process_image W cols cell_width cell_height i image_path s = (Raise e, s1) ->
  atlas_mapping s1 = atlas_mapping s /\ atlas s1 = atlas s /\
  files s1 = files s /\
  (stdout s1 = stdout s \/
   stdout s1 = stdout s ++ [Processing (basename image_path)]).
Proof.
  unfold process_image, bind, lift, pymod, floordiv, print_name, print, check,
    do_paste, set_item, raise, ret.
  destruct (cols =? 0).
  { intros H. injection H as <- <-. auto. }
  destruct (stdout_encodes W (basename image_path)).
  2:{ intros H. injection H as <- <-. auto. }
  destruct (pil_open W image_path) as [opened | e0].
  2:{ intros H. injection H as <- <-. simpl. auto. }
  destruct (if negb (String.eqb (mode opened) "RGBA")
            then convert_rgba W opened else Ok opened) as [img | e0].
  2:{ intros H. injection H as <- <-. simpl. auto. }
  destruct (resize_image_to_fit W img cell_width cell_height)
    as [resized | e0].
  2:{ intros H. injection H as <- <-. simpl. auto. }
  destruct (pil_paste_raises W _ _ _); simpl.
  - intros H. injection H as <- <-. simpl. auto.
  - discriminate.
Qed.

(** A body whose file has a name that cannot be printed raises at once. *)
Lemma process_image_unprintable (i : Z) (image_path : string) (s : state) :
  stdout_encodes W (basename image_path) = false ->
  exists e,
    process_image W cols cell_width cell_height i image_path s = (Raise e, s).
Proof.
  intros Hp.
  unfold process_image, bind, lift, pymod, floordiv, print_name, raise.
  destruct (cols =? 0); [now exists ZeroDivisionError | ].
  rewrite Hp. now exists UnicodeEncodeError.
Qed.

(** The outcome of a body does not depend on the state. *)
Lemma process_image_outcome (i : Z) (image_path : string) (s : state) :
  is_ok (fst (process_image W cols cell_width cell_height i image_path s))
  = processed W cols cell_width cell_height i image_path.
Proof.
  unfold processed, process_image, bind, lift, pymod, floordiv, print_name,
    print, check, do_paste, set_item, raise, ret.
  destruct (cols =? 0); [reflexivity | ].
  destruct (stdout_encodes W (basename image_path)); [ | reflexivity].
  destruct (pil_open W image_path) as [opened | e0]; [ | reflexivity].
  destruct (if negb (String.eqb (mode opened) "RGBA")
            then convert_rgba W opened else Ok opened) as [img | e0];
    [ | reflexivity].
  destruct (resize_image_to_fit W img cell_width cell_height)
    as [resized | e0]; [ | reflexivity].
  destruct (pil_paste_raises W _ _ _); reflexivity.
Qed.

(** The body completes exactly when there are columns, the name of the
    file can be printed and the calls of the image library succeed. *)
Lemma processed_iff (i : Z) (image_path : string) :
  processed W cols cell_width cell_height i image_path
  = negb (cols =? 0) && stdout_encodes W (basename image_path)
    && library_calls_succeed W cols cell_width cell_height i image_path.
Proof.
  unfold processed, library_calls_succeed, process_image, bind, lift, pymod,
    floordiv, print_name, print, check, do_paste, set_item, raise, ret.
  destruct (cols =? 0); [reflexivity | ].
  destruct (stdout_encodes W (basename image_path)); [ | reflexivity].
  cbn [negb andb].
  destruct (pil_open W image_path) as [opened | e0]; [ | reflexivity].
  unfold normalized, convert_rgba, resize_image_to_fit.
  destruct (negb (String.eqb (mode opened) "RGBA")).
  - destruct (pil_convert_raises W opened); [reflexivity | ].
    destruct (new_size _ cell_width cell_height) as [[nw nh] | e0];
      [ | reflexivity].
    cbn [rbind].
    destruct (pil_resize_raises W _ nw nh); [reflexivity | ].
    cbn [width height source mode].
    destruct (pil_paste_raises W _ _ _); reflexivity.
  - destruct (new_size _ cell_width cell_height) as [[nw nh] | e0];
      [ | reflexivity].
    cbn [rbind].
    destruct (pil_resize_raises W _ nw nh); [reflexivity | ].
    cbn [width height source mode].
    destruct (pil_paste_raises W _ _ _); reflexivity.
Qed.

(** ... and then it returns, whatever the state it starts from: the name
    is printed, the scaled image pasted and the entry recorded. *)
Lemma process_image_completes (i : Z) (image_path : string) (s : state) :
  cols <> 0 ->
  stdout_encodes W (basename image_path) = true ->
  library_calls_succeed W cols cell_width cell_height i image_path = true ->
  exists s', process_image W cols cell_width cell_height i image_path s
             = (Ok tt, s').
Proof.
  intros Hc Hp Hl.
  pose proof (process_image_outcome i image_path s) as Ho.
  rewrite processed_iff, Hp, Hl in Ho.
  apply Z.eqb_neq in Hc. rewrite Hc in Ho. cbn [negb andb] in Ho.
  destruct (process_image W cols cell_width cell_height i image_path s)
    as [[[] | e] s']; [now exists s' | discriminate].
Qed.

(** One turn of the loop: the body under its handler. *)
Lemma iteration_ok (i : Z) (image_path : string) (s s' : state) :
  process_image W cols cell_width cell_height i image_path s = (Ok tt, s') ->
  process_or_skip W cols cell_width cell_height i image_path s = (Ok tt, s').
Proof. unfold process_or_skip, try_except. now intros ->. Qed.

Lemma iteration_raise (i : Z) (image_path : string) (s s1 : state) (e : exn) :
  stdout_encodes W (basename image_path) = true ->
  process_image W cols cell_width cell_height i image_path s = (Raise e, s1) ->
  process_or_skip W cols cell_width cell_height i image_path s
  = (Ok tt, mkState (stdout s1 ++ [ErrorProcessing image_path e])
                    (atlas s1) (atlas_mapping s1) (files s1)).
Proof.
  unfold process_or_skip, try_except, log_failure, print_name.
  now intros -> ->.
Qed.

(** When the name of the file cannot be printed, the handler raises in
    its turn, and nothing has been done. *)
Lemma iteration_abort (i : Z) (image_path : string) (s : state) :
  stdout_encodes W (basename image_path) = false ->
  process_or_skip W cols cell_width cell_height i image_path s
  = (Raise UnicodeEncodeError, s).
Proof.
  intros Hp.
  destruct (process_image_unprintable i image_path s Hp) as [e E].
  unfold process_or_skip, try_except, log_failure, print_name.
  now rewrite E, Hp.
Qed.

Lemma iteration_returns (i : Z) (image_path : string) (s : state) :
  stdout_encodes W (basename image_path) = true ->
  fst (process_or_skip W cols cell_width cell_height i image_path s) = Ok tt.
Proof.
  intros Hp.
  destruct (process_image W cols cell_width cell_height i image_path s)
    as [[[] | e] s'] eqn:E.
  - now rewrite (iteration_ok _ _ _ _ E).
  - now rewrite (iteration_raise _ _ _ _ _ Hp E).
Qed.

Lemma loop_cons (i : Z) (image_path : string) (rest : list string) (s : state) :
  for_each_image W cols cell_width cell_height i (image_path :: rest) s
  = match process_or_skip W cols cell_width cell_height i image_path s with
    | (Ok _, s') => for_each_image W cols cell_width cell_height (i + 1) rest s'
    | (Raise e, s') => (Raise e, s')
    end.
Proof. reflexivity. Qed.

Lemma loop_step (i : Z) (image_path : string) (rest : list string) (s : state) :
  stdout_encodes W (basename image_path) = true ->
  for_each_image W cols cell_width cell_height i (image_path :: rest) s
  = for_each_image W cols cell_width cell_height (i + 1) rest
      (snd (process_or_skip W cols cell_width cell_height i image_path s)).
Proof.
  intros Hp. rewrite loop_cons.
  pose proof (iteration_returns i image_path s Hp) as R.
  destruct (process_or_skip _ _ _ _ _ _ s) as [r s']. simpl in R. subst r.
  reflexivity.
Qed.

Lemma loop_abort (i : Z) (image_path : string) (rest : list string) (s : state) :
  stdout_encodes W (basename image_path) = false ->
  for_each_image W cols cell_width cell_height i (image_path :: rest) s
  = (Raise UnicodeEncodeError, s).
Proof. intros Hp. now rewrite loop_cons, (iteration_abort _ _ _ Hp). Qed.


Lemma loop_returned (image_files : list string) (i : Z) (s : state) :
  fst (for_each_image W cols cell_width cell_height i image_files s) = Ok tt ->
  Forall (fun p => stdout_encodes W (basename p) = true) image_files.
Proof.
  revert i s. induction image_files as [ | p rest IH]; intros i s H.
  - constructor.
  - destruct (stdout_encodes W (basename p)) eqn:Hp.
    + constructor; [exact Hp | ].
      rewrite (loop_step _ _ _ _ Hp) in H. exact (IH _ _ H).
    + rewrite (loop_abort _ _ _ _ Hp) in H. discriminate.
Qed.

(** The mapping after one turn. *)
Lemma iteration_mapping (i : Z) (image_path : string) (s : state) :
  let s' := snd (process_or_skip W cols cell_width cell_height i image_path s) in
  if processed W cols cell_width cell_height i image_path
  then exists pl, atlas_mapping s'
                  = dict_set (basename image_path) pl (atlas_mapping s)
  else atlas_mapping s' = atlas_mapping s.
Proof.
  intros s'. subst s'.
  rewrite <- (process_image_outcome i image_path s).
  destruct (process_image W cols cell_width cell_height i image_path s)
    as [[[] | e] s1] eqn:E.
  - rewrite (iteration_ok _ _ _ _ E). simpl.
    destruct (process_image_ok _ _ _ _ E) as (o & nw & nh & _ & _ & _ & ->).
    simpl. eexists. reflexivity.
  - destruct (stdout_encodes W (basename image_path)) eqn:Hp.
    + rewrite (iteration_raise _ _ _ _ _ Hp E). simpl.
      now destruct (process_image_raise _ _ _ _ _ E) as (-> & _).
    + now rewrite (iteration_abort _ _ _ Hp).
Qed.

(** With distinct base names, the keys of the mapping after a loop that
    has returned are the base names of the files for which the calls of the
    image library succeeded, in processing order. *)
Lemma loop_keys (image_files : list string) (i : Z) (s : state) :
  cols <> 0 ->
  NoDup (map basename image_files) ->
  (forall p, In p image_files ->
             dict_get (basename p) (atlas_mapping s) = None) ->
  fst (for_each_image W cols cell_width cell_height i image_files s) = Ok tt ->
  map fst (atlas_mapping
             (snd (for_each_image W cols cell_width cell_height i image_files s)))
  = map fst (atlas_mapping s)
    ++ placed_names W cols cell_width cell_height i image_files.
Proof.
  intros Hc. revert i s.
  induction image_files as [ | p rest IH]; intros i s Hnd Habs Hret.
  - simpl. now rewrite app_nil_r.
  - pose proof (loop_returned _ _ _ Hret) as Hall.
    inversion Hall as [ | p0 rest0 Hp Hrest ]; subst.
    rewrite (loop_step _ _ _ _ Hp) in Hret |- *. simpl placed_names.
    pose proof (iteration_mapping i p s) as Hm. cbv zeta in Hm.
    rewrite processed_iff, Hp in Hm.
    apply Z.eqb_neq in Hc. rewrite Hc in Hm. cbn [negb andb] in Hm.
    set (s' := snd (process_or_skip _ _ _ _ _ _ s)) in *.
    inversion Hnd as [ | b bs Hnotin Hnd' ]; subst.
    assert (forall q, In q rest ->
              dict_get (basename q) (atlas_mapping s') = None) as Habs'.
    { intros q Hq.
      assert (basename q <> basename p) as Hne.
      { intros E. apply Hnotin. rewrite <- E. now apply in_map. }
      destruct (library_calls_succeed W cols cell_width cell_height i p).
      - destruct Hm as [pl ->]. rewrite dict_get_set_other by exact Hne.
        apply Habs. now right.
      - rewrite Hm. apply Habs. now right. }
    rewrite (IH (i + 1) s' Hnd' Habs' Hret).
    destruct (library_calls_succeed W cols cell_width cell_height i p).
    + destruct Hm as [pl ->].
      rewrite dict_set_new_keys by (apply Habs; now left).
      now rewrite <- app_assoc.
    + now rewrite Hm.
Qed.


(** Every entry of the mapping was made by the body of some file, and
    has whatever property [P] that body gives its placement. *)
Lemma loop_entries (P : Z -> string -> placement -> Prop) :
  (forall i image_path s s',
      process_image W cols cell_width cell_height i image_path s = (Ok tt, s') ->
      exists pl, atlas_mapping s'
                 = dict_set (basename image_path) pl (atlas_mapping s)
                 /\ P i image_path pl) ->
  forall image_files i s k pl,
    In (k, pl) (atlas_mapping
                  (snd (for_each_image W cols cell_width cell_height i
                                       image_files s))) ->
    In (k, pl) (atlas_mapping s) \/
    exists j image_path,
      nth_error image_files j = Some image_path /\
      k = basename image_path /\ P (i + Z.of_nat j) image_path pl.
Proof.
  intros HP. induction image_files as [ | p rest IH]; intros i s k pl.
  - simpl. now left.
  - destruct (stdout_encodes W (basename p)) eqn:Hp.
    2:{ rewrite (loop_abort _ _ _ _ Hp). now left. }
    rewrite (loop_step _ _ _ _ Hp). intros Hin.
    destruct (IH _ _ _ _ Hin) as [Hs' | (j & q & Hj & Hk & Hq)].
    + destruct (process_image W cols cell_width cell_height i p s)
        as [[[] | e] s1] eqn:E.
      * rewrite (iteration_ok _ _ _ _ E) in Hs'. simpl in Hs'.
        destruct (HP _ _ _ _ E) as (pl' & Em & Hpl). rewrite Em in Hs'.
        destruct (dict_set_In _ _ _ _ Hs') as [Heq | Hold]; [ | now left].
        injection Heq as -> ->. right. exists 0%nat, p.
        split; [reflexivity | ]. split; [reflexivity | ].
        now rewrite Z.add_0_r.
      * rewrite (iteration_raise _ _ _ _ _ Hp E) in Hs'. simpl in Hs'.
        destruct (process_image_raise _ _ _ _ _ E) as (Em & _).
        rewrite Em in Hs'. now left.
    + right. exists (S j), q. repeat split; auto.
      replace (i + Z.of_nat (S j)) with (i + 1 + Z.of_nat j) by lia.
      exact Hq.
Qed.

End LoopFacts.


(** ** Sizes *)

Section SizeFacts.

Lemma normalized_size (opened : image) :
  width (normalized opened) = width opened /\
  height (normalized opened) = height opened.
Proof.
  unfold normalized. destruct (negb _); split; reflexivity.
Qed.

(** What [new_size] computes, step by step. *)
Lemma new_size_ok (img : image) (cell_width cell_height nw nh : Z) :
  new_size img cell_width cell_height = Ok (nw, nh) ->
  exists scale_x scale_y fw fh,
    Float64.truediv cell_width (width img) = Ok scale_x /\
    Float64.truediv cell_height (height img) = Ok scale_y /\
    Float64.int_mul (width img) (Float64.min scale_x scale_y)
      = Ok (Float64.Fin fw) /\
    Float64.int_mul (height img) (Float64.min scale_x scale_y)
      = Ok (Float64.Fin fh) /\
    nw = Float64.Qtrunc fw /\ nh = Float64.Qtrunc fh.
Proof.
  unfold new_size, rbind.
  destruct (Float64.truediv cell_width (width img)) as [sx | ]; [ | discriminate].
  destruct (Float64.truediv cell_height (height img)) as [sy | ]; [ | discriminate].
  destruct (Float64.int_mul (width img) _) as [[fw | ] | ] eqn:Ew;
    simpl; try discriminate.
  destruct (Float64.int_mul (height img) _) as [[fh | ] | ] eqn:Eh;
    simpl; try discriminate.
  intros H. injection H as <- <-.
  exists sx, sy, fw, fh. repeat split; assumption || reflexivity.
Qed.

(** The computed size exists and fits the cell, whatever the scale. *)
Lemma new_size_fits (img : image) (cell_width cell_height : Z) :
  dimension cell_width -> dimension cell_height ->
  dimension (width img) -> dimension (height img) ->
  exists nw nh,
    new_size img cell_width cell_height = Ok (nw, nh) /\
    0 <= nw <= cell_width /\ 0 <= nh <= cell_height.
Proof.
  unfold dimension, max_dimension. intros Hcw Hch Hw Hh.
  destruct (Float64Facts.truediv_dims cell_width (width img) Hcw Hw)
    as (sx & Ex & Hx0 & Hx).
  destruct (Float64Facts.truediv_dims cell_height (height img) Hch Hh)
    as (sy & Ey & Hy0 & Hy).
  destruct (Float64Facts.min_bounds sx sy Hx0 Hy0) as (Hm0 & Hmx & Hmy).
  destruct (Float64Facts.scaled_dimension_fits (width img) cell_width
              (Float64.min sx sy) sx Hcw Hw Hm0 Hmx Hx)
    as (fw & nw & Efw & Enw & Hnw).
  destruct (Float64Facts.scaled_dimension_fits (height img) cell_height
              (Float64.min sx sy) sy Hch Hh Hm0 Hmy Hy)
    as (fh & nh & Efh & Enh & Hnh).
  simpl in Enw, Enh. injection Enw as <-. injection Enh as <-.
  exists (Float64.Qtrunc fw), (Float64.Qtrunc fh).
  split; [ | split; assumption].
  unfold new_size. rewrite Ex, Ey. simpl rbind.
  rewrite Efw. simpl rbind. rewrite Efh. reflexivity.
Qed.

End SizeFacts.


(** ** [create_atlas] and the enumeration *)

Section AtlasFacts.

Variable W : world.
Variable self : ImageAtlasGenerator.

(** [calculate_grid_size] only prints: its result does not depend on the
    state, and it touches nothing but the output. *)
Lemma calculate_grid_size_state (n : Z) (s : state) :
  calculate_grid_size self n s
  = (fst (calculate_grid_size self n initial),
     mkState (stdout s ++ stdout (snd (calculate_grid_size self n initial)))
             (atlas s) (atlas_mapping s) (files s)).
Proof.
  unfold calculate_grid_size, bind, lift, print, ret.
  destruct s as [out at_ mp fl]. cbn [stdout atlas atlas_mapping files initial].
  destruct (n =? 0); [now rewrite app_nil_r | ].
  destruct (Float64.truediv (atlas_width self) (sprite_width self));
    [ | now rewrite app_nil_r].
  destruct (Float64.mul_int _ n); [ | now rewrite app_nil_r].
  destruct (Float64.sqrt _); [ | now rewrite app_nil_r].
  destruct (Float64.floor _) as [cols | ]; [ | now rewrite app_nil_r].
  cbn [stdout atlas atlas_mapping files app].
  destruct (Float64.truediv n cols); [ | reflexivity].
  destruct (Float64.ceil _); reflexivity.
Qed.

(** The grid size is made of [grid_columns] and of the ceiling of the
    float quotient. *)
Lemma calculate_grid_size_result (n : Z) :
  n <> 0 ->
  fst (calculate_grid_size self n initial)
  = (cols <- grid_columns self n ;;
     quotient <- Float64.truediv n cols ;;
     rows <- Float64.ceil (Float64.Fin quotient) ;;
     Ok (cols, rows))%result.
Proof.
  intros Hn. unfold calculate_grid_size, grid_columns, bind, lift, print, ret, rbind.
  apply Z.eqb_neq in Hn. rewrite Hn.
  destruct (Float64.truediv (atlas_width self) (sprite_width self));
    [ | reflexivity].
  destruct (Float64.mul_int _ n); [ | reflexivity].
  destruct (Float64.sqrt _); [ | reflexivity].
  destruct (Float64.floor _) as [cols | ]; [ | reflexivity].
  cbn [stdout atlas atlas_mapping files app initial].
  destruct (Float64.truediv n cols); [ | reflexivity].
  destruct (Float64.ceil _); reflexivity.
Qed.

(** With no column, the division for the rows raises. *)
Lemma calculate_grid_size_zero_columns (n : Z) (s : state) :
  n <> 0 ->
  grid_columns self n = Ok 0 ->
  fst (calculate_grid_size self n s) = Raise ZeroDivisionError.
Proof.
  intros Hn Ec. rewrite calculate_grid_size_state. cbn [fst].
  rewrite calculate_grid_size_result by exact Hn.
  rewrite Ec. reflexivity.
Qed.

(** A run of [create_atlas] that returns: what it went through. *)
Lemma create_atlas_ok (s s' : state) (mapping : dict) :
  create_atlas W self s = (Ok mapping, s') ->
  exists image_files cols rows s0,
    get_image_files W self = Ok image_files /\
    image_files <> [] /\
    fst (calculate_grid_size self (Z.of_nat (List.length image_files)) initial)
    = Ok (cols, rows) /\
    atlas_mapping s0 = [] /\ atlas s0 = [] /\
    mapping = atlas_mapping
                (snd (for_each_image W cols (sprite_width self)
                        (sprite_height self) 0 image_files s0)) /\
    fst (for_each_image W cols (sprite_width self) (sprite_height self)
           0 image_files s0) = Ok tt.
Proof.
  intros H. unfold create_atlas in H. run_monad_in H.
  destruct (get_image_files W self) as [image_files | e]; [ | discriminate].
  destruct image_files as [ | p rest]; [discriminate | ].
  run_monad_in H. rewrite calculate_grid_size_state in H.
  destruct (fst (calculate_grid_size self _ initial)) as [[cols rows] | e] eqn:Eg;
    [ | discriminate].
  run_monad_in H.
  destruct (pil_new_raises W _ _); [discriminate | ].
  run_monad_in H.
  match type of H with
  | context [for_each_image W cols _ _ 0 (p :: rest) ?s0] =>
      destruct (for_each_image W cols (sprite_width self) (sprite_height self)
                  0 (p :: rest) s0) as [r s7] eqn:El;
      assert (s7 = snd (for_each_image W cols (sprite_width self)
                          (sprite_height self) 0 (p :: rest) s0)) as Es7
        by (now rewrite El);
      assert (r = fst (for_each_image W cols (sprite_width self)
                         (sprite_height self) 0 (p :: rest) s0)) as Er
        by (now rewrite El);
      exists (p :: rest), cols, rows, s0
  end.
  clear El. destruct r as [[] | e]; [ | discriminate].
  unfold save_atlas in H.
  destruct (pil_save_raises W _).
  { destruct (pil_save_damages W _); discriminate. }
  run_monad_in H. cbn [atlas_mapping stdout atlas files] in H.
  injection H as <- _.
  repeat split; try reflexivity; try exact Eg; try discriminate.
  - now rewrite <- Es7.
  - now rewrite <- Er.
Qed.


(** [save_mapping_file], outcome by outcome: the file is not opened; a
    line cannot be encoded, and the file holds the lines before it; or
    every line is written. *)
Lemma save_mapping_file_run
    (mapping : dict) (mapping_path : option string) (s : state) :
  let path := mapping_file_path self mapping_path in
  save_mapping_file W self mapping mapping_path s
  = match open_raises W path with
    | Some e => (Raise e, s)
    | None =>
        let file := (path, MappingText (atlas_width self) (atlas_height self)
                                       (fst (written_entries W mapping))) in
        match snd (written_entries W mapping) with
        | Some e =>
            (Raise e,
             mkState (stdout s) (atlas s) (atlas_mapping s) (files s ++ [file]))
        | None =>
            (Ok tt,
             mkState (stdout s ++ [MappingSaved path]) (atlas s)
                     (atlas_mapping s) (files s ++ [file]))
        end
    end.
Proof.
  intros path. unfold save_mapping_file. fold path.
  destruct (open_raises W path) as [e | ]; [reflexivity | ].
  run_monad.
  destruct (written_entries W mapping) as [written [e | ]]; reflexivity.
Qed.



End AtlasFacts.

Section EnumerationFacts.

Variable W : world.
Variable self : ImageAtlasGenerator.

Lemma supported_formats_spec (filename : string) :
  in_set (lower (snd (splitext filename))) supported_formats
  = Spec.supported filename.
Proof.
  unfold Spec.supported, in_set, supported_formats. cbn [existsb].
  destruct (String.eqb _ ".png"), (String.eqb _ ".jpeg"),
    (String.eqb _ ".jpg"), (String.eqb _ ".webm"), (String.eqb _ ".webp");
    reflexivity.
Qed.

Lemma collect_image_files_spec (entries : list string) :
  collect_image_files self entries
  = map (join (input_dir self)) (filter Spec.supported entries).
Proof.
  induction entries as [ | filename rest IH]; [reflexivity | ].
  cbn [collect_image_files filter]. rewrite supported_formats_spec, IH.
  destruct (Spec.supported filename); reflexivity.
Qed.

(** The base names of the enumerated files are the supported entries:
    directory entries are names, without a separator. *)
Lemma basenames_of_collected (entries : list string) :
  Forall (fun entry => rfind sep entry = -1) entries ->
  map basename (collect_image_files self entries)
  = filter Spec.supported entries.
Proof.
  intros H. rewrite collect_image_files_spec, map_map.
  induction H as [ | entry rest He Hr IH]; [reflexivity | ].
  cbn [filter]. destruct (Spec.supported entry); [ | exact IH].
  cbn [map]. now rewrite basename_join, IH.
Qed.

Lemma enumerated_basenames_distinct (entries : list string) :
  NoDup entries ->
  Forall (fun entry => rfind sep entry = -1) entries ->
  NoDup (map basename (sorted (collect_image_files self entries))).
Proof.
  intros Hnd Hsep.
  apply (Permutation_NoDup
           (l := map basename (collect_image_files self entries))).
  - apply Permutation_map, sorted_perm.
  - rewrite basenames_of_collected by exact Hsep.
    now apply NoDup_filter.
Qed.

End EnumerationFacts.

(** ** Placements *)


Lemma process_image_cell
    (W : world) (cols cell_width cell_height i : Z) (image_path : string)
    (s s' : state) :
  process_image W cols cell_width cell_height i image_path s = (Ok tt, s') ->
  exists pl,
    atlas_mapping s' = dict_set (basename image_path) pl (atlas_mapping s) /\
    in_cell_of cols cell_width cell_height i pl.
Proof.
  intros H.
  destruct (process_image_ok _ _ _ _ _ _ _ _ H) as (o & nw & nh & _ & _ & _ & ->).
  eexists. split; [reflexivity | ]. repeat split.
Qed.

Lemma placed_names_In
    (W : world) (cols cell_width cell_height : Z) (image_files : list string)
    (i : Z) (j : nat) (image_path : string) :
  nth_error image_files j = Some image_path ->
  library_calls_succeed W cols cell_width cell_height (i + Z.of_nat j) image_path = true ->
  In (basename image_path)
     (placed_names W cols cell_width cell_height i image_files).
Proof.
  revert i j. induction image_files as [ | p rest IH]; intros i j Hj Hp.
  - destruct j; discriminate.
  - destruct j as [ | j]; cbn [nth_error] in Hj; cbn [placed_names].
    + injection Hj as ->. rewrite Z.add_0_r in Hp. rewrite Hp. now left.
    + assert (In (basename image_path)
                 (placed_names W cols cell_width cell_height (i + 1) rest)) as R.
      { apply (IH (i + 1) j Hj).
        now replace (i + 1 + Z.of_nat j) with (i + Z.of_nat (S j)) by lia. }
      destruct (library_calls_succeed W cols cell_width cell_height i p);
        [now right | exact R].
Qed.

Lemma NoDup_map_nth_error {A B} (f : A -> B) (l : list A) (i j : nat) (a b : A) :
  NoDup (map f l) ->
  nth_error l i = Some a -> nth_error l j = Some b -> f a = f b -> i = j.
Proof.
  intros Hnd Hi Hj E.
  apply (proj1 (NoDup_nth_error (map f l)) Hnd).
  - apply nth_error_Some. rewrite nth_error_map, Hi. discriminate.
  - rewrite !nth_error_map, Hi, Hj. simpl. now rewrite E.
Qed.

(** Whichever step of the body raises, the turn of the loop ends normally
    with the error printed and no entry made. *)
Example every_step_is_caught :
  one_turn 4 0
  = (Ok tt, [ErrorProcessing "in/x.png" ZeroDivisionError], 0%nat) /\
  one_turn 0 8
  = (Ok tt, [Processing "x.png";
             ErrorProcessing "in/x.png" UnidentifiedImageError], 0%nat) /\
  one_turn 1 8
  = (Ok tt, [Processing "x.png"; ErrorProcessing "in/x.png" OSError], 0%nat) /\
  one_turn 2 8
  = (Ok tt, [Processing "x.png"; ErrorProcessing "in/x.png" MemoryError],
     0%nat) /\
  one_turn 3 8
  = (Ok tt, [Processing "x.png"; ErrorProcessing "in/x.png" ValueError],
     0%nat) /\
  one_turn 4 8 = (Ok tt, [Processing "x.png"], 1%nat).
Proof. repeat split; vm_compute; reflexivity. Qed.

(** ** Rounding and the integers *)

Module Float64Order.
Import Float64 Float64Facts.
Local Open Scope Q_scope.

(** Rounding is monotone against the integers a float holds exactly: a
    real that is at least [k] is not rounded below [k]. *)
Lemma round_mag_ge_int (x : Q) (k : Z) :
  (1 <= k < 2 ^ 53)%Z -> inject_Z k <= x -> inject_Z k <= round_mag x.
Proof.
  intros Hk Hx. rewrite round_mag_scaled.
  set (e := ulp_exp x).
  pose proof (two_power_pos e) as Hp.
  assert (1 <= inject_Z k) as Hk1.
  { change 1 with (inject_Z 1). rewrite <- Zle_Qle. lia. }
  destruct (Z_le_gt_dec e 0) as [He | He].
  - assert (inject_Z (k * 2 ^ (- e)) <= x / 2 ^ e) as Hs.
    { rewrite inject_Z_mult, (Zpower_Qpower 2) by lia. change (inject_Z 2) with 2.
      apply Qle_shift_div_l; [exact Hp | ].
      rewrite <- Qmult_assoc, two_power_opp, Qmult_1_r. exact Hx. }
    apply rne_at_least in Hs. rewrite Zle_Qle in Hs.
    rewrite inject_Z_mult, (Zpower_Qpower 2) in Hs by lia.
    change (inject_Z 2) with 2 in Hs.
    apply (Qmult_le_compat_r _ _ (2 ^ e)) in Hs; [ | lra].
    rewrite <- Qmult_assoc, two_power_opp, Qmult_1_r in Hs. exact Hs.
  - assert (2 ^ (e + 52) <= x) as Hl.
    { assert (e = Qlog2 x - 52)%Z as E by (unfold e, ulp_exp in *; lia).
      replace (e + 52)%Z with (Qlog2 x) by lia.
      apply Qlog2_lower. lra. }
    assert (inject_Z (2 ^ 52) <= x / 2 ^ e) as Hs.
    { apply Qle_shift_div_l; [exact Hp | ].
      rewrite (Zpower_Qpower 2) by lia. change (inject_Z 2) with 2.
      rewrite <- Qpower_plus by discriminate.
      now replace (52 + e)%Z with (e + 52)%Z by lia. }
    apply rne_at_least in Hs. rewrite Zle_Qle in Hs.
    assert (inject_Z k <= inject_Z (2 ^ 52) * 2) as Hk2.
    { change 2 with (inject_Z 2). rewrite <- inject_Z_mult, <- Zle_Qle.
      change (2 ^ 52 * 2)%Z with (2 ^ 53)%Z. lia. }
    assert (2 <= 2 ^ e) as H2.
    { change 2 with (2 ^ 1) at 1. apply Qpower_le_compat_l; [lia | discriminate]. }
    assert (0 <= inject_Z (2 ^ 52)) as H52 by discriminate.
    apply Qle_trans with (inject_Z (2 ^ 52) * 2 ^ e).
    + apply Qle_trans with (inject_Z (2 ^ 52) * 2); [exact Hk2 | ].
      apply Qmult_le_l; [reflexivity | exact H2].
    + apply Qmult_le_compat_r; lra.
Qed.

Lemma round_ge_int (x : Q) (k : Z) :
  (1 <= k < 2 ^ 53)%Z -> inject_Z k <= x -> x <= 2 ^ 1000 ->
  exists q, round x = Fin q /\ inject_Z k <= q /\
            q <= x + x * u + eta /\ x - x * u - eta <= q.
Proof.
  intros Hk Hx Hmax.
  assert (1 <= inject_Z k) as Hk1.
  { change 1 with (inject_Z 1). rewrite <- Zle_Qle. lia. }
  destruct (round_nonneg x ltac:(lra) Hmax) as (q & E & _ & Hu & Hl).
  exists q. split; [exact E | ]. split; [ | split; [exact Hu | exact Hl]].
  unfold round in E. destruct x as [n d]. simpl Qnum in E.
  destruct n as [ | p | p].
  - exfalso. unfold Qle in Hx, Hk1. simpl in Hx, Hk1. lia.
  - destruct (overflows _); [discriminate | ].
    assert (q = Qred (round_mag (Z.pos p # d))) as -> by congruence.
    rewrite Qred_correct. now apply round_mag_ge_int.
  - exfalso. unfold Qle in Hx, Hk1. simpl in Hx, Hk1. lia.
Qed.

(** The square root is monotone against the integers: the root of a float
    that is at least [k * k] is at least [k]. *)
Lemma sqrt_mag_ge_int (x : Q) (k : Z) :
  (1 <= k < 2 ^ 53)%Z -> inject_Z (k * k) <= x -> inject_Z k <= sqrt_mag x.
Proof.
  intros Hk Hx. unfold sqrt_mag.
  set (e := (Qlog2 x / 2 - 52)%Z).
  set (y := x / 2 ^ (2 * e)).
  set (f := Z.sqrt (Qfloor y)).
  set (m := match Qcompare y _ with Lt => f | Eq => _ | Gt => _ end).
  assert (f <= m)%Z as Hm.
  { unfold m. destruct (Qcompare _ _); [destruct (Z.even f) | | ]; lia. }
  rewrite Qred_correct.
  pose proof (two_power_pos e) as Hp.
  pose proof (two_power_pos (2 * e)) as Hp2.
  assert (1 <= x) as Hx1.
  { apply Qle_trans with (inject_Z (k * k)); [ | exact Hx].
    change 1 with (inject_Z 1). rewrite <- Zle_Qle. nia. }
  assert (inject_Z k <= inject_Z f * 2 ^ e) as Hf.
  { destruct (Z_le_gt_dec e 0) as [He | He].
    - set (K := (k * 2 ^ (- e))%Z).
      assert (0 < 2 ^ (- e))%Z as Hpe by (apply Z.pow_pos_nonneg; lia).
      assert (0 < K)%Z as HK by (unfold K; nia).
      assert (inject_Z (K * K) <= y) as Hy.
      { unfold y, K.
        replace (k * 2 ^ (- e) * (k * 2 ^ (- e)))%Z
          with (k * k * 2 ^ (- (2 * e)))%Z.
        2:{ replace (- (2 * e))%Z with (- e + - e)%Z by lia.
            rewrite Z.pow_add_r by lia. ring. }
        rewrite inject_Z_mult, (Zpower_Qpower 2) by lia.
        change (inject_Z 2) with 2.
        apply Qle_shift_div_l; [exact Hp2 | ].
        rewrite <- Qmult_assoc, two_power_opp, Qmult_1_r. exact Hx. }
      assert (K <= f)%Z as Hkf.
      { unfold f. rewrite <- (Z.sqrt_square K) by lia.
        apply Z.sqrt_le_mono. rewrite <- (Qfloor_Z (K * K)).
        now apply Qfloor_resp_le. }
      rewrite Zle_Qle in Hkf. unfold K in Hkf.
      rewrite inject_Z_mult, (Zpower_Qpower 2) in Hkf by lia.
      change (inject_Z 2) with 2 in Hkf.
      apply (Qmult_le_compat_r _ _ (2 ^ e)) in Hkf; [ | lra].
      rewrite <- Qmult_assoc, two_power_opp, Qmult_1_r in Hkf. exact Hkf.
    - assert (inject_Z (2 ^ 52 * 2 ^ 52) <= y) as Hy.
      { unfold y. apply Qle_shift_div_l; [exact Hp2 | ].
        change (2 ^ 52 * 2 ^ 52)%Z with (2 ^ 104)%Z.
        rewrite (Zpower_Qpower 2) by lia. change (inject_Z 2) with 2.
        rewrite <- Qpower_plus by discriminate.
        apply Qle_trans with (2 ^ Qlog2 x); [ | apply Qlog2_lower; lra].
        apply Qpower_le_compat_l; [ | discriminate].
        pose proof (Z.mul_div_le (Qlog2 x) 2 ltac:(lia)). unfold e. lia. }
      assert (2 ^ 52 <= f)%Z as Hkf.
      { unfold f. rewrite <- (Z.sqrt_square (2 ^ 52)) by lia.
        apply Z.sqrt_le_mono. rewrite <- (Qfloor_Z (2 ^ 52 * 2 ^ 52)).
        now apply Qfloor_resp_le. }
      rewrite Zle_Qle in Hkf.
      assert (inject_Z k <= inject_Z (2 ^ 52) * 2) as Hk2.
      { change 2 with (inject_Z 2). rewrite <- inject_Z_mult, <- Zle_Qle.
        change (2 ^ 52 * 2)%Z with (2 ^ 53)%Z. lia. }
      assert (2 <= 2 ^ e) as H2.
      { change 2 with (2 ^ 1) at 1.
        apply Qpower_le_compat_l; [lia | discriminate]. }
      assert (0 <= inject_Z (2 ^ 52)) as H52 by discriminate.
      apply Qle_trans with (inject_Z (2 ^ 52) * 2 ^ e).
      + apply Qle_trans with (inject_Z (2 ^ 52) * 2); [exact Hk2 | ].
        apply Qmult_le_l; [reflexivity | exact H2].
      + apply Qmult_le_compat_r; lra. }
  apply Qle_trans with (inject_Z f * 2 ^ e); [exact Hf | ].
  apply Qmult_le_compat_r; [ | lra]. now rewrite <- Zle_Qle.
Qed.

(** And from above: the root of a positive float that is at most [k * k]
    is at most [k]. *)
Lemma sqrt_mag_le_int (x : Q) (k : Z) :
  (1 <= k < 2 ^ 53)%Z -> 0 < x -> x <= inject_Z (k * k) ->
  sqrt_mag x <= inject_Z k.
Proof.
  intros Hk H0 Hx. unfold sqrt_mag.
  set (e := (Qlog2 x / 2 - 52)%Z).
  set (y := x / 2 ^ (2 * e)).
  set (f := Z.sqrt (Qfloor y)).
  set (h := inject_Z f + (1 # 2)).
  set (m := match Qcompare y _ with Lt => f | Eq => _ | Gt => _ end).
  rewrite Qred_correct.
  pose proof (two_power_pos e) as Hp.
  pose proof (two_power_pos (2 * e)) as Hp2.
  assert (e <= 0)%Z as He.
  { assert (Qlog2 x < 106)%Z as Hl.
    { apply (Qpower_lt_compat_l_inv 2); [ | reflexivity].
      apply Qle_lt_trans with x; [now apply Qlog2_lower | ].
      apply Qle_lt_trans with (inject_Z (k * k)); [exact Hx | ].
      rewrite <- (Zpower_Qpower 2) by lia.
      rewrite <- Zlt_Qlt. change (2 ^ 106)%Z with (2 ^ 53 * 2 ^ 53)%Z. nia. }
    unfold e.
    assert (Qlog2 x / 2 < 53)%Z; [ | lia].
    apply Z.div_lt_upper_bound; lia. }
  set (K := (k * 2 ^ (- e))%Z).
  assert (0 < 2 ^ (- e))%Z as Hpe by (apply Z.pow_pos_nonneg; lia).
  assert (0 < K)%Z as HK by (unfold K; nia).
  assert (0 <= y) as Hy0.
  { unfold y. apply Qle_shift_div_l; [exact Hp2 | ]. lra. }
  assert (y <= inject_Z (K * K)) as Hy.
  { unfold y, K.
    replace (k * 2 ^ (- e) * (k * 2 ^ (- e)))%Z
      with (k * k * 2 ^ (- (2 * e)))%Z.
    2:{ replace (- (2 * e))%Z with (- e + - e)%Z by lia.
        rewrite Z.pow_add_r by lia. ring. }
    rewrite inject_Z_mult, (Zpower_Qpower 2) by lia.
    change (inject_Z 2) with 2.
    apply Qle_shift_div_r; [exact Hp2 | ].
    rewrite <- Qmult_assoc, two_power_opp, Qmult_1_r. exact Hx. }
  assert (0 <= Qfloor y)%Z as Hfl0.
  { rewrite <- (Qfloor_Z 0). now apply Qfloor_resp_le. }
  assert (f <= K)%Z as HfK.
  { unfold f. rewrite <- (Z.sqrt_square K) by lia.
    apply Z.sqrt_le_mono. rewrite <- (Qfloor_Z (K * K)).
    now apply Qfloor_resp_le. }
  assert (0 <= f)%Z as Hf0 by apply Z.sqrt_nonneg.
  assert (m <= K)%Z as HmK.
  { destruct (Z.eq_dec f K) as [E | E].
    - assert (y < h * h) as Hlt.
      { apply Qle_lt_trans with (inject_Z (K * K)); [exact Hy | ].
        unfold h. rewrite E, inject_Z_mult.
        assert (0 < inject_Z K).
        { change 0 with (inject_Z 0). rewrite <- Zlt_Qlt. lia. }
        nra. }
      unfold m. fold h.
      destruct (Qcompare_spec y (h * h)) as [A | A | A]; [ | lia | ].
      + rewrite A in Hlt. lra.
      + lra.
    - unfold m. destruct (Qcompare _ _); [destruct (Z.even f) | | ]; lia. }
  rewrite Zle_Qle in HmK. unfold K in HmK.
  rewrite inject_Z_mult, (Zpower_Qpower 2) in HmK by lia.
  change (inject_Z 2) with 2 in HmK.
  apply (Qmult_le_compat_r _ _ (2 ^ e)) in HmK; [ | lra].
  rewrite <- Qmult_assoc, two_power_opp, Qmult_1_r in HmK. exact HmK.
Qed.

End Float64Order.

Module Float64Roots.
Import Float64 Float64Facts Float64Order.
Local Open Scope Q_scope.

(** Strictly below: the root of a positive float below [k * k], for [k] up
    to [2^26], is below [k]; rounding cannot reach [k]. *)
Lemma sqrt_mag_lt_int (x : Q) (k : Z) :
  (1 <= k <= 2 ^ 26)%Z -> 0 < x -> x <= inject_Z (k * k - 1) ->
  sqrt_mag x < inject_Z k.
Proof.
  intros Hk H0 Hx. unfold sqrt_mag.
  set (e := (Qlog2 x / 2 - 52)%Z).
  set (y := x / 2 ^ (2 * e)).
  set (f := Z.sqrt (Qfloor y)).
  set (h := inject_Z f + (1 # 2)).
  set (m := match Qcompare y _ with Lt => f | Eq => _ | Gt => _ end).
  rewrite Qred_correct.
  pose proof (two_power_pos e) as Hp.
  pose proof (two_power_pos (2 * e)) as Hp2.
  assert (e <= -27)%Z as He.
  { assert (Qlog2 x < 52)%Z as Hl.
    { apply (Qpower_lt_compat_l_inv 2); [ | reflexivity].
      apply Qle_lt_trans with x; [now apply Qlog2_lower | ].
      apply Qle_lt_trans with (inject_Z (k * k - 1)); [exact Hx | ].
      rewrite <- (Zpower_Qpower 2) by lia.
      rewrite <- Zlt_Qlt. change (2 ^ 52)%Z with (2 ^ 26 * 2 ^ 26)%Z. nia. }
    unfold e.
    assert (Qlog2 x / 2 < 26)%Z; [ | lia].
    apply Z.div_lt_upper_bound; lia. }
  set (P := (2 ^ (- e))%Z).
  assert (2 ^ 27 <= P)%Z as HP.
  { unfold P. apply Z.pow_le_mono_r; lia. }
  set (K := (k * P)%Z).
  assert (0 < K)%Z as HK by (unfold K; nia).
  assert (0 <= y) as Hy0.
  { unfold y. apply Qle_shift_div_l; [exact Hp2 | ]. lra. }
  assert (y <= inject_Z (K * K - P * P)) as Hy.
  { unfold y, K.
    replace (k * P * (k * P) - P * P)%Z with ((k * k - 1) * 2 ^ (- (2 * e)))%Z.
    2:{ replace (- (2 * e))%Z with (- e + - e)%Z by lia.
        rewrite Z.pow_add_r by lia. fold P. ring. }
    rewrite inject_Z_mult, (Zpower_Qpower 2) by lia.
    change (inject_Z 2) with 2.
    apply Qle_shift_div_r; [exact Hp2 | ].
    rewrite <- Qmult_assoc, two_power_opp, Qmult_1_r. exact Hx. }
  assert (0 <= Qfloor y)%Z as Hfl0.
  { rewrite <- (Qfloor_Z 0). now apply Qfloor_resp_le. }
  assert (Qfloor y <= K * K - P * P)%Z as Hfl.
  { rewrite <- (Qfloor_Z (K * K - P * P)). now apply Qfloor_resp_le. }
  pose proof (Z.sqrt_spec (Qfloor y) Hfl0) as Hs. cbv zeta in Hs. fold f in Hs.
  assert (0 <= f)%Z as Hf0 by apply Z.sqrt_nonneg.
  assert (f <= K - 1)%Z as HfK.
  { assert (0 < P)%Z as HP0 by lia.
    assert (f * f < K * K)%Z as Hsq by nia.
    assert (f < K)%Z; [ | lia].
    apply Z.square_lt_simpl_nonneg; lia. }
  assert (m <= K - 1)%Z as HmK.
  { destruct (Z.eq_dec f (K - 1)) as [E | E].
    - assert (y < h * h) as Hlt.
      { apply Qle_lt_trans with (inject_Z (K * K - P * P)); [exact Hy | ].
        unfold h. rewrite E.
        assert (inject_Z (K - 1) + (1 # 2) == inject_Z K - (1 # 2)) as ->.
        { unfold Z.sub. rewrite inject_Z_plus, inject_Z_opp.
          change (inject_Z 1) with 1. lra. }
        assert (inject_Z (K * K - P * P) <= inject_Z (K * K - K - 1)) as Hle.
        { rewrite <- Zle_Qle. unfold K. nia. }
        apply Qle_lt_trans with (inject_Z (K * K - K - 1)); [exact Hle | ].
        unfold Z.sub. rewrite !inject_Z_plus, inject_Z_mult, !inject_Z_opp.
        change (inject_Z 1) with 1. nra. }
      unfold m. fold h.
      destruct (Qcompare_spec y (h * h)) as [A | A | A]; [ | lia | ].
      + rewrite A in Hlt. lra.
      + lra.
    - unfold m. destruct (Qcompare _ _); [destruct (Z.even f) | | ]; lia. }
  assert (inject_Z m * 2 ^ e <= inject_Z (K - 1) * 2 ^ e) as Hle.
  { apply Qmult_le_compat_r; [ | lra]. now rewrite <- Zle_Qle. }
  apply Qle_lt_trans with (inject_Z (K - 1) * 2 ^ e); [exact Hle | ].
  unfold Z.sub, K. rewrite inject_Z_plus, inject_Z_mult, inject_Z_opp.
  change (inject_Z 1) with 1. unfold P.
  rewrite (Zpower_Qpower 2) by lia. change (inject_Z 2) with 2.
  rewrite Qmult_plus_distr_l, <- Qmult_assoc, two_power_opp, Qmult_1_r.
  lra.
Qed.

(** The floor of the root of a float holding the integer [n] is the
    integer square root of [n]: rounding does not show. *)
Lemma floor_sqrt_integer (p : Q) (n : Z) :
  (1 <= n < 2 ^ 52)%Z -> p == inject_Z n ->
  Qfloor (sqrt_mag p) = Z.sqrt n.
Proof.
  intros Hn E.
  set (c := Z.sqrt n).
  pose proof (Z.sqrt_spec n ltac:(lia)) as Hs. cbv zeta in Hs. fold c in Hs.
  assert (1 <= c)%Z as Hc1.
  { unfold c. change 1%Z with (Z.sqrt 1). apply Z.sqrt_le_mono. lia. }
  assert (c < 2 ^ 26)%Z as Hc2.
  { change (2 ^ 52)%Z with (2 ^ 26 * 2 ^ 26)%Z in Hn. nia. }
  assert (0 < p) as Hp.
  { rewrite E. change 0 with (inject_Z 0). rewrite <- Zlt_Qlt. lia. }
  assert (inject_Z c <= sqrt_mag p) as Hlow.
  { apply sqrt_mag_ge_int; [lia | ]. rewrite E, <- Zle_Qle. lia. }
  assert (sqrt_mag p < inject_Z (c + 1)) as Hup.
  { apply sqrt_mag_lt_int; [lia | exact Hp | ]. rewrite E, <- Zle_Qle. unfold Z.succ in Hs. lia. }
  assert (c <= Qfloor (sqrt_mag p))%Z.
  { rewrite <- (Qfloor_Z c). now apply Qfloor_resp_le. }
  assert (Qfloor (sqrt_mag p) < c + 1)%Z.
  { rewrite Zlt_Qlt. apply Qle_lt_trans with (sqrt_mag p); [apply Qfloor_le | exact Hup]. }
  lia.
Qed.

End Float64Roots.

Section GridFacts.

Variable self : ImageAtlasGenerator.

(** When the atlas is [r] sprites wide, the number of columns is the
    integer square root of [r * num_images]. *)
Lemma columns_exact (r num_images : Z) :
  1 <= sprite_width self -> 1 <= r ->
  atlas_width self = r * sprite_width self ->
  1 <= num_images -> r * num_images < 2 ^ 52 ->
  grid_columns self num_images = Ok (Z.sqrt (r * num_images)).
Proof.
  intros Hsw Hr Haw Hn Hrn.
  assert (r < 2 ^ 52 /\ num_images < 2 ^ 52) as [Hr2 Hn2] by nia.
  destruct (Float64Facts.truediv_exact (atlas_width self) (sprite_width self) r
              ltac:(lia) ltac:(lia) Haw) as (ratio & Er & Hratio).
  destruct (Float64Facts.round_integer (inject_Z num_images) num_images
              (Qeq_refl _) ltac:(lia)) as (nf & En & Hnf).
  assert (ratio * nf == inject_Z (r * num_images))%Q as Hprod.
  { rewrite Hratio, Hnf, inject_Z_mult. reflexivity. }
  destruct (Float64Facts.round_integer (ratio * nf) (r * num_images) Hprod
              ltac:(nia)) as (product & Ep & Hproduct).
  assert (0 < product)%Q as Hpos.
  { rewrite Hproduct. change 0%Q with (inject_Z 0). rewrite <- Zlt_Qlt. nia. }
  assert (Float64.sqrt (Float64.Fin product)
          = Ok (Float64.Fin (Float64.sqrt_mag product))) as Esqrt.
  { unfold Float64.sqrt. destruct product as [n d].
    destruct n as [ | p | p]; [ | reflexivity | ];
      exfalso; unfold Qlt in Hpos; simpl in Hpos; lia. }
  unfold grid_columns, Float64.mul_int, Float64.of_int, Float64.mul.
  rewrite Er. cbn [rbind]. rewrite En. cbn [rbind]. rewrite Ep.
  cbn [rbind]. rewrite Esqrt. cbn [rbind Float64.floor].
  f_equal. apply Float64Roots.floor_sqrt_integer; [nia | exact Hproduct].
Qed.

(** ... and [calculate_grid_size] returns that many columns and the rows
    they need. *)
Lemma grid_exact (r num_images : Z) (s : state) :
  1 <= sprite_width self -> 1 <= r ->
  atlas_width self = r * sprite_width self ->
  1 <= num_images -> r * num_images < 2 ^ 52 ->
  1 <= Z.sqrt (r * num_images) < 2 ^ 26 /\
  calculate_grid_size self num_images s
  = (Ok (Z.sqrt (r * num_images),
         Spec.rows num_images (Z.sqrt (r * num_images))),
     mkState (stdout s ++ [Cols (Z.sqrt (r * num_images))])
             (atlas s) (atlas_mapping s) (files s)).
Proof.
  intros Hsw Hr Haw Hn Hrn.
  pose proof (columns_exact r num_images Hsw Hr Haw Hn Hrn) as Ec.
  set (cols := Z.sqrt (r * num_images)) in *.
  pose proof (Z.sqrt_spec (r * num_images) ltac:(nia)) as Hs.
  cbv zeta in Hs. fold cols in Hs.
  assert (1 <= cols) as Hc1.
  { unfold cols. change 1 with (Z.sqrt 1). apply Z.sqrt_le_mono. nia. }
  assert (cols < 2 ^ 26) as Hc2.
  { change (2 ^ 52) with (2 ^ 26 * 2 ^ 26) in Hrn. nia. }
  split; [lia | ].
  assert (num_images < 2 ^ 52) as Hn2 by nia.
  destruct (Float64Facts.ceil_truediv num_images cols ltac:(lia) ltac:(lia))
    as (q & Eq & Hq).
  unfold calculate_grid_size.
  assert ((num_images =? 0) = false) as -> by (apply Z.eqb_neq; lia).
  unfold grid_columns in Ec.
  destruct (Float64.truediv (atlas_width self) (sprite_width self))
    as [ratio | e]; [ | discriminate].
  cbn [rbind] in Ec. run_monad.
  destruct (Float64.mul_int ratio num_images) as [product | e];
    [ | discriminate].
  cbn [rbind] in Ec. run_monad.
  destruct (Float64.sqrt product) as [root | e]; [ | discriminate].
  cbn [rbind] in Ec. run_monad. rewrite Ec. run_monad. rewrite Eq.
  cbn [Float64.ceil]. rewrite Hq. reflexivity.
Qed.

End GridFacts.

Module Float64Scaling.
Import Float64 Float64Facts Float64Order.
Local Open Scope Q_scope.

Lemma min_cases (a b : Q) : min a b = a \/ min a b = b.
Proof. unfold min. destruct (Qltb b a); [now right | now left]. Qed.

Lemma floor_below (p : Q) (k : Z) : inject_Z k <= p -> (k <= Qfloor p)%Z.
Proof. intros H. rewrite <- (Qfloor_Z k). now apply Qfloor_resp_le. Qed.

Lemma floor_above (p : Q) (k : Z) : p < inject_Z (k + 1) -> (Qfloor p <= k)%Z.
Proof.
  intros H. assert (Qfloor p < k + 1)%Z; [ | lia].
  rewrite Zlt_Qlt. apply Qle_lt_trans with p; [apply Qfloor_le | exact H].
Qed.

(** [n * scale] for an int [n] and a float [scale]: the product is rounded
    once, within the error model, and never below an integer that the
    exact product reaches. *)
Lemma int_mul_bounds (n : Z) (scale : Q) :
  (1 <= n <= 2 ^ 50)%Z -> 0 <= scale -> scale <= inject_Z (2 ^ 51) ->
  exists p,
    int_mul n scale = Ok (Fin p) /\
    to_int (Fin p) = Ok (Qfloor p) /\
    0 <= p /\
    p <= inject_Z n * scale + inject_Z n * scale * u + eta /\
    inject_Z n * scale - inject_Z n * scale * u - eta <= p /\
    forall k, (1 <= k < 2 ^ 53)%Z -> inject_Z k <= inject_Z n * scale ->
              inject_Z k <= p.
Proof.
  intros Hn Hs0 Hs1.
  assert (1 <= inject_Z n) as Hn1.
  { change 1 with (inject_Z 1). rewrite <- Zle_Qle. lia. }
  assert (inject_Z n <= inject_Z (2 ^ 50)) as Hn2 by (rewrite <- Zle_Qle; lia).
  unfold int_mul, of_int.
  destruct (round_integer (inject_Z n) n (Qeq_refl _) ltac:(lia))
    as (nf & -> & Enf).
  cbn [rbind]. unfold mul.
  assert (0 <= nf * scale) as Hx0.
  { rewrite Enf. apply Qmult_le_0_compat; lra. }
  assert (nf * scale <= inject_Z (2 ^ 50) * inject_Z (2 ^ 51)) as Hx1.
  { rewrite Enf. apply Qmult_le_compat_nonneg; split; lra. }
  assert (inject_Z (2 ^ 50) * inject_Z (2 ^ 51) <= 2 ^ 1000) as Hmax
    by now apply Qle_bool_iff.
  destruct (round_nonneg (nf * scale) Hx0 ltac:(lra))
    as (p & Ep & Hp0 & Hp1 & Hp2).
  exists p. rewrite Ep.
  split; [reflexivity | ].
  split; [cbn [to_int]; now rewrite Qtrunc_nonneg | ].
  split; [exact Hp0 | ].
  split; [now rewrite <- Enf | ].
  split; [now rewrite <- Enf | ].
  intros k Hk Hle. rewrite <- Enf in Hle.
  destruct (round_ge_int (nf * scale) k Hk Hle ltac:(lra))
    as (p' & Ep' & Hk' & _).
  rewrite Ep in Ep'. injection Ep' as <-. exact Hk'.
Qed.

(** The quotient of two dimensions, as the scale factor it becomes. *)
Lemma scale_bounds (c n : Z) :
  (1 <= c <= 2 ^ 50)%Z -> (1 <= n <= 2 ^ 50)%Z ->
  exists q, truediv c n = Ok q /\ 0 <= q /\ q <= inject_Z (2 ^ 51) /\
            inject_Z n * q <= inject_Z c + inject_Z c * u + inject_Z n * eta /\
            inject_Z c - inject_Z c * u - inject_Z n * eta <= inject_Z n * q /\
            ((n <= c)%Z -> 1 <= q).
Proof.
  intros Hc Hn.
  destruct (truediv_bounds c n ltac:(lia) ltac:(lia)) as (q & E & Hu & Hl).
  exists q. split; [exact E | ].
  destruct eta_small as [He0 He1].
  assert (1 <= inject_Z n) as Hn1.
  { change 1 with (inject_Z 1). rewrite <- Zle_Qle. lia. }
  assert (inject_Z n <= inject_Z (2 ^ 50)) as Hn2 by (rewrite <- Zle_Qle; lia).
  assert (1 <= inject_Z c) as Hc1.
  { change 1 with (inject_Z 1). rewrite <- Zle_Qle. lia. }
  assert (inject_Z c <= inject_Z (2 ^ 50)) as Hc2 by (rewrite <- Zle_Qle; lia).
  assert (inject_Z (2 ^ 50) == 1125899906842624) as HB by reflexivity.
  assert (inject_Z (2 ^ 51) == 2251799813685248) as HB' by reflexivity.
  pose proof Hu as Hu'. pose proof Hl as Hl'.
  rewrite u_value in Hu', Hl'.
  assert (inject_Z n * eta <= 1125899906842624 * eta) as Hne.
  { apply Qmult_le_compat_r; lra. }
  assert (0 <= q) as Hq0.
  { destruct (Qlt_le_dec q 0) as [A | A]; [ | exact A].
    exfalso. assert (inject_Z n * q <= 0) by nra. lra. }
  split; [exact Hq0 | ].
  split.
  { destruct (Qlt_le_dec (inject_Z (2 ^ 51)) q) as [A | A]; [ | exact A].
    exfalso. assert (inject_Z (2 ^ 51) <= inject_Z n * q) by nra. lra. }
  split; [exact Hu | ]. split; [exact Hl | ].
  intros Hle.
  unfold truediv in E.
  assert ((n =? 0)%Z = false) as En by (apply Z.eqb_neq; lia).
  rewrite En in E.
  assert (1 <= inject_Z c / inject_Z n) as Hr1.
  { apply Qle_shift_div_l; [lra | ]. rewrite Qmult_1_l, <- Zle_Qle. exact Hle. }
  assert (inject_Z c / inject_Z n <= inject_Z c) as Hr2.
  { apply Qle_shift_div_r; [lra | ]. nra. }
  destruct (round_ge_one _ Hr1) as (q' & Eq' & Hq1 & _).
  { assert (inject_Z (2 ^ 50) <= 2 ^ 1000) by now apply Qle_bool_iff. lra. }
  rewrite Eq' in E. injection E as <-. exact Hq1.
Qed.

End Float64Scaling.

Section ScalingFacts.

Import Float64Scaling.

Variable img : image.
Variables cell_width cell_height : Z.
Hypothesis Hcw : dimension cell_width.
Hypothesis Hch : dimension cell_height.
Hypothesis Hw : dimension (width img).
Hypothesis Hh : dimension (height img).

(** What [new_size] computes, with the error of each of its three
    roundings. *)
Lemma new_size_model :
  exists scale_x scale_y pw ph,
    let scale := Float64.min scale_x scale_y in
    new_size img cell_width cell_height = Ok (Qfloor pw, Qfloor ph) /\
    Float64.truediv cell_width (width img) = Ok scale_x /\
    Float64.truediv cell_height (height img) = Ok scale_y /\
    Float64.int_mul (width img) scale = Ok (Float64.Fin pw) /\
    Float64.int_mul (height img) scale = Ok (Float64.Fin ph) /\
    (0 <= scale)%Q /\ (scale <= inject_Z (2 ^ 51))%Q.
Proof.
  unfold dimension, max_dimension in *.
  destruct (scale_bounds cell_width (width img) Hcw Hw)
    as (sx & Ex & Hx0 & Hx1 & _).
  destruct (scale_bounds cell_height (height img) Hch Hh)
    as (sy & Ey & Hy0 & Hy1 & _).
  destruct (Float64Facts.min_bounds sx sy Hx0 Hy0) as (Hm0 & Hmx & Hmy).
  assert (Float64.min sx sy <= inject_Z (2 ^ 51))%Q as Hm1 by lra.
  destruct (int_mul_bounds (width img) (Float64.min sx sy) Hw Hm0 Hm1)
    as (pw & Epw & Etw & _).
  destruct (int_mul_bounds (height img) (Float64.min sx sy) Hh Hm0 Hm1)
    as (ph & Eph & Eth & _).
  exists sx, sy, pw, ph. cbv zeta.
  split; [ | repeat split; assumption].
  unfold new_size. rewrite Ex, Ey. cbn [rbind].
  rewrite Epw. cbn [rbind]. rewrite Etw. cbn [rbind].
  rewrite Eph. cbn [rbind]. rewrite Eth. reflexivity.
Qed.

(** An image that fits its cell is not made smaller. *)
Lemma new_size_grows :
  width img <= cell_width -> height img <= cell_height ->
  exists nw nh,
    new_size img cell_width cell_height = Ok (nw, nh) /\
    width img <= nw /\ height img <= nh.
Proof.
  intros Hwc Hhc.
  unfold dimension, max_dimension in *.
  destruct (scale_bounds cell_width (width img) Hcw Hw)
    as (sx & Ex & Hx0 & Hx1 & _ & _ & Hx).
  destruct (scale_bounds cell_height (height img) Hch Hh)
    as (sy & Ey & Hy0 & Hy1 & _ & _ & Hy).
  specialize (Hx Hwc). specialize (Hy Hhc).
  destruct (Float64Facts.min_bounds sx sy Hx0 Hy0) as (Hm0 & Hmx & Hmy).
  assert (Float64.min sx sy <= inject_Z (2 ^ 51))%Q as Hm1 by lra.
  assert (1 <= Float64.min sx sy)%Q as Hm.
  { destruct (min_cases sx sy) as [-> | ->]; assumption. }
  destruct (int_mul_bounds (width img) (Float64.min sx sy) Hw Hm0 Hm1)
    as (pw & Epw & Etw & _ & _ & _ & Hkw).
  destruct (int_mul_bounds (height img) (Float64.min sx sy) Hh Hm0 Hm1)
    as (ph & Eph & Eth & _ & _ & _ & Hkh).
  assert (1 <= inject_Z (width img))%Q as Hw1.
  { change 1%Q with (inject_Z 1). rewrite <- Zle_Qle. lia. }
  assert (1 <= inject_Z (height img))%Q as Hh1.
  { change 1%Q with (inject_Z 1). rewrite <- Zle_Qle. lia. }
  exists (Qfloor pw), (Qfloor ph). split; [ | split].
  - unfold new_size. rewrite Ex, Ey. cbn [rbind].
    rewrite Epw. cbn [rbind]. rewrite Etw. cbn [rbind].
    rewrite Eph. cbn [rbind]. rewrite Eth. reflexivity.
  - apply floor_below, Hkw; [lia | nra].
  - apply floor_below, Hkh; [lia | nra].
Qed.

(** The dimension that limits the scale comes out at most one pixel short
    of the cell. *)
Lemma new_size_fills :
  exists nw nh,
    new_size img cell_width cell_height = Ok (nw, nh) /\
    (cell_width - 1 <= nw \/ cell_height - 1 <= nh).
Proof.
  unfold dimension, max_dimension in *.
  destruct (scale_bounds cell_width (width img) Hcw Hw)
    as (sx & Ex & Hx0 & Hx1 & Hxu & Hxl & _).
  destruct (scale_bounds cell_height (height img) Hch Hh)
    as (sy & Ey & Hy0 & Hy1 & Hyu & Hyl & _).
  destruct (Float64Facts.min_bounds sx sy Hx0 Hy0) as (Hm0 & Hmx & Hmy).
  assert (Float64.min sx sy <= inject_Z (2 ^ 51))%Q as Hm1 by lra.
  destruct (int_mul_bounds (width img) (Float64.min sx sy) Hw Hm0 Hm1)
    as (pw & Epw & Etw & _ & _ & Hlw & _).
  destruct (int_mul_bounds (height img) (Float64.min sx sy) Hh Hm0 Hm1)
    as (ph & Eph & Eth & _ & _ & Hlh & _).
  exists (Qfloor pw), (Qfloor ph). split.
  { unfold new_size. rewrite Ex, Ey. cbn [rbind].
    rewrite Epw. cbn [rbind]. rewrite Etw. cbn [rbind].
    rewrite Eph. cbn [rbind]. rewrite Eth. reflexivity. }
  destruct Float64Facts.eta_small as [He0 He1].
  rewrite Float64Facts.u_value in *.
  assert (inject_Z (2 ^ 50) == 1125899906842624)%Q as HB by reflexivity.
  assert (forall c n q p : Q,
             1 <= c -> c <= inject_Z (2 ^ 50) ->
             1 <= n -> n <= inject_Z (2 ^ 50) ->
             n * q <= c + c * (1 # 9007199254740992) + n * Float64.eta ->
             c - c * (1 # 9007199254740992) - n * Float64.eta <= n * q ->
             n * q - n * q * (1 # 9007199254740992) - Float64.eta <= p ->
             c - 1 <= p)%Q as Hcore.
  { intros c n q p Hc1 Hc2 Hn1 Hn2 Hu Hl Hp.
    assert (n * Float64.eta <= 1125899906842624 * Float64.eta)%Q as Hne.
    { apply Qmult_le_compat_r; lra. }
    lra. }
  assert (forall z, (1 <= z <= 2 ^ 50)%Z ->
                    1 <= inject_Z z /\ inject_Z z <= inject_Z (2 ^ 50))%Q as Hdim.
  { intros z Hz. split; [change 1%Q with (inject_Z 1) | ];
      rewrite <- Zle_Qle; lia. }
  destruct (Hdim _ Hcw), (Hdim _ Hch), (Hdim _ Hw), (Hdim _ Hh).
  destruct (min_cases sx sy) as [E | E]; rewrite E in Hlw, Hlh.
  - left.
    assert (cell_width - 1 <= Qfloor pw); [ | lia].
    apply floor_below. unfold Z.sub. rewrite inject_Z_plus, inject_Z_opp.
    change (inject_Z 1) with 1%Q.
    apply (Hcore (inject_Z cell_width) (inject_Z (width img)) sx pw);
      assumption.
  - right.
    assert (cell_height - 1 <= Qfloor ph); [ | lia].
    apply floor_below. unfold Z.sub. rewrite inject_Z_plus, inject_Z_opp.
    change (inject_Z 1) with 1%Q.
    apply (Hcore (inject_Z cell_height) (inject_Z (height img)) sy ph);
      assumption.
Qed.

End ScalingFacts.

Section AspectFacts.

Import Float64Scaling.

Variable img : image.
Variables cell_width cell_height : Z.
Hypothesis Hcw : 1 <= cell_width <= 2 ^ 25.
Hypothesis Hch : 1 <= cell_height <= 2 ^ 25.
Hypothesis Hw : 1 <= width img <= 2 ^ 25.
Hypothesis Hh : 1 <= height img <= 2 ^ 25.

(** Both dimensions are scaled by the same factor, each truncated: the
    aspect ratio is kept up to that one pixel. *)
Lemma new_size_aspect :
  exists nw nh,
    new_size img cell_width cell_height = Ok (nw, nh) /\
    nw * height img - nh * width img <= width img /\
    nh * width img - nw * height img <= height img.
Proof.
  destruct (scale_bounds cell_width (width img) ltac:(lia) ltac:(lia))
    as (sx & Ex & Hx0 & Hx1 & Hxu & _).
  destruct (scale_bounds cell_height (height img) ltac:(lia) ltac:(lia))
    as (sy & Ey & Hy0 & Hy1 & Hyu & _).
  destruct (Float64Facts.min_bounds sx sy Hx0 Hy0) as (Hm0 & Hmx & Hmy).
  assert (Float64.min sx sy <= inject_Z (2 ^ 51))%Q as Hm1 by lra.
  set (scale := Float64.min sx sy) in *.
  destruct (int_mul_bounds (width img) scale ltac:(lia) Hm0 Hm1)
    as (pw & Epw & Etw & Hpw0 & Huw & Hlw & _).
  destruct (int_mul_bounds (height img) scale ltac:(lia) Hm0 Hm1)
    as (ph & Eph & Eth & Hph0 & Huh & Hlh & _).
  exists (Qfloor pw), (Qfloor ph). split.
  { unfold new_size. rewrite Ex, Ey. cbn [rbind]. fold scale.
    rewrite Epw. cbn [rbind]. rewrite Etw. cbn [rbind].
    rewrite Eph. cbn [rbind]. rewrite Eth. reflexivity. }
  destruct Float64Facts.eta_small as [He0 He1].
  rewrite Float64Facts.u_value in *.
  assert (inject_Z (2 ^ 25) == 33554432)%Q as HB by reflexivity.
  assert (forall z, (1 <= z <= 2 ^ 25)%Z ->
                    1 <= inject_Z z /\ inject_Z z <= inject_Z (2 ^ 25))%Q as Hdim.
  { intros z Hz. split; [change 1%Q with (inject_Z 1) | ];
      rewrite <- Zle_Qle; lia. }
  destruct (Hdim _ Hcw) as [Hc1 Hc2], (Hdim _ Hch) as [Hd1 Hd2],
           (Hdim _ Hw) as [Hw1 Hw2], (Hdim _ Hh) as [Hh1 Hh2].
  set (Wq := inject_Z (width img)) in *.
  set (Hq := inject_Z (height img)) in *.
  (* the scaled width and height, before rounding *)
  assert (Wq * scale <= 33554433)%Q as HT1.
  { assert (Wq * scale <= Wq * sx)%Q by (apply Qmult_le_l; lra).
    assert (Wq * Float64.eta <= 33554432 * Float64.eta)%Q
      by (apply Qmult_le_compat_r; lra).
    lra. }
  assert (0 <= Wq * scale)%Q as HT0 by (apply Qmult_le_0_compat; lra).
  set (T := (Wq * scale * Hq)%Q).
  assert (0 <= T <= 33554433 * 33554432)%Q as HT.
  { unfold T. split; [apply Qmult_le_0_compat; lra | ].
    apply Qmult_le_compat_nonneg; split; lra. }
  assert (Hq * scale * Wq == T)%Q as ET by (unfold T; ring).
  assert (Float64.eta * Hq <= 33554432 * Float64.eta)%Q as HeH
    by (rewrite Qmult_comm; apply Qmult_le_compat_r; lra).
  assert (Float64.eta * Wq <= 33554432 * Float64.eta)%Q as HeW
    by (rewrite Qmult_comm; apply Qmult_le_compat_r; lra).
  (* the two rounded products, each multiplied by the other dimension *)
  assert (pw * Hq <= T + T * (1 # 9007199254740992) + Float64.eta * Hq)%Q as A1.
  { apply (Qmult_le_compat_r _ _ Hq) in Huw; [ | lra].
    unfold T. lra. }
  assert (T - T * (1 # 9007199254740992) - Float64.eta * Hq <= pw * Hq)%Q as A2.
  { apply (Qmult_le_compat_r _ _ Hq) in Hlw; [ | lra].
    unfold T. lra. }
  assert (ph * Wq <= T + T * (1 # 9007199254740992) + Float64.eta * Wq)%Q as B1.
  { apply (Qmult_le_compat_r _ _ Wq) in Huh; [ | lra].
    rewrite <- ET. lra. }
  assert (T - T * (1 # 9007199254740992) - Float64.eta * Wq <= ph * Wq)%Q as B2.
  { apply (Qmult_le_compat_r _ _ Wq) in Hlh; [ | lra].
    rewrite <- ET. lra. }
  (* the floors *)
  pose proof (Qfloor_le pw) as Fw1. pose proof (Qlt_floor pw) as Fw2.
  pose proof (Qfloor_le ph) as Fh1. pose proof (Qlt_floor ph) as Fh2.
  rewrite inject_Z_plus in Fw2, Fh2. change (inject_Z 1) with 1%Q in Fw2, Fh2.
  set (nw := Qfloor pw) in *. set (nh := Qfloor ph) in *.
  assert (inject_Z nw * Hq <= pw * Hq)%Q as C1
    by (apply Qmult_le_compat_r; lra).
  assert (pw * Hq <= inject_Z nw * Hq + Hq)%Q as C2.
  { assert (pw * Hq <= (inject_Z nw + 1) * Hq)%Q
      by (apply Qmult_le_compat_r; lra).
    lra. }
  assert (inject_Z nh * Wq <= ph * Wq)%Q as D1
    by (apply Qmult_le_compat_r; lra).
  assert (ph * Wq <= inject_Z nh * Wq + Wq)%Q as D2.
  { assert (ph * Wq <= (inject_Z nh + 1) * Wq)%Q
      by (apply Qmult_le_compat_r; lra).
    lra. }
  split.
  - assert (nw * height img - nh * width img < width img + 1); [ | lia].
    rewrite Zlt_Qlt. unfold Z.sub.
    rewrite !inject_Z_plus, inject_Z_opp, !inject_Z_mult.
    change (inject_Z 1) with 1%Q. fold Wq Hq. lra.
  - assert (nh * width img - nw * height img < height img + 1); [ | lia].
    rewrite Zlt_Qlt. unfold Z.sub.
    rewrite !inject_Z_plus, inject_Z_opp, !inject_Z_mult.
    change (inject_Z 1) with 1%Q. fold Wq Hq. lra.
Qed.

End AspectFacts.

Module Float64Small.
Import Float64 Float64Facts Float64Order.
Local Open Scope Q_scope.

Lemma sqrt_mag_nonneg (x : Q) : 0 <= sqrt_mag x.
Proof.
  unfold sqrt_mag.
  set (e := (Qlog2 x / 2 - 52)%Z).
  set (y := x / 2 ^ (2 * e)).
  set (f := Z.sqrt (Qfloor y)).
  set (m := match Qcompare y _ with Lt => f | Eq => _ | Gt => _ end).
  assert (0 <= f)%Z as Hf by apply Z.sqrt_nonneg.
  assert (0 <= m)%Z as Hm.
  { unfold m. destruct (Qcompare _ _); [destruct (Z.even f) | | ]; lia. }
  rewrite Qred_correct.
  pose proof (two_power_pos e) as Hp.
  apply Qmult_le_0_compat; [ | lra].
  change 0 with (inject_Z 0). now rewrite <- Zle_Qle.
Qed.

(** The root of a float below 1 is below 1. *)
Lemma sqrt_mag_below_one (x : Q) :
  0 < x -> x <= 1 - (1 # 9007199254740992) -> sqrt_mag x < 1.
Proof.
  intros H0 Hx. unfold sqrt_mag.
  set (e := (Qlog2 x / 2 - 52)%Z).
  set (y := x / 2 ^ (2 * e)).
  set (f := Z.sqrt (Qfloor y)).
  set (h := inject_Z f + (1 # 2)).
  set (m := match Qcompare y _ with Lt => f | Eq => _ | Gt => _ end).
  rewrite Qred_correct.
  pose proof (two_power_pos e) as Hp.
  pose proof (two_power_pos (2 * e)) as Hp2.
  assert (e <= -53)%Z as He.
  { assert (Qlog2 x < 0)%Z as Hl.
    { apply (Qpower_lt_compat_l_inv 2); [ | reflexivity].
      apply Qle_lt_trans with x; [now apply Qlog2_lower | ].
      change (2 ^ 0) with 1. lra. }
    unfold e.
    assert (Qlog2 x / 2 < 0)%Z; [ | lia].
    apply Z.div_lt_upper_bound; lia. }
  set (P := (2 ^ (- e))%Z).
  set (R := (2 ^ (- e - 53))%Z).
  assert (1 <= R)%Z as HR.
  { unfold R. change 1%Z with (2 ^ 0)%Z. apply Z.pow_le_mono_r; lia. }
  assert (P = 2 ^ 53 * R)%Z as EP.
  { unfold P, R. rewrite <- Z.pow_add_r by lia. f_equal. lia. }
  assert (0 < P)%Z as HP by lia.
  assert (0 <= y) as Hy0.
  { unfold y. apply Qle_shift_div_l; [exact Hp2 | ]. lra. }
  assert (y <= inject_Z (P * P - P * R)) as Hy.
  { unfold y. apply Qle_shift_div_r; [exact Hp2 | ].
    assert (inject_Z (P * P - P * R) * 2 ^ (2 * e)
            == 1 - (1 # 9007199254740992)) as ->; [ | exact Hx].
    assert (inject_Z (P * P) * 2 ^ (2 * e) == 1) as E1.
    { unfold P. rewrite <- Z.pow_add_r by lia.
      rewrite (Zpower_Qpower 2) by lia. change (inject_Z 2) with 2.
      replace (- e + - e)%Z with (- (2 * e))%Z by lia.
      apply two_power_opp. }
    assert (inject_Z (P * R) * 2 ^ (2 * e) == 1 # 9007199254740992) as E2.
    { assert (inject_Z (P * P) == inject_Z (P * R) * inject_Z (2 ^ 53)) as E3.
      { rewrite <- inject_Z_mult. rewrite EP at 2.
        replace (P * R * 2 ^ 53)%Z with (P * (2 ^ 53 * R))%Z by ring.
        reflexivity. }
      rewrite E3 in E1.
      assert (inject_Z (2 ^ 53) == 9007199254740992) as E4 by reflexivity.
      rewrite E4 in E1.
      set (t := inject_Z (P * R) * 2 ^ (2 * e)).
      assert (t * 9007199254740992 == 1) as E5.
      { unfold t. rewrite <- E1. ring. }
      lra. }
    unfold Z.sub. rewrite inject_Z_plus, inject_Z_opp.
    rewrite Qmult_plus_distr_l.
    assert (- inject_Z (P * R) * 2 ^ (2 * e)
            == - (inject_Z (P * R) * 2 ^ (2 * e))) as -> by ring.
    rewrite E1, E2. reflexivity. }
  assert (0 <= Qfloor y)%Z as Hfl0.
  { rewrite <- (Qfloor_Z 0). now apply Qfloor_resp_le. }
  assert (Qfloor y <= P * P - P * R)%Z as Hfl.
  { rewrite <- (Qfloor_Z (P * P - P * R)). now apply Qfloor_resp_le. }
  pose proof (Z.sqrt_spec (Qfloor y) Hfl0) as Hs. cbv zeta in Hs. fold f in Hs.
  assert (0 <= f)%Z as Hf0 by apply Z.sqrt_nonneg.
  assert (f <= P - 1)%Z as HfP.
  { assert (f * f < P * P)%Z as Hsq by nia.
    assert (f < P)%Z; [ | lia].
    apply Z.square_lt_simpl_nonneg; lia. }
  assert (m <= P - 1)%Z as HmP.
  { destruct (Z.eq_dec f (P - 1)) as [E | E].
    - assert (y < h * h) as Hlt.
      { apply Qle_lt_trans with (inject_Z (P * P - P * R)); [exact Hy | ].
        unfold h. rewrite E.
        assert (inject_Z (P - 1) + (1 # 2) == inject_Z P - (1 # 2)) as ->.
        { unfold Z.sub. rewrite inject_Z_plus, inject_Z_opp.
          change (inject_Z 1) with 1. lra. }
        assert (inject_Z (P * P - P * R) <= inject_Z (P * P - P)) as Hle.
        { rewrite <- Zle_Qle. nia. }
        apply Qle_lt_trans with (inject_Z (P * P - P)); [exact Hle | ].
        unfold Z.sub. rewrite !inject_Z_plus, inject_Z_mult, !inject_Z_opp.
        nra. }
      unfold m. fold h.
      destruct (Qcompare_spec y (h * h)) as [A | A | A]; [ | lia | ].
      + rewrite A in Hlt. lra.
      + lra.
    - unfold m. destruct (Qcompare _ _); [destruct (Z.even f) | | ]; lia. }
  assert (inject_Z m * 2 ^ e <= inject_Z (P - 1) * 2 ^ e) as Hle.
  { apply Qmult_le_compat_r; [ | lra]. now rewrite <- Zle_Qle. }
  apply Qle_lt_trans with (inject_Z (P - 1) * 2 ^ e); [exact Hle | ].
  unfold Z.sub. rewrite inject_Z_plus, inject_Z_opp.
  change (inject_Z 1) with 1. unfold P.
  rewrite (Zpower_Qpower 2) by lia. change (inject_Z 2) with 2.
  rewrite Qmult_plus_distr_l, two_power_opp.
  lra.
Qed.

End Float64Small.

Section NarrowAtlas.

Variable self : ImageAtlasGenerator.

(** When even one row of the images is narrower than one sprite, there
    is no column at all. *)
Lemma columns_zero (num_images : Z) :
  1 <= atlas_width self -> 1 <= num_images ->
  num_images * atlas_width self < sprite_width self ->
  sprite_width self <= max_dimension ->
  grid_columns self num_images = Ok 0.
Proof.
  unfold max_dimension. intros Haw Hn Hlt Hsw.
  assert (atlas_width self < sprite_width self) as Hlt' by nia.
  assert (num_images < sprite_width self) as Hn' by nia.
  destruct (Float64Scaling.scale_bounds (atlas_width self) (sprite_width self)
              ltac:(lia) ltac:(lia))
    as (ratio & Er & Hr0 & _ & Hru & _).
  destruct (Float64Facts.round_integer (inject_Z num_images) num_images
              (Qeq_refl _) ltac:(lia)) as (nf & En & Hnf).
  destruct Float64Facts.eta_small as [He0 _].
  assert (Float64.eta
          <= 1 # 1606938044258990275541962092341162602522202993782792835301376)%Q
    as He1 by (unfold Float64.eta; now apply Qle_bool_iff).
  rewrite Float64Facts.u_value in Hru.
  set (Aq := inject_Z (atlas_width self)) in *.
  set (Sq := inject_Z (sprite_width self)) in *.
  set (Nq := inject_Z num_images) in *.
  assert (1 <= Aq)%Q as HA.
  { unfold Aq. change 1%Q with (inject_Z 1). rewrite <- Zle_Qle. lia. }
  assert (1 <= Nq)%Q as HN.
  { unfold Nq. change 1%Q with (inject_Z 1). rewrite <- Zle_Qle. lia. }
  assert (Nq * Aq + 1 <= Sq)%Q as HS.
  { unfold Nq, Aq, Sq. change 1%Q with (inject_Z 1).
    rewrite <- inject_Z_mult, <- inject_Z_plus, <- Zle_Qle. lia. }
  assert (Nq + 1 <= Sq)%Q as HN1.
  { unfold Nq, Sq. change 1%Q with (inject_Z 1).
    rewrite <- inject_Z_plus, <- Zle_Qle. lia. }
  assert (2 <= Sq)%Q as HS1.
  { unfold Sq. change 2%Q with (inject_Z 2). rewrite <- Zle_Qle. lia. }
  assert (Sq <= 1125899906842624)%Q as HS2.
  { unfold Sq. change 1125899906842624%Q with (inject_Z (2 ^ 50)).
    rewrite <- Zle_Qle. lia. }
  assert (0 <= ratio * nf)%Q as Hx0.
  { rewrite Hnf. apply Qmult_le_0_compat; lra. }
  (* the exact product stays away from 1 *)
  assert (ratio * nf <= 1 - (1 # 2251799813685248))%Q as Hx1.
  { rewrite Hnf. fold Nq.
    destruct (Qlt_le_dec (1 - (1 # 2251799813685248)) (ratio * Nq))
      as [Hgt | Hle]; [exfalso | exact Hle].
    assert (Sq * (1 - (1 # 2251799813685248)) <= Sq * (ratio * Nq))%Q as H1
      by (apply Qmult_le_l; lra).
    assert (Sq * (ratio * Nq)
            <= (Aq + Aq * (1 # 9007199254740992) + Sq * Float64.eta) * Nq)%Q as H2.
    { setoid_replace (Sq * (ratio * Nq))%Q with (Sq * ratio * Nq)%Q by ring.
      apply Qmult_le_compat_r; lra. }
    assert (Sq * Float64.eta * Nq
            <= 1125899906842624 * Float64.eta * 1125899906842624)%Q as H3.
    { apply Qmult_le_compat_nonneg; split; try lra.
      - apply Qmult_le_0_compat; lra.
      - apply Qmult_le_compat_r; lra. }
    assert (Aq * Nq == Nq * Aq)%Q as Hc by ring.
    assert (Aq * Nq <= Sq - 1)%Q as H4 by lra.
    assert ((Aq + Aq * (1 # 9007199254740992) + Sq * Float64.eta) * Nq
            == Aq * Nq + Aq * Nq * (1 # 9007199254740992) + Sq * Float64.eta * Nq)%Q
      as H5 by ring.
    rewrite H5 in H2.
    assert (Sq * (1 # 2251799813685248) <= 1 # 2)%Q as H6 by lra.
    lra. }
  destruct (Float64Facts.round_nonneg (ratio * nf) Hx0) as (product & Ep & Hp0 & Hp1 & _).
  { assert (1 <= 2 ^ 1000)%Q by now apply Qle_bool_iff. lra. }
  rewrite Float64Facts.u_value in Hp1.
  assert (product <= 1 - (1 # 9007199254740992))%Q as Hp2 by lra.
  unfold Nq in En.
  unfold grid_columns, Float64.mul_int, Float64.of_int, Float64.mul.
  rewrite Er. cbn [rbind]. rewrite En. cbn [rbind]. rewrite Ep.
  cbn [rbind]. unfold Float64.sqrt.
  destruct (Qnum product) as [ | n | n] eqn:Eq.
  - reflexivity.
  - cbn [rbind Float64.floor]. f_equal.
    assert (0 < product)%Q as Hpos.
    { unfold Qlt. rewrite Eq. simpl. lia. }
    pose proof (Float64Small.sqrt_mag_below_one product Hpos Hp2) as Hb.
    pose proof (Float64Small.sqrt_mag_nonneg product) as Hn0.
    assert (0 <= Qfloor (Float64.sqrt_mag product)).
    { change 0 with (Qfloor 0). now apply Qfloor_resp_le. }
    assert (Qfloor (Float64.sqrt_mag product) < 1); [ | lia].
    rewrite Zlt_Qlt.
    apply Qle_lt_trans with (Float64.sqrt_mag product);
      [apply Qfloor_le | exact Hb].
  - exfalso. unfold Qle in Hp0. rewrite Eq in Hp0. simpl in Hp0. lia.
Qed.

End NarrowAtlas.

(** ** The run of [create_atlas], step by step *)

Section RunFacts.

Variable W : world.

Lemma dict_set_new (k : string) (v : placement) (d : dict) :
  dict_get k d = None -> dict_set k v d = d ++ [(k, v)].
Proof.
  induction d as [ | [k' v'] r IH]; intros H; [reflexivity | ].
  cbn [dict_get dict_set] in *.
  destruct (String.eqb k' k); [discriminate | ].
  cbn [app]. now rewrite IH.
Qed.

Section Loop.

Variables cols cell_width cell_height : Z.

(** One turn of the loop writes no file. *)
Lemma iteration_files (i : Z) (image_path : string) (s : state) :
  files (snd (process_or_skip W cols cell_width cell_height i image_path s))
  = files s.
Proof.
  destruct (stdout_encodes W (basename image_path)) eqn:Hp.
  2:{ now rewrite (iteration_abort _ _ _ _ _ _ _ Hp). }
  destruct (process_image W cols cell_width cell_height i image_path s)
    as [[[] | e] s1] eqn:E.
  - rewrite (iteration_ok _ _ _ _ _ _ _ _ E). cbn [snd].
    destruct (process_image_ok _ _ _ _ _ _ _ _ E)
      as (o & nw & nh & _ & _ & _ & ->).
    reflexivity.
  - rewrite (iteration_raise _ _ _ _ _ _ _ _ _ Hp E). cbn [snd files].
    now destruct (process_image_raise _ _ _ _ _ _ _ _ _ E) as (_ & _ & -> & _).
Qed.

Lemma loop_files (image_files : list string) (i : Z) (s : state) :
  files (snd (for_each_image W cols cell_width cell_height i image_files s))
  = files s.
Proof.
  revert i s. induction image_files as [ | p rest IH]; intros i s.
  - reflexivity.
  - destruct (stdout_encodes W (basename p)) eqn:Hp.
    + rewrite (loop_step _ _ _ _ _ _ _ _ Hp), IH. apply iteration_files.
    + now rewrite (loop_abort _ _ _ _ _ _ _ _ Hp).
Qed.

(** One turn of the loop pastes an image exactly when it records an
    entry, and what it records is where it pasted. *)
Lemma iteration_rectangles (i : Z) (image_path : string) (s : state) :
  dict_get (basename image_path) (atlas_mapping s) = None ->
  let s' := snd (process_or_skip W cols cell_width cell_height i image_path s) in
  (atlas s' = atlas s /\ atlas_mapping s' = atlas_mapping s) \/
  exists pa pl,
    atlas s' = atlas s ++ [pa] /\
    atlas_mapping s' = atlas_mapping s ++ [(basename image_path, pl)] /\
    pasted_rectangle pa = recorded_rectangle (basename image_path, pl).
Proof.
  intros Hnew. cbv zeta.
  destruct (stdout_encodes W (basename image_path)) eqn:Hp.
  2:{ rewrite (iteration_abort _ _ _ _ _ _ _ Hp). now left. }
  destruct (process_image W cols cell_width cell_height i image_path s)
    as [[[] | e] s1] eqn:E.
  - rewrite (iteration_ok _ _ _ _ _ _ _ _ E). cbn [snd].
    destruct (process_image_ok _ _ _ _ _ _ _ _ E)
      as (o & nw & nh & _ & _ & _ & ->).
    right. eexists. eexists. cbn [atlas atlas_mapping].
    split; [reflexivity | ].
    split; [now apply dict_set_new | reflexivity].
  - rewrite (iteration_raise _ _ _ _ _ _ _ _ _ Hp E).
    cbn [snd atlas atlas_mapping].
    destruct (process_image_raise _ _ _ _ _ _ _ _ _ E) as (-> & -> & _).
    now left.
Qed.

Lemma iteration_keys (i : Z) (image_path : string) (s : state) (k : string) :
  k <> basename image_path ->
  dict_get k (atlas_mapping
                (snd (process_or_skip W cols cell_width cell_height i
                                      image_path s)))
  = dict_get k (atlas_mapping s).
Proof.
  intros Hne.
  pose proof (iteration_mapping W cols cell_width cell_height i image_path s)
    as Hm. cbv zeta in Hm.
  destruct (processed W cols cell_width cell_height i image_path).
  - destruct Hm as [pl ->]. now apply dict_get_set_other.
  - now rewrite Hm.
Qed.

Lemma loop_rectangles (image_files : list string) (i : Z) (s : state) :
  NoDup (map basename image_files) ->
  (forall p, In p image_files ->
             dict_get (basename p) (atlas_mapping s) = None) ->
  map pasted_rectangle (atlas s)
  = map recorded_rectangle (atlas_mapping s) ->
  let s' := snd (for_each_image W cols cell_width cell_height i image_files s) in
  map pasted_rectangle (atlas s')
  = map recorded_rectangle (atlas_mapping s').
Proof.
  revert i s. induction image_files as [ | p rest IH];
    intros i s Hnd Habs Hs; cbv zeta.
  - exact Hs.
  - destruct (stdout_encodes W (basename p)) eqn:Hp.
    2:{ now rewrite (loop_abort _ _ _ _ _ _ _ _ Hp). }
    rewrite (loop_step _ _ _ _ _ _ _ _ Hp).
    inversion Hnd as [ | b bs Hnotin Hnd' ]; subst.
    apply IH; [exact Hnd' | | ].
    + intros q Hq. rewrite iteration_keys; [apply Habs; now right | ].
      intros E. apply Hnotin. rewrite <- E. now apply in_map.
    + destruct (iteration_rectangles i p s (Habs p (or_introl eq_refl)))
        as [[-> ->] | (pa & pl & -> & -> & E)]; [exact Hs | ].
      rewrite !map_app, Hs. cbn [map]. now rewrite E.
Qed.

(** The loop leaves on the canvas and in the mapping what was there, and
    only adds to what is printed. *)
Lemma loop_stdout (image_files : list string) (i : Z) (s : state) :
  exists printed,
    stdout (snd (for_each_image W cols cell_width cell_height i image_files s))
    = stdout s ++ printed.
Proof.
  revert i s. induction image_files as [ | p rest IH]; intros i s.
  - exists []. simpl. now rewrite app_nil_r.
  - destruct (stdout_encodes W (basename p)) eqn:Hp.
    2:{ rewrite (loop_abort _ _ _ _ _ _ _ _ Hp). exists [].
        simpl. now rewrite app_nil_r. }
    rewrite (loop_step _ _ _ _ _ _ _ _ Hp).
    destruct (IH (i + 1)
                (snd (process_or_skip W cols cell_width cell_height i p s)))
      as [printed ->].
    destruct (process_image W cols cell_width cell_height i p s)
      as [[[] | e] s1] eqn:E.
    + rewrite (iteration_ok _ _ _ _ _ _ _ _ E). cbn [snd].
      destruct (process_image_ok _ _ _ _ _ _ _ _ E)
        as (o & nw & nh & _ & _ & _ & ->).
      cbn [stdout]. rewrite <- app_assoc. now eexists.
    + rewrite (iteration_raise _ _ _ _ _ _ _ _ _ Hp E). cbn [snd stdout].
      destruct (process_image_raise _ _ _ _ _ _ _ _ _ E)
        as (_ & _ & _ & [-> | ->]); rewrite <- ?app_assoc; now eexists.
Qed.

End Loop.

Variable self : ImageAtlasGenerator.

(** [save_atlas], outcome by outcome. *)
Lemma save_atlas_run (pastes : list paste) (s : state) :
  save_atlas W self pastes s
  = match pil_save_raises W (atlas_path self) with
    | None =>
        (Ok tt,
         mkState (stdout s) (atlas s) (atlas_mapping s)
                 (files s ++ [(atlas_path self,
                               Png (atlas_width self) (atlas_height self)
                                   pastes)]))
    | Some e =>
        (Raise e,
         if pil_save_damages W (atlas_path self)
         then mkState (stdout s) (atlas s) (atlas_mapping s)
                      (files s ++ [(atlas_path self, IncompletePng)])
         else s)
    end.
Proof.
  unfold save_atlas.
  destruct (pil_save_raises W (atlas_path self)) as [e | ]; [ | reflexivity].
  destruct (pil_save_damages W (atlas_path self)); reflexivity.
Qed.

(** The state in which the loop of [create_atlas] starts: what has been
    printed, an empty canvas and an empty mapping; and how the run ends. *)
Lemma create_atlas_run (s : state) :
  match get_image_files W self with
  | Raise e => create_atlas W self s = (Raise e, s)
  | Ok [] => create_atlas W self s = (Raise ValueError, s)
  | Ok image_files =>
      let n := Z.of_nat (List.length image_files) in
      let s1 := mkState (stdout s ++ [Found n]
                           ++ stdout (snd (calculate_grid_size self n initial)))
                        (atlas s) (atlas_mapping s) (files s) in
      match fst (calculate_grid_size self n initial) with
      | Raise e => create_atlas W self s = (Raise e, s1)
      | Ok (cols, rows) =>
          let out := stdout s1 ++ [GridLayout cols rows;
                                   CellSize (sprite_width self)
                                            (sprite_height self)] in
          match pil_new_raises W (atlas_width self) (atlas_height self) with
          | Some e =>
              create_atlas W self s
              = (Raise e, mkState out (atlas s) (atlas_mapping s) (files s))
          | None =>
              let loop := for_each_image W cols (sprite_width self)
                            (sprite_height self) 0 image_files
                            (mkState out [] [] (files s)) in
              let s3 := snd loop in
              match fst loop with
              | Raise e => create_atlas W self s = (Raise e, s3)
              | Ok _ =>
                  match pil_save_raises W (atlas_path self) with
                  | Some e =>
                      create_atlas W self s
                      = (Raise e,
                         if pil_save_damages W (atlas_path self)
                         then mkState (stdout s3) (atlas s3) (atlas_mapping s3)
                                      (files s ++ [(atlas_path self,
                                                    IncompletePng)])
                         else s3)
                  | None =>
                      create_atlas W self s
                      = (Ok (atlas_mapping s3),
                         mkState (stdout s3 ++ [AtlasSaved (output_path self)])
                                 (atlas s3) (atlas_mapping s3)
                                 (files s ++ [(atlas_path self,
                                               Png (atlas_width self)
                                                   (atlas_height self)
                                                   (atlas s3))]))
                  end
              end
          end
      end
  end.
Proof.
  unfold create_atlas. run_monad.
  destruct (get_image_files W self) as [image_files | e]; [ | reflexivity].
  destruct image_files as [ | p rest]; [reflexivity | ].
  run_monad.
  set (n := Z.of_nat (List.length (p :: rest))).
  set (g := calculate_grid_size self n initial).
  rewrite calculate_grid_size_state. fold g.
  cbn [stdout atlas atlas_mapping files].
  destruct (fst g) as [[cols rows] | e]; [ | now rewrite <- app_assoc].
  run_monad.
  destruct (pil_new_raises W _ _) as [e | ].
  { rewrite <- !app_assoc. reflexivity. }
  run_monad.
  match goal with
  | |- context [for_each_image W cols _ _ 0 (p :: rest) ?s0] =>
      pose proof (loop_files cols (sprite_width self) (sprite_height self)
                    (p :: rest) 0 s0) as F;
      destruct (for_each_image W cols (sprite_width self) (sprite_height self)
                  0 (p :: rest) s0) as [r s7] eqn:El
  end.
  cbn [snd files] in F.
  rewrite <- !app_assoc in *. cbn [app] in *.
  rewrite El. cbn [fst snd].
  destruct r as [[] | e]; [ | reflexivity].
  rewrite save_atlas_run.
  destruct (pil_save_raises W _) as [e | ].
  - destruct (pil_save_damages W _); now rewrite ?F.
  - run_monad. now rewrite F.
Qed.


End RunFacts.

(** ** Order and names of the enumerated files *)

Section OrderFacts.

Lemma lex_le_antisym (a b : string) : lex_le a b -> lex_le b a -> a = b.
Proof. unfold lex_le. apply String.leb_antisym. Qed.

(** A common prefix does not change the order. *)
Lemma leb_append (p a b : string) :
  String.leb (p ++ a) (p ++ b) = String.leb a b.
Proof.
  unfold String.leb.
  induction p as [ | c p IH]; [reflexivity | ].
  cbn [append String.compare]. now rewrite ascii_compare_refl.
Qed.

(** There is one sorted arrangement of a list of strings. *)
Lemma sorted_unique (l1 l2 : list string) :
  StronglySorted lex_le l1 -> StronglySorted lex_le l2 ->
  Permutation l1 l2 -> l1 = l2.
Proof.
  revert l2. induction l1 as [ | a l1 IH]; intros l2 H1 H2 HP.
  - apply Permutation_nil in HP. now subst.
  - destruct l2 as [ | b l2].
    { apply Permutation_sym, Permutation_nil in HP. discriminate. }
    inversion H1 as [ | ? ? S1 F1]; subst.
    inversion H2 as [ | ? ? S2 F2]; subst.
    assert (a = b) as ->.
    { assert (In a (b :: l2)) as Ia
        by (apply (Permutation_in _ HP); now left).
      assert (In b (a :: l1)) as Ib
        by (apply (Permutation_in _ (Permutation_sym HP)); now left).
      destruct Ia as [-> | Ia]; [reflexivity | ].
      destruct Ib as [-> | Ib]; [reflexivity | ].
      rewrite Forall_forall in F1, F2.
      apply lex_le_antisym; [now apply F1 | now apply F2]. }
    f_equal. apply IH; [assumption | assumption | ].
    now apply Permutation_cons_inv in HP.
Qed.

Lemma sorted_of_permutation (l1 l2 : list string) :
  Permutation l1 l2 -> sorted l1 = sorted l2.
Proof.
  intros HP. apply sorted_unique; try apply sorted_ordered.
  apply Permutation_trans with l1; [apply Permutation_sym, sorted_perm | ].
  apply Permutation_trans with l2; [exact HP | apply sorted_perm].
Qed.

Lemma filter_permutation {A} (f : A -> bool) (l1 l2 : list A) :
  Permutation l1 l2 -> Permutation (filter f l1) (filter f l2).
Proof.
  induction 1 as [ | x l l' _ IH | x y l | l l' l'' _ IH1 _ IH2]; cbn [filter].
  - constructor.
  - destruct (f x); [now constructor | exact IH].
  - destruct (f x), (f y); try apply Permutation_refl. constructor.
  - now apply Permutation_trans with (filter f l').
Qed.

End OrderFacts.

Section NameFacts.

(** [rfind] finds nothing exactly when no character matches. *)
Lemma rfind_cons (c a : ascii) (r : string) :
  rfind c (String a r) = -1 <-> a <> c /\ rfind c r = -1.
Proof.
  cbn [rfind]. pose proof (rfind_range c r) as Hr.
  destruct (0 <=? rfind c r) eqn:E.
  - apply Z.leb_le in E. split; [lia | intros [_ H]; lia].
  - apply Z.leb_gt in E. destruct (Ascii.eqb_spec a c) as [-> | Hne].
    + split; [lia | intros [H _]; now elim H].
    + split; [intros _; split; [exact Hne | lia] | reflexivity].
Qed.


(** [lower] moves neither the dots nor the separators. *)
Lemma lower_char_keeps (c a : ascii) :
  lower_char c = c -> (N_of_ascii c < 97 \/ 122 < N_of_ascii c)%N ->
  Ascii.eqb (lower_char a) c = Ascii.eqb a c.
Proof.
  intros Hc Hr.
  destruct (Ascii.eqb_spec a c) as [-> | Hne].
  - rewrite Hc. apply Ascii.eqb_refl.
  - apply Ascii.eqb_neq. intros E. apply Hne.
    unfold lower_char in E.
    destruct ((65 <=? N_of_ascii a) && (N_of_ascii a <=? 90))%N eqn:B;
      [ | exact E].
    exfalso. apply andb_prop in B. destruct B as [B1 B2].
    apply N.leb_le in B1, B2.
    assert (N_of_ascii c = N_of_ascii a + 32)%N as En.
    { rewrite <- E, N_ascii_embedding; [reflexivity | lia]. }
    lia.
Qed.

Lemma rfind_lower (c : ascii) (s : string) :
  lower_char c = c -> (N_of_ascii c < 97 \/ 122 < N_of_ascii c)%N ->
  rfind c (lower s) = rfind c s.
Proof.
  intros Hc Hr. induction s as [ | a r IH]; [reflexivity | ].
  cbn [lower rfind]. now rewrite IH, lower_char_keeps.
Qed.

Lemma len_lower (s : string) : len (lower s) = len s.
Proof.
  unfold len. f_equal. induction s as [ | a r IH]; [reflexivity | ].
  cbn [lower String.length]. now rewrite IH.
Qed.

(** A supported extension is a dot followed by letters: it has its one
    dot in front and no separator. *)
Lemma supported_extension (ext : string) :
  in_set (lower ext) supported_formats = true ->
  rfind extsep ext = 0 /\ rfind sep ext = -1.
Proof.
  intros H.
  rewrite <- (rfind_lower extsep ext), <- (rfind_lower sep ext);
    try reflexivity; try (left; reflexivity).
  unfold in_set, supported_formats in H. cbn [existsb] in H.
  repeat (apply orb_prop in H; destruct H as [H | H]);
    try discriminate;
    apply String.eqb_eq in H; rewrite H; split; reflexivity.
Qed.

Lemma take_drop (n : nat) (s : string) : (take n s ++ drop n s)%string = s.
Proof.
  revert s. induction n as [ | n IH]; intros [ | a r]; try reflexivity.
  cbn [take drop append]. now rewrite IH.
Qed.

(** [os.path.splitext] cuts the path in two. *)
Lemma splitext_append (p : string) :
  (fst (splitext p) ++ snd (splitext p))%string = p.
Proof.
  unfold splitext.
  destruct (rfind sep p <? rfind extsep p); [ | apply append_nil_r].
  destruct (has_non_dot _); [ | apply append_nil_r].
  apply take_drop.
Qed.

Lemma take_take (n m : nat) (s : string) :
  (n <= m)%nat -> take n (take m s) = take n s.
Proof.
  revert m s. induction n as [ | n IH]; intros m s H; [reflexivity | ].
  destruct m as [ | m]; [lia | ].
  destruct s as [ | a r]; [reflexivity | ].
  cbn [take]. rewrite IH by lia. reflexivity.
Qed.

(** A name is taken as an image exactly when it is a root with a
    character other than a dot in its last component, followed by a
    supported extension in any case. *)
Lemma supported_iff (filename : string) :
  in_set (lower (snd (splitext filename))) supported_formats = true <->
  exists root ext,
    filename = (root ++ ext)%string /\
    in_set (lower ext) supported_formats = true /\
    has_non_dot (basename root) = true.
Proof.
  split.
  - intros H.
    exists (fst (splitext filename)), (snd (splitext filename)).
    split; [symmetry; apply splitext_append | ].
    split; [exact H | ].
    unfold splitext in *.
    destruct (rfind sep filename <? rfind extsep filename) eqn:E;
      [ | discriminate].
    destruct (has_non_dot _) eqn:Hd; [ | discriminate].
    cbn [fst snd] in *. apply Z.ltb_lt in E.
    pose proof (rfind_range sep filename) as Rs.
    pose proof (rfind_range extsep filename) as Rd.
    unfold basename, slice, slice_from, slice_to in *.
    set (d := Z.to_nat (rfind extsep filename)) in *.
    assert (rfind sep (take d filename) = rfind sep filename) as Es.
    { rewrite <- (take_drop d filename) at 2. rewrite rfind_append.
      destruct (supported_extension _ H) as [_ ->]. reflexivity. }
    rewrite Es. exact Hd.
  - intros (root & ext & -> & Hext & Hroot).
    destruct (supported_extension ext Hext) as [Ed Es].
    unfold splitext. rewrite !rfind_append, Ed, Es.
    cbn [Z.leb Z.compare]. 
    change (0 <=? -1) with false. cbv iota.
    pose proof (rfind_range sep root) as Rs.
    assert ((rfind sep root <? len root + 0) = true) as ->
      by (apply Z.ltb_lt; lia).
    unfold basename, slice, slice_from, slice_to in *.
    rewrite Z.add_0_r. unfold len. rewrite Nat2Z.id.
    rewrite take_append, drop_append, Hroot. exact Hext.
Qed.

End NameFacts.

Section ListingFacts.

Variable self : ImageAtlasGenerator.

Lemma join_prefix (filename : string) :
  rfind sep filename = -1 ->
  join (input_dir self) filename = (joined_prefix self ++ filename)%string.
Proof.
  intros H. unfold join, joined_prefix.
  assert (startswith_char filename sep = false) as ->.
  { destruct filename as [ | a r]; [reflexivity | ].
    apply rfind_cons in H. cbn [startswith_char].
    now apply Ascii.eqb_neq. }
  destruct (_ || _); [reflexivity | ].
  now rewrite append_assoc.
Qed.

(** The listing order does not show in the result of the enumeration. *)
Lemma collect_permutation (entries entries' : list string) :
  Permutation entries entries' ->
  sorted (collect_image_files self entries)
  = sorted (collect_image_files self entries').
Proof.
  intros HP. apply sorted_of_permutation.
  rewrite !collect_image_files_spec.
  now apply Permutation_map, filter_permutation.
Qed.

(** The base names of the enumerated files are in order, as the files
    are. *)
Lemma enumerated_basenames_sorted (entries : list string) :
  Forall (fun entry => rfind sep entry = -1) entries ->
  StronglySorted lex_le
    (map basename (sorted (collect_image_files self entries))).
Proof.
  intros Hsep.
  set (image_files := sorted (collect_image_files self entries)).
  assert (Forall (fun p => p = (joined_prefix self ++ basename p)%string)
                 image_files) as Hall.
  { apply Forall_forall. intros p Hp.
    apply (Permutation_in _ (Permutation_sym (sorted_perm _))) in Hp.
    rewrite collect_image_files_spec in Hp.
    apply in_map_iff in Hp. destruct Hp as (entry & <- & He).
    apply filter_In in He. destruct He as [He _].
    rewrite Forall_forall in Hsep. specialize (Hsep entry He).
    now rewrite basename_join, join_prefix. }
  pose proof (sorted_ordered (collect_image_files self entries)) as Hs.
  fold image_files in Hs.
  induction Hs as [ | p l Hs IH Hp]; [constructor | ].
  inversion Hall as [ | ? ? Ep Hall']; subst.
  cbn [map]. constructor; [now apply IH | ].
  rewrite Forall_forall in *. intros b Hb.
  apply in_map_iff in Hb. destruct Hb as (q & <- & Hq).
  specialize (Hp q Hq). specialize (Hall' q Hq).
  unfold lex_le in *. rewrite Ep, Hall', leb_append in Hp. exact Hp.
Qed.

End ListingFacts.

(** ** The text of the mapping file *)

Section TextFacts.














End TextFacts.

(** ** The entries of the mapping *)

Section EntryFacts.

Variable W : world.
Variables cols cell_width cell_height : Z.

(** The names placed are among the base names of the files, in their
    order. *)
Lemma placed_names_incl (image_files : list string) (i : Z) (k : string) :
  In k (placed_names W cols cell_width cell_height i image_files) ->
  In k (map basename image_files).
Proof.
  revert i. induction image_files as [ | p rest IH]; intros i H; [exact H | ].
  cbn [placed_names map] in *.
  destruct (library_calls_succeed W cols cell_width cell_height i p).
  - destruct H as [<- | H]; [now left | right; now apply (IH (i + 1))].
  - right. now apply (IH (i + 1)).
Qed.

Lemma placed_names_sorted (image_files : list string) (i : Z) :
  StronglySorted lex_le (map basename image_files) ->
  StronglySorted lex_le
    (placed_names W cols cell_width cell_height i image_files).
Proof.
  revert i. induction image_files as [ | p rest IH]; intros i H;
    [constructor | ].
  cbn [placed_names map] in *.
  inversion H as [ | ? ? Hs Hf]; subst.
  destruct (library_calls_succeed W cols cell_width cell_height i p); [ | now apply IH].
  constructor; [now apply IH | ].
  rewrite Forall_forall in *. intros k Hk.
  apply Hf. now apply placed_names_incl in Hk.
Qed.

Lemma placed_names_distinct (image_files : list string) (i : Z) :
  NoDup (map basename image_files) ->
  NoDup (placed_names W cols cell_width cell_height i image_files).
Proof.
  revert i. induction image_files as [ | p rest IH]; intros i H;
    [constructor | ].
  cbn [placed_names map] in *.
  inversion H as [ | ? ? Hn Hd]; subst.
  destruct (library_calls_succeed W cols cell_width cell_height i p); [ | now apply IH].
  constructor; [ | now apply IH].
  intros Hin. apply Hn. now apply placed_names_incl in Hin.
Qed.

(** What the body records for a file it places: the cell of its index,
    and a rectangle inside that cell. *)
Lemma process_image_rectangle (i : Z) (image_path : string) (s s' : state) :
  dimension cell_width -> dimension cell_height ->
  (forall p o, pil_open W p = Ok o ->
               dimension (width o) /\ dimension (height o)) ->
  process_image W cols cell_width cell_height i image_path s = (Ok tt, s') ->
  exists pl,
    atlas_mapping s' = dict_set (basename image_path) pl (atlas_mapping s) /\
    (in_cell_of cols cell_width cell_height i pl /\ inside_cell pl).
Proof.
  intros Hcw Hch Hdim H.
  destruct (process_image_ok _ _ _ _ _ _ _ _ H)
    as (opened & nw & nh & _ & Eo & En & ->).
  destruct (Hdim _ _ Eo) as [Hw Hh].
  destruct (normalized_size opened) as [Ew Eh].
  destruct (new_size_fits (normalized opened) cell_width cell_height)
    as (nw' & nh' & En' & Hnw & Hnh); try assumption;
    [now rewrite Ew | now rewrite Eh | ].
  rewrite En in En'. injection En' as <- <-.
  eexists. split; [reflexivity | ].
  split; [repeat split | ].
  unfold inside_cell. cbn.
  pose proof (Z.div_pos (cell_width - nw) 2 ltac:(lia) ltac:(lia)).
  pose proof (Z.div_pos (cell_height - nh) 2 ltac:(lia) ltac:(lia)).
  pose proof (Z.mul_div_le (cell_width - nw) 2 ltac:(lia)).
  pose proof (Z.mul_div_le (cell_height - nh) 2 ltac:(lia)).
  lia.
Qed.

(** Two different indices have different cells. *)
Lemma cells_disjoint (i j : Z) (pl pl' : placement) :
  cols <> 0 -> 1 <= cell_width -> 1 <= cell_height -> i <> j ->
  in_cell_of cols cell_width cell_height i pl ->
  in_cell_of cols cell_width cell_height j pl' ->
  disjoint (cell_rectangle pl) (cell_rectangle pl').
Proof.
  intros Hc Hw Hh Hij (Ex & Ey & Ecw & Ech) (Ex' & Ey' & Ecw' & Ech').
  unfold disjoint, cell_rectangle.
  rewrite Ex, Ey, Ecw, Ech, Ex', Ey', Ecw', Ech'.
  pose proof (Z.div_mod i cols Hc) as Di.
  pose proof (Z.div_mod j cols Hc) as Dj.
  destruct (Z.eq_dec (i mod cols) (j mod cols)) as [Em | Em].
  - assert (i / cols <> j / cols) as Hd.
    { intros Ed. apply Hij. rewrite Di, Dj, Em, Ed. reflexivity. }
    destruct (Z_lt_le_dec (i / cols) (j / cols)).
    + right. right. left. nia.
    + right. right. right. nia.
  - destruct (Z_lt_le_dec (i mod cols) (j mod cols)).
    + left. nia.
    + right. left. nia.
Qed.

Lemma disjoint_inside (pl pl' : placement) (k k' : string) :
  inside_cell pl -> inside_cell pl' ->
  disjoint (cell_rectangle pl) (cell_rectangle pl') ->
  disjoint (recorded_rectangle (k, pl)) (recorded_rectangle (k', pl')).
Proof.
  unfold inside_cell, disjoint, cell_rectangle, recorded_rectangle.
  cbn [snd]. lia.
Qed.

End EntryFacts.

Section CanvasFacts.

Variable W : world.
Variables cols cell_width cell_height : Z.

Lemma normalized_mode (opened : image) :
  mode (normalized opened) = "RGBA"%string.
Proof.
  unfold normalized.
  destruct (String.eqb_spec (mode opened) "RGBA") as [E | E];
    [exact E | reflexivity].
Qed.

(** What the loop adds to the canvas has been converted to RGBA. *)
Lemma loop_pastes_rgba (image_files : list string) (i : Z) (s : state) :
  Forall (fun pa => mode (pasted pa) = "RGBA"%string) (atlas s) ->
  Forall (fun pa => mode (pasted pa) = "RGBA"%string)
         (atlas (snd (for_each_image W cols cell_width cell_height i
                                     image_files s))).
Proof.
  revert i s. induction image_files as [ | p rest IH]; intros i s Hs.
  - exact Hs.
  - destruct (stdout_encodes W (basename p)) eqn:Hp.
    2:{ now rewrite (loop_abort _ _ _ _ _ _ _ _ Hp). }
    rewrite (loop_step _ _ _ _ _ _ _ _ Hp). apply IH.
    destruct (process_image W cols cell_width cell_height i p s)
      as [[[] | e] s1] eqn:E.
    + rewrite (iteration_ok _ _ _ _ _ _ _ _ E). cbn [snd].
      destruct (process_image_ok _ _ _ _ _ _ _ _ E)
        as (o & nw & nh & _ & _ & _ & ->).
      cbn [atlas]. apply Forall_app. split; [exact Hs | ].
      constructor; [ | constructor]. cbn [pasted mode].
      apply normalized_mode.
    + rewrite (iteration_raise _ _ _ _ _ _ _ _ _ Hp E). cbn [snd atlas].
      now destruct (process_image_raise _ _ _ _ _ _ _ _ _ E) as (_ & -> & _).
Qed.

(** What the body records of the file it places. *)
Lemma process_image_source (i : Z) (image_path : string) (s s' : state) :
  process_image W cols cell_width cell_height i image_path s = (Ok tt, s') ->
  exists pl,
    atlas_mapping s' = dict_set (basename image_path) pl (atlas_mapping s) /\
    exists opened,
      pil_open W image_path = Ok opened /\
      p_original_size pl = (width opened, height opened) /\
      new_size (normalized opened) cell_width cell_height
      = Ok (p_width pl, p_height pl).
Proof.
  intros H.
  destruct (process_image_ok _ _ _ _ _ _ _ _ H)
    as (opened & nw & nh & _ & Eo & En & ->).
  destruct (normalized_size opened) as [Ew Eh].
  eexists. split; [reflexivity | ].
  exists opened. cbn [p_original_size p_width p_height].
  split; [exact Eo | ]. split; [now rewrite Ew, Eh | exact En].
Qed.

End CanvasFacts.


(** ** The grid, in floats and exactly *)

Module Float64Margin.
Import Float64 Float64Facts Float64Order.
Local Open Scope Q_scope.

(** The root of a float that stays a relative [2^-52] below [k * k] is
    below [k]: rounding the root cannot reach [k]. *)
Lemma sqrt_mag_lt_margin (x : Q) (k : Z) :
  (1 <= k <= 2 ^ 26)%Z -> 0 < x ->
  x * inject_Z (2 ^ 52) <= inject_Z (k * k) * inject_Z (2 ^ 52 - 1) ->
  sqrt_mag x < inject_Z k.
Proof.
  intros Hk H0 Hx. unfold sqrt_mag.
  set (j := (Qlog2 x / 2)%Z).
  set (e := (j - 52)%Z).
  set (y := x / 2 ^ (2 * e)).
  set (f := Z.sqrt (Qfloor y)).
  set (h := inject_Z f + (1 # 2)).
  set (m := match Qcompare y _ with Lt => f | Eq => _ | Gt => _ end).
  rewrite Qred_correct.
  pose proof (two_power_pos e) as Hp.
  pose proof (two_power_pos (2 * e)) as Hp2.
  assert (0 < inject_Z (k * k)) as Hkk.
  { change 0 with (inject_Z 0). rewrite <- Zlt_Qlt. nia. }
  assert (x < inject_Z (k * k)) as Hxk.
  { assert (inject_Z (2 ^ 52) == 4503599627370496) as E1 by reflexivity.
    assert (inject_Z (2 ^ 52 - 1) == 4503599627370495) as E2 by reflexivity.
    rewrite E1, E2 in Hx. lra. }
  assert (Qlog2 x < 52)%Z as Hl.
  { apply (Qpower_lt_compat_l_inv 2); [ | reflexivity].
    apply Qle_lt_trans with x; [now apply Qlog2_lower | ].
    apply Qlt_le_trans with (inject_Z (k * k)); [exact Hxk | ].
    rewrite <- (Zpower_Qpower 2) by lia.
    rewrite <- Zle_Qle. change (2 ^ 52)%Z with (2 ^ 26 * 2 ^ 26)%Z. nia. }
  assert (j < 26)%Z as Hj.
  { unfold j. apply Z.div_lt_upper_bound; lia. }
  assert (e <= -27)%Z as He by (unfold e; lia).
  set (P := (2 ^ (- e))%Z).
  assert (2 ^ 27 <= P)%Z as HP.
  { unfold P. apply Z.pow_le_mono_r; lia. }
  set (K := (k * P)%Z).
  assert (0 < K)%Z as HK by (unfold K; nia).
  (* the scaled bound has 53 bits *)
  assert (2 ^ 52 <= K)%Z as HK52.
  { destruct (Z_lt_le_dec j 0) as [Hneg | Hpos].
    - assert (2 ^ 52 <= P)%Z.
      { unfold P. apply Z.pow_le_mono_r; unfold e; lia. }
      unfold K. nia.
    - assert (2 ^ j < k)%Z as Hjk.
      { apply Z.square_lt_simpl_nonneg; [lia | ].
        rewrite Zlt_Qlt.
        apply Qle_lt_trans with x; [ | exact Hxk].
        apply Qle_trans with (2 ^ Qlog2 x); [ | now apply Qlog2_lower].
        rewrite <- Z.pow_add_r by lia.
        rewrite (Zpower_Qpower 2) by lia. change (inject_Z 2) with 2.
        apply Qpower_le_compat_l; [ | lra].
        unfold j. pose proof (Z.mul_div_le (Qlog2 x) 2 ltac:(lia)). lia. }
      unfold K, P, e.
      replace (- (j - 52))%Z with (52 - j)%Z by lia.
      assert (2 ^ 52 = 2 ^ j * 2 ^ (52 - j))%Z as ->.
      { rewrite <- Z.pow_add_r by lia. f_equal. lia. }
      apply Z.mul_le_mono_nonneg_r; [apply Z.pow_nonneg; lia | lia]. }
  assert (0 <= y) as Hy0.
  { unfold y. apply Qle_shift_div_l; [exact Hp2 | ]. lra. }
  assert (y * inject_Z (2 ^ 52) <= inject_Z (K * K) * inject_Z (2 ^ 52 - 1))
    as Hy.
  { assert (inject_Z (K * K) == inject_Z (k * k) / 2 ^ (2 * e)) as ->.
    { unfold K.
      replace (k * P * (k * P))%Z with ((k * k) * 2 ^ (- (2 * e)))%Z.
      2:{ replace (- (2 * e))%Z with (- e + - e)%Z by lia.
          rewrite Z.pow_add_r by lia. fold P. ring. }
      rewrite inject_Z_mult, (Zpower_Qpower 2) by lia.
      change (inject_Z 2) with 2.
      apply Qmult_inj_r with (2 ^ (2 * e)); [lra | ].
      rewrite <- Qmult_assoc, two_power_opp, Qmult_1_r.
      field. lra. }
    unfold y. unfold Qdiv.
    setoid_replace (x * / 2 ^ (2 * e) * inject_Z (2 ^ 52))
      with (x * inject_Z (2 ^ 52) * / 2 ^ (2 * e)) by ring.
    setoid_replace (inject_Z (k * k) * / 2 ^ (2 * e) * inject_Z (2 ^ 52 - 1))
      with (inject_Z (k * k) * inject_Z (2 ^ 52 - 1) * / 2 ^ (2 * e)) by ring.
    apply Qmult_le_compat_r; [exact Hx | ].
    apply Qlt_le_weak, Qinv_lt_0_compat. exact Hp2. }
  assert (inject_Z (2 ^ 52) == 4503599627370496) as E1 by reflexivity.
  assert (inject_Z (2 ^ 52 - 1) == 4503599627370495) as E2 by reflexivity.
  rewrite E1, E2 in Hy.
  assert (4503599627370496 <= inject_Z K) as HKq.
  { rewrite <- E1, <- Zle_Qle. exact HK52. }
  assert (inject_Z (K * K) == inject_Z K * inject_Z K) as EKK
    by (rewrite inject_Z_mult; reflexivity).
  assert (y <= inject_Z K * inject_Z K - inject_Z K) as Hy1.
  { rewrite EKK in Hy. nra. }
  assert (0 <= Qfloor y)%Z as Hfl0.
  { rewrite <- (Qfloor_Z 0). now apply Qfloor_resp_le. }
  assert (Qfloor y <= K * K - K)%Z as Hfl.
  { rewrite <- (Qfloor_Z (K * K - K)). apply Qfloor_resp_le.
    unfold Z.sub. rewrite inject_Z_plus, inject_Z_mult, inject_Z_opp. lra. }
  pose proof (Z.sqrt_spec (Qfloor y) Hfl0) as Hs. cbv zeta in Hs. fold f in Hs.
  assert (0 <= f)%Z as Hf0 by apply Z.sqrt_nonneg.
  assert (f <= K - 1)%Z as HfK.
  { assert (f * f < K * K)%Z as Hsq by nia.
    assert (f < K)%Z; [ | lia].
    apply Z.square_lt_simpl_nonneg; lia. }
  assert (m <= K - 1)%Z as HmK.
  { destruct (Z.eq_dec f (K - 1)) as [E | E].
    - assert (y < h * h) as Hlt.
      { unfold h. rewrite E.
        assert (inject_Z (K - 1) + (1 # 2) == inject_Z K - (1 # 2)) as ->.
        { unfold Z.sub. rewrite inject_Z_plus, inject_Z_opp.
          change (inject_Z 1) with 1. lra. }
        nra. }
      unfold m. fold h.
      destruct (Qcompare_spec y (h * h)) as [A | A | A]; [ | lia | ].
      + rewrite A in Hlt. lra.
      + lra.
    - unfold m. destruct (Qcompare _ _); [destruct (Z.even f) | | ]; lia. }
  assert (inject_Z m * 2 ^ e <= inject_Z (K - 1) * 2 ^ e) as Hle.
  { apply Qmult_le_compat_r; [ | lra]. now rewrite <- Zle_Qle. }
  apply Qle_lt_trans with (inject_Z (K - 1) * 2 ^ e); [exact Hle | ].
  unfold Z.sub, K. rewrite inject_Z_plus, inject_Z_mult, inject_Z_opp.
  change (inject_Z 1) with 1. unfold P.
  rewrite (Zpower_Qpower 2) by lia. change (inject_Z 2) with 2.
  rewrite Qmult_plus_distr_l, <- Qmult_assoc, two_power_opp, Qmult_1_r.
  lra.
Qed.

End Float64Margin.

Section NearExact.

Variable self : ImageAtlasGenerator.

(** [Spec.columns] is the floor of the real square root: its square is at
    most [(atlas_width / sprite_width) * num_images], and the square of
    the next integer is above. *)
Lemma exact_columns_spec (num_images : Z) :
  1 <= atlas_width self -> 1 <= sprite_width self -> 1 <= num_images ->
  let c := Spec.columns self num_images in
  0 <= c /\
  c * c * sprite_width self <= atlas_width self * num_images
  < (c + 1) * (c + 1) * sprite_width self.
Proof.
  intros Haw Hsw Hn c.
  set (x := (inject_Z (atlas_width self) / inject_Z (sprite_width self)
             * inject_Z num_images)%Q).
  assert (0 < inject_Z (sprite_width self))%Q as HS
    by (apply Float64Facts.inject_Z_pos; lia).
  assert (x * inject_Z (sprite_width self)
          == inject_Z (atlas_width self * num_images))%Q as Ex.
  { unfold x. rewrite inject_Z_mult. field. lra. }
  assert (0 <= x)%Q as Hx0.
  { apply Qmult_le_r with (inject_Z (sprite_width self)); [exact HS | ].
    rewrite Ex, Qmult_0_l. change 0%Q with (inject_Z 0).
    rewrite <- Zle_Qle. nia. }
  assert (0 <= Qfloor x) as Hf0.
  { rewrite <- (Qfloor_Z 0). now apply Qfloor_resp_le. }
  pose proof (Z.sqrt_spec (Qfloor x) Hf0) as Hs. cbv zeta in Hs.
  fold x in c. change (Z.sqrt (Qfloor x)) with c in Hs.
  assert (0 <= c) as Hc0 by apply Z.sqrt_nonneg.
  split; [exact Hc0 | ]. split.
  - rewrite Zle_Qle, <- Ex, inject_Z_mult.
    apply Qmult_le_compat_r; [ | lra].
    apply Qle_trans with (inject_Z (Qfloor x)); [ | apply Qfloor_le].
    rewrite <- Zle_Qle. lia.
  - rewrite Zlt_Qlt, <- Ex, inject_Z_mult.
    apply Qmult_lt_compat_r; [exact HS | ].
    apply Qlt_le_trans with (inject_Z (Qfloor x + 1)); [apply Qlt_floor | ].
    rewrite <- Zle_Qle. unfold Z.succ in Hs. lia.
Qed.

(** The columns computed in floats are the exact number or one less, for
    an atlas row of at most [2^46] pixels of images. *)
Lemma grid_columns_close (num_images : Z) :
  1 <= atlas_width self -> 1 <= sprite_width self <= 2 ^ 46 ->
  1 <= num_images -> atlas_width self * num_images <= 2 ^ 46 ->
  exists cols,
    grid_columns self num_images = Ok cols /\
    0 <= cols /\
    Spec.columns self num_images - 1 <= cols <= Spec.columns self num_images.
Proof.
  intros Haw Hsw Hn Hbound.
  destruct (exact_columns_spec num_images Haw ltac:(lia) Hn)
    as (Hc0 & Hlow & Hup).
  set (c := Spec.columns self num_images) in *.
  assert (atlas_width self <= 2 ^ 46 /\ num_images <= 2 ^ 46) as [Haw2 Hn2]
    by nia.
  destruct (Float64Scaling.scale_bounds (atlas_width self) (sprite_width self)
              ltac:(lia) ltac:(lia))
    as (ratio & Er & Hr0 & _ & Hru & Hrl & _).
  destruct (Float64Facts.round_integer (inject_Z num_images) num_images
              (Qeq_refl _) ltac:(lia)) as (nf & En & Hnf).
  destruct Float64Facts.eta_small as [He0 _].
  assert (Float64.eta
          <= 1 # 1606938044258990275541962092341162602522202993782792835301376)%Q
    as He1 by (unfold Float64.eta; now apply Qle_bool_iff).
  rewrite Float64Facts.u_value in Hru, Hrl.
  set (Aq := inject_Z (atlas_width self)) in *.
  set (Sq := inject_Z (sprite_width self)) in *.
  set (Nq := inject_Z num_images) in *.
  assert (1 <= Aq)%Q as HA.
  { unfold Aq. change 1%Q with (inject_Z 1). rewrite <- Zle_Qle. lia. }
  assert (1 <= Nq)%Q as HN.
  { unfold Nq. change 1%Q with (inject_Z 1). rewrite <- Zle_Qle. lia. }
  assert (1 <= Sq)%Q as HS.
  { unfold Sq. change 1%Q with (inject_Z 1). rewrite <- Zle_Qle. lia. }
  assert (Sq <= 70368744177664)%Q as HS2.
  { unfold Sq. change 70368744177664%Q with (inject_Z (2 ^ 46)).
    rewrite <- Zle_Qle. lia. }
  assert (Nq <= 70368744177664)%Q as HN2.
  { unfold Nq. change 70368744177664%Q with (inject_Z (2 ^ 46)).
    rewrite <- Zle_Qle. lia. }
  assert (Aq * Nq <= 70368744177664)%Q as HAN.
  { unfold Aq, Nq. change 70368744177664%Q with (inject_Z (2 ^ 46)).
    rewrite <- inject_Z_mult, <- Zle_Qle. lia. }
  set (X := (ratio * nf)%Q).
  assert (0 <= X)%Q as HX0.
  { unfold X. rewrite Hnf. apply Qmult_le_0_compat; lra. }
  (* the exact product, times the sprite width *)
  assert (Sq * X <= Aq * Nq + Aq * Nq * (1 # 9007199254740992)
                    + Sq * Nq * Float64.eta)%Q as HXu.
  { unfold X. rewrite Hnf. fold Nq.
    setoid_replace (Sq * (ratio * Nq))%Q with (Sq * ratio * Nq)%Q by ring.
    setoid_replace (Aq * Nq + Aq * Nq * (1 # 9007199254740992)
                    + Sq * Nq * Float64.eta)%Q
      with ((Aq + Aq * (1 # 9007199254740992) + Sq * Float64.eta) * Nq)%Q
      by ring.
    apply Qmult_le_compat_r; lra. }
  assert (Aq * Nq - Aq * Nq * (1 # 9007199254740992)
          - Sq * Nq * Float64.eta <= Sq * X)%Q as HXl.
  { unfold X. rewrite Hnf. fold Nq.
    setoid_replace (Sq * (ratio * Nq))%Q with (Sq * ratio * Nq)%Q by ring.
    setoid_replace (Aq * Nq - Aq * Nq * (1 # 9007199254740992)
                    - Sq * Nq * Float64.eta)%Q
      with ((Aq - Aq * (1 # 9007199254740992) - Sq * Float64.eta) * Nq)%Q
      by ring.
    apply Qmult_le_compat_r; lra. }
  assert (Sq * Nq * Float64.eta
          <= 70368744177664 * 70368744177664 * Float64.eta)%Q as Heta.
  { apply Qmult_le_compat_r; [ | lra].
    apply Qmult_le_compat_nonneg; split; lra. }
  assert (X <= 2 ^ 1000)%Q as HXmax.
  { assert (1 <= 2 ^ 1000)%Q by now apply Qle_bool_iff.
    assert (2 ^ 1000 <= Sq * 2 ^ 1000)%Q.
    { rewrite <- (Qmult_1_l (2 ^ 1000)) at 1.
      apply Qmult_le_compat_r; lra. }
    assert (200000000000000 <= 2 ^ 1000)%Q by now apply Qle_bool_iff.
    apply Qmult_le_l with Sq; lra. }
  destruct (Float64Facts.round_nonneg X HX0 HXmax)
    as (product & Ep & Hp0 & Hpu & Hpl).
  rewrite Float64Facts.u_value in Hpu, Hpl.
  (* what is known of the exact number of columns *)
  set (k := c + 1) in *.
  assert (k * k * sprite_width self <= 2 ^ 48) as Hkk.
  { destruct (Z.eq_dec c 0) as [E0 | E0].
    - unfold k. rewrite E0. lia.
    - assert ((c + 1) * (c + 1) <= 4 * (c * c)) by nia.
      unfold k. nia. }
  assert (1 <= k <= 2 ^ 26) as Hk.
  { split; [unfold k; lia | ].
    destruct (Z_le_gt_dec k (2 ^ 26)) as [Hle | Hgt]; [exact Hle | exfalso].
    assert (2 ^ 26 * 2 ^ 26 < k * k) by nia.
    change (2 ^ 26 * 2 ^ 26) with (2 ^ 52) in *. nia. }
  unfold grid_columns, Float64.mul_int, Float64.of_int, Float64.mul.
  rewrite Er. cbn [rbind]. unfold Nq in En. rewrite En. cbn [rbind].
  fold X. rewrite Ep. cbn [rbind].
  assert (inject_Z c * inject_Z c * Sq <= Aq * Nq)%Q as HlowQ.
  { unfold Sq, Aq, Nq. rewrite <- !inject_Z_mult, <- Zle_Qle. exact Hlow. }
  assert (Aq * Nq + 1 <= inject_Z (k * k) * Sq)%Q as HupQ.
  { unfold Sq, Aq, Nq. change 1%Q with (inject_Z 1).
    rewrite <- !inject_Z_mult, <- inject_Z_plus, <- Zle_Qle. lia. }
  assert (inject_Z (k * k) * Sq <= 281474976710656)%Q as HkkQ.
  { unfold Sq. change 281474976710656%Q with (inject_Z (2 ^ 48)).
    rewrite <- inject_Z_mult, <- Zle_Qle. exact Hkk. }
  (* the product, from below *)
  assert ((2 <= c)%Z -> inject_Z ((c - 1) * (c - 1)) <= product)%Q as Hbelow.
  { intros Hc2.
    assert (c * c <= 2 ^ 46) as Hcc by nia.
    assert (inject_Z ((c - 1) * (c - 1)) <= X)%Q as HX.
    { apply Qmult_le_l with Sq; [lra | ].
      assert (2 <= inject_Z c)%Q as Hcq.
      { change 2%Q with (inject_Z 2). now rewrite <- Zle_Qle. }
      assert (2 * Sq <= inject_Z c * Sq)%Q as HW
        by (apply Qmult_le_compat_r; lra).
      assert (Sq * inject_Z ((c - 1) * (c - 1))
              == inject_Z c * inject_Z c * Sq - 2 * (inject_Z c * Sq) + Sq)%Q
        as ->.
      { unfold Z.sub. rewrite inject_Z_mult, inject_Z_plus, inject_Z_opp.
        change (inject_Z 1) with 1%Q. ring. }
      lra. }
    destruct (Float64Order.round_ge_int X ((c - 1) * (c - 1))
                ltac:(nia) HX HXmax) as (q & Eq & Hq & _).
    rewrite Ep in Eq. injection Eq as Eq.
    assert (product == q)%Q as -> by (rewrite Eq; reflexivity).
    exact Hq. }
  (* the product, from above *)
  assert (product * inject_Z (2 ^ 52)
          <= inject_Z (k * k) * inject_Z (2 ^ 52 - 1))%Q as Habove.
  { apply Qmult_le_l with Sq; [lra | ].
    assert (Sq * product
            <= Sq * X + Sq * X * (1 # 9007199254740992) + Sq * Float64.eta)%Q
      as HV.
    { setoid_replace (Sq * X + Sq * X * (1 # 9007199254740992)
                      + Sq * Float64.eta)%Q
        with (Sq * (X + X * (1 # 9007199254740992) + Float64.eta))%Q by ring.
      apply Qmult_le_l; lra. }
    assert (Sq * Float64.eta <= 70368744177664 * Float64.eta)%Q as Hse
      by (apply Qmult_le_compat_r; lra).
    assert (inject_Z (2 ^ 52) == 4503599627370496)%Q as E1 by reflexivity.
    assert (inject_Z (2 ^ 52 - 1) == 4503599627370495)%Q as E2 by reflexivity.
    rewrite E1, E2.
    setoid_replace (Sq * (product * 4503599627370496))%Q
      with (Sq * product * 4503599627370496)%Q by ring.
    setoid_replace (Sq * (inject_Z (k * k) * 4503599627370495))%Q
      with (inject_Z (k * k) * Sq * 4503599627370495)%Q by ring.
    lra. }
  unfold Float64.sqrt.
  destruct (Qnum product) as [ | n | n] eqn:Enum.
  - exists 0. split; [reflexivity | ]. split; [lia | ].
    split; [ | exact Hc0].
    destruct (Z_le_gt_dec c 1) as [Hle | Hgt]; [lia | exfalso].
    pose proof (Hbelow ltac:(lia)) as Hb.
    assert (1 <= inject_Z ((c - 1) * (c - 1)))%Q as H1.
    { change 1%Q with (inject_Z 1). rewrite <- Zle_Qle. nia. }
    assert (1 <= product)%Q as H2 by lra.
    unfold Qle in H2. rewrite Enum in H2. simpl in H2. lia.
  - assert (0 < product)%Q as Hpos.
    { unfold Qlt. rewrite Enum. simpl. lia. }
    cbn [rbind Float64.floor].
    exists (Qfloor (Float64.sqrt_mag product)). split; [reflexivity | ].
    pose proof (Float64Margin.sqrt_mag_lt_margin product k Hk Hpos Habove)
      as Hlt.
    assert (0 <= Qfloor (Float64.sqrt_mag product)) as Hfloor.
    { pose proof (Float64Small.sqrt_mag_nonneg product) as Hn0.
      change 0 with (Qfloor 0). now apply Qfloor_resp_le. }
    split; [exact Hfloor | ].
    split.
    + destruct (Z_le_gt_dec c 1) as [Hle | Hgt]; [lia | ].
      apply Float64Scaling.floor_below.
      apply Float64Order.sqrt_mag_ge_int; [lia | ].
      apply Hbelow. lia.
    + apply Float64Scaling.floor_above. exact Hlt.
  - exfalso. unfold Qle in Hp0. rewrite Enum in Hp0. simpl in Hp0. lia.
Qed.

End NearExact.

Section GridRun.

Variable self : ImageAtlasGenerator.

(** [calculate_grid_size] prints the number of columns before it divides
    by it. *)
Lemma calculate_grid_size_prints (num_images cols : Z) (s : state) :
  num_images <> 0 ->
  grid_columns self num_images = Ok cols ->
  stdout (snd (calculate_grid_size self num_images s))
  = stdout s ++ [Cols cols].
Proof.
  intros Hn Ec. rewrite calculate_grid_size_state. cbn [snd stdout].
  f_equal. apply Z.eqb_neq in Hn.
  unfold calculate_grid_size, grid_columns, bind, lift, print, ret, rbind in *.
  rewrite Hn.
  destruct (Float64.truediv (atlas_width self) (sprite_width self));
    [ | discriminate].
  destruct (Float64.mul_int _ num_images); [ | discriminate].
  destruct (Float64.sqrt _); [ | discriminate].
  destruct (Float64.floor _) as [cols' | ]; [ | discriminate].
  injection Ec as ->.
  cbn [stdout atlas atlas_mapping files app initial].
  destruct (Float64.truediv num_images cols); [ | reflexivity].
  destruct (Float64.ceil _); reflexivity.
Qed.

(** When the atlas is [r] sprites wide, the exact number of columns is
    the integer square root of [r * num_images]. *)
Lemma exact_columns_multiple (r num_images : Z) :
  1 <= sprite_width self ->
  atlas_width self = r * sprite_width self ->
  Spec.columns self num_images = Z.sqrt (r * num_images).
Proof.
  intros Hsw Haw. unfold Spec.columns. f_equal.
  rewrite <- (Qfloor_Z (r * num_images)). apply Qfloor_comp.
  rewrite Haw, !inject_Z_mult. field.
  assert (0 < inject_Z (sprite_width self))%Q
    by (apply Float64Facts.inject_Z_pos; lia).
  lra.
Qed.

End GridRun.

(** ** What a run leaves in the mapping *)

Lemma normalized_source (opened : image) :
  source (normalized opened) = source opened.
Proof. unfold normalized. now destruct (negb _). Qed.

(** Halving a difference that is not negative: flooring and truncating
    agree, and what is left over goes to the far side. *)
Lemma centred_offset (c n : Z) :
  0 <= n <= c ->
  (c - n) / 2 = Z.quot (c - n) 2 /\
  0 <= Z.quot (c - n) 2 /\
  (if Z.even (c - n)
   then Z.quot (c - n) 2 = c - (Z.quot (c - n) 2 + n)
   else Z.quot (c - n) 2 + 1 = c - (Z.quot (c - n) 2 + n)).
Proof.
  intros Hn.
  assert (Z.quot (c - n) 2 = (c - n) / 2) as -> 
    by (apply Z.quot_div_nonneg; lia).
  split; [reflexivity | ].
  split; [apply Z.div_pos; lia | ].
  destruct (Z.even (c - n)) eqn:E.
  - apply Z.even_spec in E. destruct E as [k E].
    Z.div_mod_to_equations. lia.
  - assert (Z.odd (c - n) = true) as O by (rewrite <- Z.negb_even, E; reflexivity).
    apply Z.odd_spec in O. destruct O as [k O].
    Z.div_mod_to_equations. lia.
Qed.

Lemma process_image_library
    (W : world) (cols cell_width cell_height i : Z) (image_path : string)
    (s s' : state) :
  process_image W cols cell_width cell_height i image_path s = (Ok tt, s') ->
  library_calls_succeed W cols cell_width cell_height i image_path = true.
Proof.
  intros H.
  pose proof (process_image_outcome W cols cell_width cell_height i
                image_path s) as Ho.
  rewrite H, processed_iff in Ho. cbn [fst is_ok] in Ho.
  symmetry in Ho. apply andb_prop in Ho. tauto.
Qed.


Section RunOutcome.

Variable W : world.


Section Loop.

Variables cols cell_width cell_height : Z.




End Loop.

Variable self : ImageAtlasGenerator.

(** A grid that [calculate_grid_size] returns has columns. *)
Lemma grid_has_columns (n cols rows : Z) :
  fst (calculate_grid_size self n initial) = Ok (cols, rows) -> cols <> 0.
Proof.
  destruct (Z.eq_dec n 0) as [-> | Hn].
  - cbn. intros H. injection H as <- _. discriminate.
  - rewrite calculate_grid_size_result by exact Hn.
    destruct (grid_columns self n) as [c | e]; [ | discriminate].
    cbn [rbind]. unfold Float64.truediv.
    destruct (Z.eqb_spec c 0) as [E | E]; [discriminate | ].
    destruct (Float64.round _); [ | discriminate].
    cbn [rbind]. destruct (Float64.ceil _); [ | discriminate].
    cbn [rbind]. intros H. injection H as <- _. exact E.
Qed.

(** A run of [create_atlas] that returns, over a directory of distinct
    file names: the keys of its mapping. *)
Lemma create_atlas_keys
    (s s' : state) (entries : list string) (mapping : dict) :
  lookup W (input_dir self) = Directory entries ->
  NoDup entries ->
  Forall (fun entry => rfind sep entry = -1) entries ->
  create_atlas W self s = (Ok mapping, s') ->
  let image_files := sorted (collect_image_files self entries) in
  exists cols rows,
    fst (calculate_grid_size self (Z.of_nat (List.length image_files)) initial)
    = Ok (cols, rows) /\
    cols <> 0 /\
    Forall (fun p => stdout_encodes W (basename p) = true) image_files /\
    map fst mapping
    = placed_names W cols (sprite_width self) (sprite_height self) 0
                   image_files.
Proof.
  intros Hdir Hnd Hsep H image_files.
  destruct (create_atlas_ok W self s s' mapping H)
    as (files' & cols & rows & s0 & Ef & _ & Eg & Em & _ & -> & Hret).
  assert (files' = image_files) as ->.
  { unfold get_image_files in Ef. rewrite Hdir in Ef.
    injection Ef as <-. reflexivity. }
  exists cols, rows. split; [exact Eg | ].
  pose proof (grid_has_columns _ _ _ Eg) as Hc.
  split; [exact Hc | ].
  split; [exact (loop_returned _ _ _ _ _ _ _ Hret) | ].
  pose proof (loop_keys W cols (sprite_width self) (sprite_height self)
                image_files 0 s0 Hc
                (enumerated_basenames_distinct self entries Hnd Hsep)) as Hkeys.
  rewrite Em in Hkeys. cbn [map app] in Hkeys.
  exact (Hkeys (fun _ _ => eq_refl) Hret).
Qed.

End RunOutcome.

Section WrittenFacts.

Variable W : world.



End WrittenFacts.

(** * The claims *)

(** C1.  The claim fails on the code, which has no guard: with 4 images,
    sprites 4096 wide and an atlas 512 wide,
    [floor(sqrt((512 / 4096) * 4)) = floor(sqrt(0.5)) = 0]; the planner
    prints 0 and raises [ZeroDivisionError] in [num_images / cols], and
    the run ends with exit status 1. *)
Theorem zero_columns_divide_by_zero :
  grid_columns wide_sprites 4 = Ok 0 /\
  calculate_grid_size wide_sprites 4 initial
  = (Raise ZeroDivisionError, mkState [Cols 0] [] [] []) /\
  fst (main example_world (example_arguments 4096) initial) = 1.
Proof. repeat split; vm_compute; reflexivity. Qed.

(** C2, as stated, fails: a 128x7 image in a 32x32 cell has scale 0.25
    and scaled height 1.75, which the code truncates to 1 where rounding
    to the nearest integer gives 2. *)
Lemma rounded_size_differs_from_code :
  new_size (mkImage "in/a.jpg" 128 7 "RGBA") 32 32 = Ok (32, 1) /\
  option_map (fun pl => (p_width pl, p_height pl))
    (dict_get "a.jpg"
       (atlas_mapping
          (snd (process_image example_world 8 32 32 0 "in/a.jpg" initial))))
  = Some (32, 1) /\
  Spec.rounded_size 128 7 32 32 = (32, 2).
Proof. repeat split; vm_compute; reflexivity. Qed.

(** C2 (as amended).  For every image the body places, the size recorded
    in the mapping and the size of the pasted image are the truncations
    toward zero of the float products [width * scale] and
    [height * scale], with [scale = min(cell_width / width, cell_height /
    height)] computed in float arithmetic. *)
Theorem recorded_size_is_truncated
    (W : world) (cols cell_width cell_height i : Z) (image_path : string)
    (s s' : state) :
  process_image W cols cell_width cell_height i image_path s = (Ok tt, s') ->
  exists opened scale_x scale_y scaled_width scaled_height pl pa,
    pil_open W image_path = Ok opened /\
    Float64.truediv cell_width (width opened) = Ok scale_x /\
    Float64.truediv cell_height (height opened) = Ok scale_y /\
    Float64.int_mul (width opened) (Float64.min scale_x scale_y)
      = Ok (Float64.Fin scaled_width) /\
    Float64.int_mul (height opened) (Float64.min scale_x scale_y)
      = Ok (Float64.Fin scaled_height) /\
    dict_get (basename image_path) (atlas_mapping s') = Some pl /\
    atlas s' = atlas s ++ [pa] /\
    p_width pl = Float64.Qtrunc scaled_width /\
    p_height pl = Float64.Qtrunc scaled_height /\
    width (pasted pa) = Float64.Qtrunc scaled_width /\
    height (pasted pa) = Float64.Qtrunc scaled_height.
Proof.
  intros H.
  destruct (process_image_ok _ _ _ _ _ _ _ _ H)
    as (opened & nw & nh & _ & Eo & En & ->).
  destruct (new_size_ok _ _ _ _ _ En) as (sx & sy & fw & fh & A & B & C & D & -> & ->).
  destruct (normalized_size opened) as [Ew Eh]. rewrite Ew, Eh in *.
  exists opened, sx, sy, fw, fh. eexists. eexists.
  split; [exact Eo | ]. split; [exact A | ]. split; [exact B | ].
  split; [exact C | ]. split; [exact D | ].
  split; [apply dict_get_set_same | ].
  split; [reflexivity | ].
  repeat split.
Qed.

Lemma recorded_size_is_truncated_witness :
  exists opened scale_x scale_y scaled_width scaled_height pl pa,
    pil_open example_world "in/a.jpg" = Ok opened /\
    Float64.truediv 32 (width opened) = Ok scale_x /\
    Float64.truediv 32 (height opened) = Ok scale_y /\
    Float64.int_mul (width opened) (Float64.min scale_x scale_y)
      = Ok (Float64.Fin scaled_width) /\
    Float64.int_mul (height opened) (Float64.min scale_x scale_y)
      = Ok (Float64.Fin scaled_height) /\
    dict_get (basename "in/a.jpg")
      (atlas_mapping
         (snd (process_image example_world 8 32 32 0 "in/a.jpg" initial)))
      = Some pl /\
    atlas (snd (process_image example_world 8 32 32 0 "in/a.jpg" initial))
      = atlas initial ++ [pa] /\
    p_width pl = Float64.Qtrunc scaled_width /\
    p_height pl = Float64.Qtrunc scaled_height /\
    width (pasted pa) = Float64.Qtrunc scaled_width /\
    height (pasted pa) = Float64.Qtrunc scaled_height.
Proof.
  apply (recorded_size_is_truncated example_world 8 32 32 0 "in/a.jpg" initial).
  vm_compute. reflexivity.
Defined.

(** C3, as stated, fails: with output path [out] and output name
    [sprites] the atlas is saved at [out/sprites-atlus.png], and the
    mapping at [out_mapping.txt], not at [out/sprites-atlus_mapping.txt]. *)
Lemma mapping_path_not_from_atlas_path :
  atlas_path defaults = "out/sprites-atlus.png"%string /\
  mapping_file_path defaults None = "out_mapping.txt"%string /\
  Spec.mapping_file_path defaults = "out/sprites-atlus_mapping.txt"%string /\
  mapping_file_path defaults None <> Spec.mapping_file_path defaults.
Proof. repeat split; try reflexivity. vm_compute. discriminate. Qed.

(** C3 (as amended).  When no mapping path is given, the mapping file is
    written at the [output_path] argument (the output directory, not the
    path of the atlas file) with its extension, if it has one, replaced by
    [_mapping.txt]; the output name plays no part, and the path never is
    the one derived from the path of the atlas file. *)
Theorem default_mapping_path
    (W : world) (self : ImageAtlasGenerator) (mapping : dict) (s : state) :
  let path := (fst (splitext (output_path self)) ++ "_mapping.txt")%string in
  save_mapping_file W self mapping None s
  = match open_raises W path with
    | Some e => (Raise e, s)
    | None =>
        let file := (path, MappingText (atlas_width self) (atlas_height self)
                                       (fst (written_entries W mapping))) in
        match snd (written_entries W mapping) with
        | Some e =>
            (Raise e,
             mkState (stdout s) (atlas s) (atlas_mapping s) (files s ++ [file]))
        | None =>
            (Ok tt,
             mkState (stdout s ++ [MappingSaved path]) (atlas s)
                     (atlas_mapping s) (files s ++ [file]))
        end
    end
  /\ Spec.mapping_file_path self
     = (output_path self
          ++ (if endswith_char (output_path self) sep then "" else "/")
          ++ output_name self ++ "-atlus_mapping.txt")%string
  /\ path <> Spec.mapping_file_path self.
Proof.
  intros path.
  assert (Spec.mapping_file_path self
          = (output_path self
               ++ (if endswith_char (output_path self) sep then "" else "/")
               ++ output_name self ++ "-atlus_mapping.txt")%string) as E.
  { unfold Spec.mapping_file_path, atlas_path.
    rewrite <- !append_assoc.
    rewrite (splitext_atlus _). cbn [fst]. now rewrite !append_assoc. }
  split; [ | split; [exact E | ]].
  - exact (save_mapping_file_run W self mapping None s).
  - rewrite E. intros A. apply (f_equal String.length) in A.
    unfold path in A. rewrite !length_append in A.
    pose proof (splitext_root_length (output_path self)) as L.
    simpl String.length in A. lia.
Qed.

(** C4, as stated, fails: for 49 images, sprites 49 wide and an atlas 64
    wide, [floor(sqrt((64 / 49) * 49))] is 8 and
    [ceil(49 / 8)] is 7, but the quotient [64 / 49] is rounded, its
    product by 49 falls just below 64, and the planner returns 7 columns
    and 7 rows. *)
Lemma grid_size_differs_from_formula :
  let self := mkGenerator "in" "out" "sprites" 49 49 64 64 in
  Spec.columns self 49 = 8 /\
  Spec.rows 49 (Spec.columns self 49) = 7 /\
  fst (calculate_grid_size self 49 initial) = Ok (7, 7) /\
  fst (calculate_grid_size self 49 initial)
  <> Ok (Spec.columns self 49, Spec.rows 49 (Spec.columns self 49)).
Proof.
  cbv zeta.
  assert (fst (calculate_grid_size
                 (mkGenerator "in" "out" "sprites" 49 49 64 64) 49 initial)
          = Ok (7, 7)) as E by (vm_compute; reflexivity).
  split; [vm_compute; reflexivity | ].
  split; [vm_compute; reflexivity | ].
  split; [exact E | ].
  rewrite E. vm_compute. discriminate.
Qed.

(** C4 (as amended).  The grid planner returns [(1, 1)] for no image.
    Otherwise it computes [cols = floor(sqrt((atlas_width / sprite_width)
    * num_images))] in binary64 floats, rounding the quotient, the product
    and the root, and prints it: for positive sizes, a sprite width up to
    [2^46] and [atlas_width * num_images] up to [2^46], that number is the
    exact value of the formula or one less, and the exact value when the
    sprite width divides the atlas width; when it is at least 1 the
    planner returns it with [ceil(num_images / cols)] rows, the least
    number of rows of [cols] cells that hold all the images (when it is
    0, the division for the rows raises, as C1 shows).  For 4 images,
    sprites of 32x32 and an atlas of 512x512 it returns 8 columns and 1
    row. *)
Theorem grid_size_in_floats
    (self : ImageAtlasGenerator) (num_images : Z) (s : state) :
  fst (calculate_grid_size self 0 s) = Ok (1, 1) /\
  (1 <= atlas_width self -> 1 <= sprite_width self <= 2 ^ 46 ->
   1 <= num_images -> atlas_width self * num_images <= 2 ^ 46 ->
   exists cols,
     stdout (snd (calculate_grid_size self num_images s))
     = stdout s ++ [Cols cols] /\
     0 <= cols /\
     Spec.columns self num_images - 1 <= cols <= Spec.columns self num_images /\
     ((sprite_width self | atlas_width self) ->
      cols = Spec.columns self num_images) /\
     (1 <= cols ->
      fst (calculate_grid_size self num_images s)
      = Ok (cols, Spec.rows num_images cols) /\
      (Spec.rows num_images cols - 1) * cols
      < num_images <= Spec.rows num_images cols * cols) /\
     (cols = 0 ->
      fst (calculate_grid_size self num_images s) = Raise ZeroDivisionError)) /\
  fst (calculate_grid_size defaults 4 s) = Ok (8, 1).
Proof.
  split; [reflexivity | ]. split.
  - intros Haw Hsw Hn Hbound.
    destruct (grid_columns_close self num_images Haw Hsw Hn Hbound)
      as (cols & Ec & Hcols & Hclose).
    destruct (exact_columns_spec self num_images Haw ltac:(lia) Hn)
      as (Hc0 & Hlow & _).
    exists cols.
    split; [apply calculate_grid_size_prints; [lia | exact Ec] | ].
    split; [exact Hcols | ].
    split; [exact Hclose | ]. split.
    + intros [r Hr].
      assert (1 <= r) as Hr1 by nia.
      rewrite (exact_columns_multiple self r num_images ltac:(lia) Hr).
      pose proof (columns_exact self r num_images ltac:(lia) Hr1 Hr Hn) as Ex.
      rewrite Ex in Ec; [congruence | ].
      assert (r * num_images <= 2 ^ 46) by nia. lia.
    + split.
      2:{ intros E0. apply calculate_grid_size_zero_columns; [lia | ].
          now rewrite <- E0. }
      intros Hc.
      assert (num_images <= 2 ^ 46) as Hn2 by nia.
      assert (cols <= 2 ^ 46) as Hc2.
      { set (c := Spec.columns self num_images) in *.
        assert (c * c <= 2 ^ 46) by nia. nia. }
      split.
      * rewrite calculate_grid_size_state. cbn [fst].
        rewrite calculate_grid_size_result by lia.
        rewrite Ec. cbn [rbind].
        destruct (Float64Facts.ceil_truediv num_images cols
                    ltac:(lia) ltac:(lia)) as (q & -> & Eq).
        cbn [rbind Float64.ceil]. now rewrite Eq.
      * unfold Spec.rows.
        pose proof (Z.mul_div_le (num_images + cols - 1) cols ltac:(lia)).
        pose proof (Z.mul_succ_div_gt (num_images + cols - 1) cols ltac:(lia)).
        lia.
  - rewrite calculate_grid_size_state. cbn [fst]. vm_compute. reflexivity.
Qed.

Lemma grid_size_in_floats_witness :
  exists cols,
    stdout (snd (calculate_grid_size defaults 4 initial))
    = stdout initial ++ [Cols cols] /\
    0 <= cols /\
    Spec.columns defaults 4 - 1 <= cols <= Spec.columns defaults 4 /\
    ((sprite_width defaults | atlas_width defaults) ->
     cols = Spec.columns defaults 4) /\
    (1 <= cols ->
     fst (calculate_grid_size defaults 4 initial)
     = Ok (cols, Spec.rows 4 cols) /\
     (Spec.rows 4 cols - 1) * cols < 4 <= Spec.rows 4 cols * cols) /\
    (cols = 0 ->
     fst (calculate_grid_size defaults 4 initial) = Raise ZeroDivisionError).
Proof.
  apply (proj1 (proj2 (grid_size_in_floats defaults 4 initial)));
    simpl; lia.
Defined.

(** C5.  For every placed image (the file of index [i], decoded as
    [opened], whose body completes): the scaled size [(new_width,
    new_height)] that [resize_image_to_fit] computes fits the cell; the
    image is pasted on the canvas, and recorded in the mapping, at
    [paste_x = cell_x + (cell_width - new_width) / 2] with truncating
    integer division (same for y), the cell being the one of index [i];
    so [paste_x - cell_x >= 0]; and the placement is exactly centered when
    [cell_width - new_width] is even, and one pixel closer to the origin
    when it is odd. *)
Theorem paste_position_centered
    (W : world) (cols cell_width cell_height i : Z) (image_path : string)
    (opened : image) (s s' : state) :
  dimension cell_width -> dimension cell_height ->
  pil_open W image_path = Ok opened ->
  dimension (width opened) -> dimension (height opened) ->
  process_image W cols cell_width cell_height i image_path s = (Ok tt, s') ->
  exists new_width new_height,
    new_size (normalized opened) cell_width cell_height
    = Ok (new_width, new_height) /\
    let cell_x := i mod cols * cell_width in
    let cell_y := i / cols * cell_height in
    let paste_x := cell_x + Z.quot (cell_width - new_width) 2 in
    let paste_y := cell_y + Z.quot (cell_height - new_height) 2 in
    atlas s'
    = atlas s ++ [mkPaste (mkImage (source opened) new_width new_height "RGBA")
                          paste_x paste_y] /\
    atlas_mapping s'
    = dict_set (basename image_path)
        (mkPlacement paste_x paste_y new_width new_height cell_x cell_y
                     cell_width cell_height (width opened, height opened))
        (atlas_mapping s) /\
    0 <= paste_x - cell_x /\ 0 <= paste_y - cell_y /\
    0 <= new_width <= cell_width /\ 0 <= new_height <= cell_height /\
    (let left := paste_x - cell_x in
     let right := cell_x + cell_width - (paste_x + new_width) in
     if Z.even (cell_width - new_width) then left = right
     else left + 1 = right) /\
    (let top := paste_y - cell_y in
     let bottom := cell_y + cell_height - (paste_y + new_height) in
     if Z.even (cell_height - new_height) then top = bottom
     else top + 1 = bottom).
Proof.
  intros Hcw Hch Eo Hw Hh H.
  destruct (process_image_ok _ _ _ _ _ _ _ _ H)
    as (opened' & nw & nh & _ & Eo' & En & ->).
  rewrite Eo in Eo'. injection Eo' as <-.
  destruct (normalized_size opened) as [Ew Eh].
  destruct (new_size_fits (normalized opened) cell_width cell_height)
    as (nw' & nh' & En' & Hnw & Hnh); try assumption;
    [now rewrite Ew | now rewrite Eh | ].
  rewrite En in En'. injection En' as <- <-.
  destruct (centred_offset cell_width nw Hnw) as (Qx & Px & Cx).
  destruct (centred_offset cell_height nh Hnh) as (Qy & Py & Cy).
  exists nw, nh. split; [exact En | ]. cbv zeta. cbn [atlas atlas_mapping].
  rewrite Qx, Qy, Ew, Eh, normalized_source, normalized_mode.
  split; [reflexivity | ]. split; [reflexivity | ].
  split; [lia | ]. split; [lia | ]. split; [exact Hnw | ].
  split; [exact Hnh | ]. split.
  - destruct (Z.even (cell_width - nw)); lia.
  - destruct (Z.even (cell_height - nh)); lia.
Qed.

Lemma paste_position_centered_witness :
  exists new_width new_height,
    new_size (normalized (mkImage "in/a.jpg" 128 7 "RGB")) 32 32
    = Ok (new_width, new_height) /\
    (new_width, new_height) = (32, 1) /\
    atlas (snd (process_image example_world 8 32 32 9 "in/a.jpg" initial))
    = [mkPaste (mkImage "in/a.jpg" 32 1 "RGBA") 32 47] /\
    atlas_mapping
      (snd (process_image example_world 8 32 32 9 "in/a.jpg" initial))
    = [("a.jpg"%string, mkPlacement 32 47 32 1 32 32 32 32 (128, 7))].
Proof.
  destruct (paste_position_centered example_world 8 32 32 9 "in/a.jpg"
              (mkImage "in/a.jpg" 128 7 "RGB") initial
              (snd (process_image example_world 8 32 32 9 "in/a.jpg" initial)))
    as (nw & nh & En & Ea & Em & _); try by_evaluation.
  assert ((nw, nh) = (32, 1)) as E.
  { assert (new_size (normalized (mkImage "in/a.jpg" 128 7 "RGB")) 32 32
            = Ok (32, 1)) as E1 by (vm_compute; reflexivity).
    congruence. }
  exists nw, nh. split; [exact En | ]. split; [exact E | ].
  injection E as -> ->. split; [exact Ea | exact Em].
Defined.



(** C7.  File enumeration fails with [FileNotFoundError] exactly when the
    input directory does not exist; for an existing directory it returns,
    in lexicographic order, the paths of the entries whose lowercased
    extension is supported; when no entry is supported the result is
    empty, not an error, and [create_atlas] raises [ValueError]. *)
Theorem enumeration (W : world) (self : ImageAtlasGenerator) :
  (get_image_files W self = Raise FileNotFoundError
   <-> lookup W (input_dir self) = Missing) /\
  (forall entries,
      lookup W (input_dir self) = Directory entries ->
      exists image_files,
        get_image_files W self = Ok image_files /\
        StronglySorted lex_le image_files /\
        Permutation image_files
          (map (join (input_dir self)) (filter Spec.supported entries)) /\
        (filter Spec.supported entries = [] ->
         image_files = [] /\
         forall s, create_atlas W self s = (Raise ValueError, s))).
Proof.
  split.
  - unfold get_image_files.
    destruct (lookup W (input_dir self)); split; congruence.
  - intros entries E.
    exists (sorted (collect_image_files self entries)).
    assert (get_image_files W self
            = Ok (sorted (collect_image_files self entries))) as Eg
      by (unfold get_image_files; now rewrite E).
    split; [exact Eg | ]. split; [apply sorted_ordered | ].
    split.
    + rewrite <- collect_image_files_spec. symmetry. apply sorted_perm.
    + intros Hnone.
      assert (sorted (collect_image_files self entries) = []) as Es
        by (rewrite collect_image_files_spec, Hnone; reflexivity).
      split; [exact Es | ].
      intros s. unfold create_atlas. run_monad. rewrite Eg, Es. reflexivity.
Qed.

Lemma enumeration_witness :
  exists image_files,
    get_image_files example_world defaults = Ok image_files /\
    StronglySorted lex_le image_files /\
    Permutation image_files
      (map (join "in")
           (filter Spec.supported example_entries)) /\
    (filter Spec.supported example_entries = [] ->
     image_files = [] /\
     forall s, create_atlas example_world defaults s = (Raise ValueError, s)).
Proof.
  apply (proj2 (enumeration example_world defaults)).
  reflexivity.
Defined.

(** C8.  The file of 0-based index [i], when its name can be printed and
    the calls of the image library succeed for it, gets the grid cell of
    column [i % cols] and row [i // cols], whose origin is [(col *
    sprite_width, row * sprite_height)] and whose size is the configured
    sprite size.  In the mapping that [create_atlas] returns, every entry
    was made for such a file of the sorted list, in the cell of its index;
    and, base names being distinct, every such file has its entry
    there. *)
Theorem cell_assignment (W : world) (self : ImageAtlasGenerator) :
  (forall cols i image_path s,
      cols <> 0 ->
      stdout_encodes W (basename image_path) = true ->
      library_calls_succeed W cols (sprite_width self) (sprite_height self)
                            i image_path = true ->
      exists s' pl,
        process_image W cols (sprite_width self) (sprite_height self)
                      i image_path s = (Ok tt, s') /\
        dict_get (basename image_path) (atlas_mapping s') = Some pl /\
        p_cell_x pl = i mod cols * sprite_width self /\
        p_cell_y pl = i / cols * sprite_height self /\
        p_cell_width pl = sprite_width self /\
        p_cell_height pl = sprite_height self) /\
  (forall s s' mapping,
      create_atlas W self s = (Ok mapping, s') ->
      exists image_files cols rows,
        get_image_files W self = Ok image_files /\
        fst (calculate_grid_size self (Z.of_nat (List.length image_files))
                                 initial) = Ok (cols, rows) /\
        cols <> 0 /\
        (forall k pl,
            In (k, pl) mapping ->
            exists i image_path,
              nth_error image_files i = Some image_path /\
              k = basename image_path /\
              library_calls_succeed W cols (sprite_width self)
                (sprite_height self) (Z.of_nat i) image_path = true /\
              p_cell_x pl = Z.of_nat i mod cols * sprite_width self /\
              p_cell_y pl = Z.of_nat i / cols * sprite_height self /\
              p_cell_width pl = sprite_width self /\
              p_cell_height pl = sprite_height self) /\
        (NoDup (map basename image_files) ->
         forall i image_path,
           nth_error image_files i = Some image_path ->
           library_calls_succeed W cols (sprite_width self)
             (sprite_height self) (Z.of_nat i) image_path = true ->
           exists pl,
             In (basename image_path, pl) mapping /\
             p_cell_x pl = Z.of_nat i mod cols * sprite_width self /\
             p_cell_y pl = Z.of_nat i / cols * sprite_height self /\
             p_cell_width pl = sprite_width self /\
             p_cell_height pl = sprite_height self)).
Proof.
  split.
  - intros cols i image_path s Hc Hp Hl.
    destruct (process_image_completes W cols _ _ i image_path s Hc Hp Hl)
      as [s' H].
    destruct (process_image_cell _ _ _ _ _ _ _ _ H)
      as (pl & Em & Hx & Hy & Hw & Hh).
    exists s', pl. split; [exact H | ].
    split; [rewrite Em; apply dict_get_set_same | ].
    repeat split; assumption.
  - intros s s' mapping H.
    destruct (create_atlas_ok W self s s' mapping H)
      as (image_files & cols & rows & s0 & Ef & _ & Eg & Em & _ & -> & Hret).
    pose proof (grid_has_columns _ _ _ _ Eg) as Hc.
    exists image_files, cols, rows.
    split; [exact Ef | ]. split; [exact Eg | ]. split; [exact Hc | ].
    assert (forall k pl,
               In (k, pl)
                  (atlas_mapping
                     (snd (for_each_image W cols (sprite_width self)
                             (sprite_height self) 0 image_files s0))) ->
               exists i image_path,
                 nth_error image_files i = Some image_path /\
                 k = basename image_path /\
                 library_calls_succeed W cols (sprite_width self)
                   (sprite_height self) (Z.of_nat i) image_path = true /\
                 in_cell_of cols (sprite_width self) (sprite_height self)
                            (Z.of_nat i) pl) as Hentries.
    { intros k pl Hin.
      destruct (loop_entries W cols (sprite_width self) (sprite_height self)
                  (fun i p pl =>
                     library_calls_succeed W cols (sprite_width self)
                       (sprite_height self) i p = true /\
                     in_cell_of cols (sprite_width self)
                                (sprite_height self) i pl))
        with (image_files := image_files) (i := 0) (s := s0) (k := k) (pl := pl)
        as [Hold | (j & p & Hj & Hk & Hl & Hcell)].
      - intros i p s1 s2 E.
        destruct (process_image_cell _ _ _ _ _ _ _ _ E) as (pl' & E1 & E2).
        exists pl'. split; [exact E1 | ].
        split; [exact (process_image_library _ _ _ _ _ _ _ _ E) | exact E2].
      - exact Hin.
      - rewrite Em in Hold. destruct Hold.
      - exists j, p. rewrite Z.add_0_l in Hl, Hcell. tauto. }
    split.
    + intros k pl Hin.
      destruct (Hentries k pl Hin) as (i & p & Hi & Hk & Hl & Hx & Hy & Hw & Hh).
      exists i, p. repeat split; assumption.
    + intros Hnd i p Hi Hp.
      pose proof (loop_keys W cols (sprite_width self) (sprite_height self)
                    image_files 0 s0 Hc Hnd) as Hkeys.
      rewrite Em in Hkeys. cbn [map app] in Hkeys.
      specialize (Hkeys (fun _ _ => eq_refl) Hret).
      assert (In (basename p)
                 (map fst (atlas_mapping
                             (snd (for_each_image W cols (sprite_width self)
                                     (sprite_height self) 0 image_files s0)))))
        as Hin.
      { rewrite Hkeys. apply (placed_names_In _ _ _ _ _ 0 i p Hi).
        now rewrite Z.add_0_l. }
      apply in_map_iff in Hin. destruct Hin as ([k pl] & Hk & Hin).
      cbn [fst] in Hk. subst k.
      destruct (Hentries _ _ Hin) as (j & q & Hj & Hq & _ & Hx & Hy & Hw & Hh).
      assert (i = j) as ->
        by (apply (NoDup_map_nth_error basename image_files i j p q); assumption).
      exists pl. repeat split; assumption.
Qed.

Lemma cell_assignment_witness :
  exists mapping s',
    create_atlas gap_world defaults initial = (Ok mapping, s') /\
    mapping = [("a.png"%string, mkPlacement 0 15 32 1 0 0 32 32 (128, 7));
               ("c.png"%string, mkPlacement 64 15 32 1 64 0 32 32 (128, 7))] /\
    exists pl,
      In ("c.png"%string, pl) mapping /\
      p_cell_x pl = 2 mod 6 * 32 /\
      p_cell_y pl = 2 / 6 * 32 /\
      p_cell_width pl = 32 /\
      p_cell_height pl = 32.
Proof.
  pose (run := create_atlas gap_world defaults initial).
  pose (mapping := match fst run with Ok m => m | Raise _ => [] end).
  assert (create_atlas gap_world defaults initial
          = (Ok mapping, snd run)) as H by (vm_compute; reflexivity).
  exists mapping, (snd run). split; [exact H | ].
  split; [vm_compute; reflexivity | ].
  destruct (proj2 (cell_assignment gap_world defaults) initial (snd run)
              mapping H)
    as (image_files & cols & rows & Ef & Eg & _ & _ & Hall).
  assert (image_files = ["in/a.png"; "in/bad.png"; "in/c.png"]%string) as ->.
  { assert (get_image_files gap_world defaults
            = Ok ["in/a.png"; "in/bad.png"; "in/c.png"]%string) as E
      by (vm_compute; reflexivity).
    congruence. }
  assert ((cols, rows) = (6, 1)) as E.
  { assert (fst (calculate_grid_size defaults 3 initial) = Ok (6, 1)) as E1
      by (vm_compute; reflexivity).
    cbn [List.length Z.of_nat Pos.of_succ_nat Pos.succ] in Eg. congruence. }
  injection E as -> ->.
  apply (Hall ltac:(repeat constructor; simpl; intuition discriminate)
           2%nat "in/c.png"%string eq_refl).
  vm_compute. reflexivity.
Defined.



(** C10.  The claim fails on the code when the name of a file cannot be
    printed (here a name with the byte 255, in a directory between
    [a.png] and [c.png], on a standard output that encodes UTF-8): the
    body raises at the print of the name; the handler catches that and
    raises in its turn, at its own print, which the [try] does not cover;
    the failure is not logged, the loop is left, the next file is never
    processed, no atlas is saved, and [main] exits with status 1. *)
Theorem unprintable_name_aborts_the_run :
  let image_path := ("in/" ++ unprintable_name)%string in
  get_image_files strict_world defaults
  = Ok ["in/a.png"; image_path; "in/c.png"]%string /\
  process_image strict_world 6 32 32 1 image_path initial
  = (Raise UnicodeEncodeError, initial) /\
  process_or_skip strict_world 6 32 32 1 image_path initial
  = (Raise UnicodeEncodeError, initial) /\
  (let loop := for_each_image strict_world 6 32 32 0
                 ["in/a.png"; image_path; "in/c.png"]%string initial in
   fst loop = Raise UnicodeEncodeError /\
   stdout (snd loop) = [Processing "a.png"] /\
   map fst (atlas_mapping (snd loop)) = ["a.png"]%string) /\
  (let run := create_atlas strict_world defaults initial in
   fst run = Raise UnicodeEncodeError /\ files (snd run) = []) /\
  (let exit := main strict_world (example_arguments 32) initial in
   fst exit = 1 /\ files (snd exit) = [] /\
   stdout (snd exit)
   = [Found 3; Cols 6; GridLayout 6 1; CellSize 32 32; Processing "a.png";
      ErrorLine UnicodeEncodeError]).
Proof. cbv zeta. repeat split; vm_compute; reflexivity. Qed.

(** * Further properties *)

(** X1.  When the sprites are no wider than the atlas, the planner has at
    least one column and returns: for every count of images from 1 up,
    [calculate_grid_size] returns some [(cols, rows)] with [cols >= 1]. *)
Theorem columns_positive_when_sprite_fits
    (self : ImageAtlasGenerator) (num_images : Z) (s : state) :
  1 <= sprite_width self <= atlas_width self ->
  atlas_width self <= max_dimension ->
  1 <= num_images <= max_dimension ->
  exists cols rows,
    fst (calculate_grid_size self num_images s) = Ok (cols, rows) /\
    grid_columns self num_images = Ok cols /\
    1 <= cols.
Proof.
  unfold max_dimension. intros Hsw Haw Hn.
  assert (inject_Z (2 ^ 50) == 1125899906842624)%Q as HB by reflexivity.
  assert (1 <= inject_Z (sprite_width self))%Q as Hs1.
  { change 1%Q with (inject_Z 1). rewrite <- Zle_Qle. lia. }
  assert (inject_Z (sprite_width self) <= inject_Z (atlas_width self))%Q as Hs2
    by (rewrite <- Zle_Qle; lia).
  assert (inject_Z (atlas_width self) <= inject_Z (2 ^ 50))%Q as Ha
    by (rewrite <- Zle_Qle; lia).
  assert (1 <= inject_Z num_images)%Q as Hn1.
  { change 1%Q with (inject_Z 1). rewrite <- Zle_Qle. lia. }
  assert (inject_Z num_images <= inject_Z (2 ^ 50))%Q as Hn2
    by (rewrite <- Zle_Qle; lia).
  destruct Float64Facts.eta_small as [He0 He1].
  (* the ratio *)
  assert (1 <= inject_Z (atlas_width self) / inject_Z (sprite_width self))%Q as Hr1.
  { apply Qle_shift_div_l; lra. }
  assert (inject_Z (atlas_width self) / inject_Z (sprite_width self)
          <= inject_Z (atlas_width self))%Q as Hr2.
  { apply Qle_shift_div_r; [lra | ]. nra. }
  destruct (Float64Facts.round_ge_one _ Hr1) as (ratio & Er & Hq1 & Hq2).
  { assert (inject_Z (2 ^ 50) <= 2 ^ 1000)%Q by now apply Qle_bool_iff. lra. }
  rewrite Float64Facts.u_value in Hq2.
  (* the count as a float, and the product *)
  destruct (Float64Facts.round_integer (inject_Z num_images) num_images
              (Qeq_refl _) ltac:(lia)) as (nf & En & Hnf).
  assert (1 <= ratio * nf)%Q as Hp1 by (rewrite Hnf; nra).
  assert (ratio * nf <= 2251799813685248 * 1125899906842624)%Q as Hp2.
  { rewrite Hnf. apply Qmult_le_compat_nonneg; split; lra. }
  destruct (Float64Facts.round_ge_one _ Hp1) as (product & Ep & Hx1 & _).
  { assert (2251799813685248 * 1125899906842624 <= 2 ^ 1000)%Q
      by now apply Qle_bool_iff.
    lra. }
  (* its square root and the floor *)
  pose proof (Float64Facts.sqrt_mag_ge_one product Hx1) as Hroot.
  assert (Float64.sqrt (Float64.Fin product)
          = Ok (Float64.Fin (Float64.sqrt_mag product))) as Esqrt.
  { unfold Float64.sqrt. destruct product as [n d].
    destruct n as [ | p | p]; [ | reflexivity | ];
      exfalso; unfold Qle in Hx1; simpl in Hx1; lia. }
  set (cols := Qfloor (Float64.sqrt_mag product)).
  assert (1 <= cols) as Hcols.
  { unfold cols. rewrite <- (Qfloor_Z 1). now apply Qfloor_resp_le. }
  assert (grid_columns self num_images = Ok cols) as Ecols.
  { unfold grid_columns, Float64.truediv, Float64.mul_int, Float64.of_int,
      Float64.mul.
    assert ((sprite_width self =? 0) = false) as -> by (apply Z.eqb_neq; lia).
    rewrite Er. cbn [rbind]. rewrite En. cbn [rbind]. rewrite Ep.
    cbn [rbind]. rewrite Esqrt. reflexivity. }
  (* the rows *)
  assert (exists q, Float64.truediv num_images cols = Ok q) as (q & Eq).
  { unfold Float64.truediv.
    assert ((cols =? 0) = false) as -> by (apply Z.eqb_neq; lia).
    assert (1 <= inject_Z cols)%Q as Hc.
    { change 1%Q with (inject_Z 1). rewrite <- Zle_Qle. lia. }
    assert (0 <= inject_Z num_images / inject_Z cols)%Q as Hd0.
    { apply Qle_shift_div_l; lra. }
    assert (inject_Z num_images / inject_Z cols <= inject_Z num_images)%Q as Hd1.
    { apply Qle_shift_div_r; [lra | ]. nra. }
    destruct (Float64Facts.round_nonneg _ Hd0) as (q & -> & _).
    { assert (inject_Z (2 ^ 50) <= 2 ^ 1000)%Q by now apply Qle_bool_iff. lra. }
    now exists q. }
  exists cols, (Qceiling q).
  split; [ | split; [exact Ecols | exact Hcols]].
  rewrite calculate_grid_size_state. cbn [fst].
  rewrite calculate_grid_size_result by lia.
  rewrite Ecols. cbn [rbind]. rewrite Eq. reflexivity.
Qed.

Lemma columns_positive_when_sprite_fits_witness :
  exists cols rows,
    fst (calculate_grid_size defaults 4 initial) = Ok (cols, rows) /\
    grid_columns defaults 4 = Ok cols /\
    1 <= cols.
Proof.
  apply (columns_positive_when_sprite_fits defaults 4 initial);
    unfold max_dimension; simpl; lia.
Defined.

(** ** The grid *)

(** X2.  When the atlas is a whole number [r] of sprites wide, the float
    arithmetic of [calculate_grid_size] does not show: it prints and
    returns the integer square root of [r * num_images] as the number of
    columns, and the least number of rows of that many cells that hold all
    the images. *)
Theorem grid_is_integer_square_root
    (self : ImageAtlasGenerator) (r num_images : Z) (s : state) :
  1 <= sprite_width self -> 1 <= r ->
  atlas_width self = r * sprite_width self ->
  1 <= num_images -> r * num_images < 2 ^ 52 ->
  exists cols rows,
    calculate_grid_size self num_images s
    = (Ok (cols, rows),
       mkState (stdout s ++ [Cols cols]) (atlas s) (atlas_mapping s) (files s)) /\
    1 <= cols /\
    cols * cols <= r * num_images < (cols + 1) * (cols + 1) /\
    (rows - 1) * cols < num_images <= rows * cols.
Proof.
  intros Hsw Hr Haw Hn Hrn.
  destruct (grid_exact self r num_images s Hsw Hr Haw Hn Hrn) as [Hc E].
  exists (Z.sqrt (r * num_images)),
         (Spec.rows num_images (Z.sqrt (r * num_images))).
  split; [exact E | ]. split; [lia | ].
  pose proof (Z.sqrt_spec (r * num_images) ltac:(nia)) as Hs.
  cbv zeta in Hs. unfold Z.succ in Hs.
  split; [exact Hs | ].
  set (cols := Z.sqrt (r * num_images)) in *.
  unfold Spec.rows.
  pose proof (Z.mul_div_le (num_images + cols - 1) cols ltac:(lia)).
  pose proof (Z.mul_succ_div_gt (num_images + cols - 1) cols ltac:(lia)).
  lia.
Qed.

Lemma grid_is_integer_square_root_witness :
  exists cols rows,
    calculate_grid_size defaults 19 initial
    = (Ok (cols, rows),
       mkState (stdout initial ++ [Cols cols]) (atlas initial)
               (atlas_mapping initial) (files initial)) /\
    1 <= cols /\
    cols * cols <= 16 * 19 < (cols + 1) * (cols + 1) /\
    (rows - 1) * cols < 19 <= rows * cols.
Proof.
  apply (grid_is_integer_square_root defaults 16 19 initial);
    simpl; try reflexivity; lia.
Defined.

(** X3.  The grid is planned without regard to the width of the atlas:
    with an atlas [r] sprites wide, the columns reach beyond its right
    edge exactly when [(r + 1)^2 <= r * num_images], and then the image of
    index [r] is given the cell that starts at the right edge. *)
Theorem grid_wider_than_atlas
    (self : ImageAtlasGenerator) (r num_images : Z) (s : state) :
  1 <= sprite_width self -> 1 <= r ->
  atlas_width self = r * sprite_width self ->
  1 <= num_images -> r * num_images < 2 ^ 52 ->
  exists cols rows,
    fst (calculate_grid_size self num_images s) = Ok (cols, rows) /\
    (atlas_width self < cols * sprite_width self
     <-> (r + 1) * (r + 1) <= r * num_images) /\
    ((r + 1) * (r + 1) <= r * num_images ->
     r < num_images /\
     r mod cols * sprite_width self = atlas_width self).
Proof.
  intros Hsw Hr Haw Hn Hrn.
  destruct (grid_exact self r num_images s Hsw Hr Haw Hn Hrn) as [Hc E].
  exists (Z.sqrt (r * num_images)),
         (Spec.rows num_images (Z.sqrt (r * num_images))).
  rewrite E. split; [reflexivity | ].
  pose proof (Z.sqrt_spec (r * num_images) ltac:(nia)) as Hs.
  cbv zeta in Hs. unfold Z.succ in Hs.
  set (cols := Z.sqrt (r * num_images)) in *.
  assert (r < cols <-> (r + 1) * (r + 1) <= r * num_images) as Hiff.
  { split; intros H; nia. }
  split.
  - rewrite Haw, <- Hiff. split; intros H; nia.
  - intros H. split; [nia | ].
    rewrite Z.mod_small by (apply Hiff in H; lia). now rewrite Haw.
Qed.

Lemma grid_wider_than_atlas_witness :
  exists cols rows,
    fst (calculate_grid_size defaults 19 initial) = Ok (cols, rows) /\
    (atlas_width defaults < cols * sprite_width defaults
     <-> (16 + 1) * (16 + 1) <= 16 * 19) /\
    ((16 + 1) * (16 + 1) <= 16 * 19 ->
     16 < 19 /\
     16 mod cols * sprite_width defaults = atlas_width defaults).
Proof.
  apply (grid_wider_than_atlas defaults 16 19 initial);
    simpl; try reflexivity; lia.
Defined.

(** X4.  Images that fit side by side in the atlas are laid out in one
    row: with at most [r] images for an atlas [r] sprites wide, the grid
    has one row of at least [num_images] and at most [r] columns, so that
    every image gets the cell of its own index in that row, inside the
    width of the atlas. *)
Theorem one_row_when_the_images_fit
    (self : ImageAtlasGenerator) (r num_images : Z) (s : state) :
  1 <= sprite_width self -> 1 <= r ->
  atlas_width self = r * sprite_width self ->
  1 <= num_images <= r -> r * num_images < 2 ^ 52 ->
  exists cols,
    fst (calculate_grid_size self num_images s) = Ok (cols, 1) /\
    num_images <= cols <= r /\
    forall i, 0 <= i < num_images ->
              i mod cols = i /\ i / cols = 0 /\
              i mod cols * sprite_width self + sprite_width self
              <= atlas_width self.
Proof.
  intros Hsw Hr Haw Hn Hrn.
  destruct (grid_exact self r num_images s Hsw Hr Haw ltac:(lia) Hrn)
    as [Hc E].
  pose proof (Z.sqrt_spec (r * num_images) ltac:(nia)) as Hs.
  cbv zeta in Hs. unfold Z.succ in Hs.
  set (cols := Z.sqrt (r * num_images)) in *.
  assert (num_images <= cols <= r) as Hcols by nia.
  assert (Spec.rows num_images cols = 1) as Hrows.
  { unfold Spec.rows. symmetry. apply (Z.div_unique _ _ 1 (num_images - 1)); lia. }
  exists cols. rewrite E, Hrows. split; [reflexivity | ].
  split; [exact Hcols | ].
  intros i Hi.
  rewrite Z.mod_small, Z.div_small by lia.
  repeat split. rewrite Haw. nia.
Qed.

Lemma one_row_when_the_images_fit_witness :
  exists cols,
    fst (calculate_grid_size defaults 4 initial) = Ok (cols, 1) /\
    4 <= cols <= 16 /\
    forall i, 0 <= i < 4 ->
              i mod cols = i /\ i / cols = 0 /\
              i mod cols * sprite_width defaults + sprite_width defaults
              <= atlas_width defaults.
Proof.
  apply (one_row_when_the_images_fit defaults 16 4 initial);
    simpl; try reflexivity; lia.
Defined.

(** ** The scaled size *)

(** X5.  The scaled image fills its cell in the direction that limits
    the scale, up to one pixel: the new width is the cell width or one
    less, or the new height is the cell height or one less; a 49x49
    image in a 32x32 cell comes out 31x31. *)
Theorem scaled_size_fills_the_cell
    (img : image) (cell_width cell_height : Z) :
  dimension cell_width -> dimension cell_height ->
  dimension (width img) -> dimension (height img) ->
  (exists nw nh,
      new_size img cell_width cell_height = Ok (nw, nh) /\
      nw <= cell_width /\ nh <= cell_height /\
      (cell_width - 1 <= nw \/ cell_height - 1 <= nh)) /\
  new_size (mkImage "in/a.png" 49 49 "RGBA") 32 32 = Ok (31, 31).
Proof.
  intros Hcw Hch Hw Hh. split; [ | vm_compute; reflexivity].
  destruct (new_size_fills img cell_width cell_height Hcw Hch Hw Hh)
    as (nw & nh & E & Hfill).
  destruct (new_size_fits img cell_width cell_height Hcw Hch Hw Hh)
    as (nw' & nh' & E' & Hnw & Hnh).
  rewrite E in E'. injection E' as <- <-.
  exists nw, nh. split; [exact E | ].
  split; [lia | ]. split; [lia | exact Hfill].
Qed.

Lemma scaled_size_fills_the_cell_witness :
  (exists nw nh,
      new_size (mkImage "in/a.png" 128 7 "RGBA") 32 32 = Ok (nw, nh) /\
      nw <= 32 /\ nh <= 32 /\
      (32 - 1 <= nw \/ 32 - 1 <= nh)) /\
  new_size (mkImage "in/a.png" 49 49 "RGBA") 32 32 = Ok (31, 31).
Proof.
  apply (scaled_size_fills_the_cell (mkImage "in/a.png" 128 7 "RGBA") 32 32);
    by_evaluation.
Defined.

(** X6.  No image is made smaller than it has to be: an image that fits
    its cell is not shrunk (it is enlarged as far as the cell allows), so
    that an image of the size of the cell keeps its size. *)
Theorem small_image_is_not_shrunk
    (img : image) (cell_width cell_height : Z) :
  dimension cell_width -> dimension cell_height ->
  dimension (width img) -> dimension (height img) ->
  width img <= cell_width -> height img <= cell_height ->
  exists nw nh,
    new_size img cell_width cell_height = Ok (nw, nh) /\
    width img <= nw <= cell_width /\ height img <= nh <= cell_height.
Proof.
  intros Hcw Hch Hw Hh Hwc Hhc.
  destruct (new_size_grows img cell_width cell_height Hcw Hch Hw Hh Hwc Hhc)
    as (nw & nh & E & Hgw & Hgh).
  destruct (new_size_fits img cell_width cell_height Hcw Hch Hw Hh)
    as (nw' & nh' & E' & Hnw & Hnh).
  rewrite E in E'. injection E' as <- <-.
  exists nw, nh. split; [exact E | lia].
Qed.

Lemma small_image_is_not_shrunk_witness :
  exists nw nh,
    new_size (mkImage "in/a.png" 32 32 "RGBA") 32 32 = Ok (nw, nh) /\
    32 <= nw <= 32 /\ 32 <= nh <= 32.
Proof.
  apply (small_image_is_not_shrunk (mkImage "in/a.png" 32 32 "RGBA") 32 32);
    try by_evaluation; cbn [width height]; lia.
Defined.

(** X7.  The aspect ratio is kept up to the truncation of each
    dimension: for dimensions up to [2^25], the new size [(nw, nh)] of a
    [w x h] image satisfies [-h <= nw * h - nh * w <= w]. *)
Theorem aspect_ratio_is_kept
    (img : image) (cell_width cell_height : Z) :
  1 <= cell_width <= 2 ^ 25 -> 1 <= cell_height <= 2 ^ 25 ->
  1 <= width img <= 2 ^ 25 -> 1 <= height img <= 2 ^ 25 ->
  exists nw nh,
    new_size img cell_width cell_height = Ok (nw, nh) /\
    - height img <= nw * height img - nh * width img <= width img.
Proof.
  intros Hcw Hch Hw Hh.
  destruct (new_size_aspect img cell_width cell_height Hcw Hch Hw Hh)
    as (nw & nh & E & H1 & H2).
  exists nw, nh. split; [exact E | lia].
Qed.

Lemma aspect_ratio_is_kept_witness :
  exists nw nh,
    new_size (mkImage "in/a.png" 640 480 "RGBA") 32 32 = Ok (nw, nh) /\
    - 480 <= nw * 480 - nh * 640 <= 640.
Proof.
  apply (aspect_ratio_is_kept (mkImage "in/a.png" 640 480 "RGBA") 32 32);
    simpl; lia.
Defined.

(** ** The enumeration *)

(** X8.  The order in which the directory is listed does not show: two
    listings of the same entries give the same list of image files. *)
Theorem enumeration_ignores_listing_order
    (W W' : world) (self : ImageAtlasGenerator) (entries entries' : list string) :
  lookup W (input_dir self) = Directory entries ->
  lookup W' (input_dir self) = Directory entries' ->
  Permutation entries entries' ->
  get_image_files W self = get_image_files W' self.
Proof.
  intros H H' HP. unfold get_image_files. rewrite H, H'.
  f_equal. now apply collect_permutation.
Qed.

Lemma enumeration_ignores_listing_order_witness :
  get_image_files example_world defaults
  = get_image_files
      (mkWorld (fun _ => Directory (rev example_entries))
               (pil_open example_world) (pil_convert_raises example_world)
               (pil_resize_raises example_world) (pil_new_raises example_world)
               (pil_paste_raises example_world) (pil_save_raises example_world)
               (open_raises example_world) (stdout_encodes example_world)
               (file_encodes example_world) (pil_save_damages example_world))
      defaults.
Proof.
  apply (enumeration_ignores_listing_order _ _ defaults example_entries
           (rev example_entries)).
  - reflexivity.
  - reflexivity.
  - apply Permutation_rev.
Defined.

(** X9.  Which entries of the directory are taken as images, in terms of
    their names alone: a file is enumerated exactly when its name is a
    root followed by one of the supported extensions, in any case of
    letters, the last component of the root having a character other than
    a dot (so that a file named [.png] is not an image). *)
Theorem enumerated_files_by_name
    (W : world) (self : ImageAtlasGenerator) (entries : list string) :
  lookup W (input_dir self) = Directory entries ->
  exists image_files,
    get_image_files W self = Ok image_files /\
    forall image_path,
      In image_path image_files <->
      exists root ext,
        In (root ++ ext)%string entries /\
        image_path = join (input_dir self) (root ++ ext) /\
        in_set (lower ext) supported_formats = true /\
        has_non_dot (basename root) = true.
Proof.
  intros H. unfold get_image_files. rewrite H.
  eexists. split; [reflexivity | ].
  intros p. split.
  - intros Hp.
    apply (Permutation_in _ (Permutation_sym (sorted_perm _))) in Hp.
    rewrite collect_image_files_spec in Hp.
    apply in_map_iff in Hp. destruct Hp as (entry & <- & He).
    apply filter_In in He. destruct He as [He Hs].
    rewrite <- supported_formats_spec in Hs.
    apply supported_iff in Hs. destruct Hs as (root & ext & -> & Hext & Hroot).
    exists root, ext. repeat split; assumption.
  - intros (root & ext & He & -> & Hext & Hroot).
    apply (Permutation_in _ (sorted_perm _)).
    rewrite collect_image_files_spec.
    apply in_map, filter_In. split; [exact He | ].
    rewrite <- supported_formats_spec. apply supported_iff.
    exists root, ext. repeat split; assumption.
Qed.

Lemma enumerated_files_by_name_witness :
  exists image_files,
    get_image_files example_world defaults = Ok image_files /\
    forall image_path,
      In image_path image_files <->
      exists root ext,
        In (root ++ ext)%string example_entries /\
        image_path = join (input_dir defaults) (root ++ ext) /\
        in_set (lower ext) supported_formats = true /\
        has_non_dot (basename root) = true.
Proof.
  apply (enumerated_files_by_name example_world defaults example_entries).
  reflexivity.
Defined.

(** ** The atlas and the mapping *)


Lemma example_run_writes_the_atlas :
  files (snd (create_atlas example_world defaults initial))
  = [("out/sprites-atlus.png"%string,
      Png 512 512
          [mkPaste (mkImage "in/a.jpg" 32 1 "RGBA") 0 15;
           mkPaste (mkImage "in/b.PNG" 32 1 "RGBA") 32 15])].
Proof. vm_compute. reflexivity. Qed.

(** X11.  The mapping describes the canvas: when the entries of the
    directory are distinct file names, the rectangles recorded in the
    mapping that [create_atlas] returns are, one for one and in order, the
    rectangles of the images pasted on the atlas it has written. *)
Theorem mapping_describes_the_atlas
    (W : world) (self : ImageAtlasGenerator) (s s' : state)
    (entries : list string) (mapping : dict) :
  lookup W (input_dir self) = Directory entries ->
  NoDup entries ->
  Forall (fun entry => rfind sep entry = -1) entries ->
  create_atlas W self s = (Ok mapping, s') ->
  exists pastes,
    files s' = files s ++ [(atlas_path self,
                            Png (atlas_width self) (atlas_height self) pastes)] /\
    map pasted_rectangle pastes = map recorded_rectangle mapping.
Proof.
  intros Hdir Hnd Hsep H.
  pose proof (create_atlas_run W self s) as R.
  assert (get_image_files W self
          = Ok (sorted (collect_image_files self entries))) as Ef
    by (unfold get_image_files; now rewrite Hdir).
  rewrite Ef in R.
  destruct (sorted (collect_image_files self entries)) as [ | p rest] eqn:El;
    [rewrite R in H; discriminate | ].
  cbv zeta in R.
  destruct (fst (calculate_grid_size self _ initial)) as [[cols rows] | e];
    [ | rewrite R in H; discriminate].
  destruct (pil_new_raises W _ _) as [e | ]; [rewrite R in H; discriminate | ].
  destruct (fst (for_each_image W cols _ _ 0 (p :: rest) _)) as [[] | e];
    [ | rewrite R in H; discriminate].
  destruct (pil_save_raises W _) as [e | ]; [rewrite R in H; discriminate | ].
  set (s3 := snd (for_each_image _ _ _ _ _ _ _)) in R.
  rewrite R in H.
  assert (mapping = atlas_mapping s3) as -> by congruence.
  assert (files s' = files s ++ [(atlas_path self,
                                  Png (atlas_width self) (atlas_height self)
                                      (atlas s3))]) as Hf.
  { apply (f_equal snd) in H. cbn [snd] in H. now rewrite <- H. }
  exists (atlas s3). split; [exact Hf | ].
  apply (loop_rectangles W).
  - rewrite <- El. now apply enumerated_basenames_distinct.
  - reflexivity.
  - reflexivity.
Qed.

Lemma mapping_describes_the_atlas_witness :
  exists pastes,
    files (snd (create_atlas example_world defaults initial))
    = files initial ++ [(atlas_path defaults,
                         Png (atlas_width defaults) (atlas_height defaults)
                             pastes)] /\
    map pasted_rectangle pastes
    = map recorded_rectangle
          (match fst (create_atlas example_world defaults initial) with
           | Ok mapping => mapping
           | Raise _ => []
           end).
Proof.
  apply (mapping_describes_the_atlas example_world defaults initial _
           example_entries).
  - reflexivity.
  - repeat constructor; simpl; intuition discriminate.
  - repeat constructor.
  - vm_compute. reflexivity.
Defined.

(** X12.  The mapping lists the images by name, in lexicographic order
    and without repetition, whatever the order of the directory listing:
    the keys of the mapping that [create_atlas] returns are strictly
    increasing. *)
Theorem mapping_keys_in_order
    (W : world) (self : ImageAtlasGenerator) (s s' : state)
    (entries : list string) (mapping : dict) :
  lookup W (input_dir self) = Directory entries ->
  NoDup entries ->
  Forall (fun entry => rfind sep entry = -1) entries ->
  create_atlas W self s = (Ok mapping, s') ->
  StronglySorted lex_le (map fst mapping) /\ NoDup (map fst mapping).
Proof.
  intros Hdir Hnd Hsep H.
  destruct (create_atlas_keys W self s s' entries mapping Hdir Hnd Hsep H)
    as (cols & rows & _ & _ & _ & ->).
  pose proof (enumerated_basenames_distinct self entries Hnd Hsep) as Hd.
  pose proof (enumerated_basenames_sorted self entries Hsep) as Hs.
  split; [now apply placed_names_sorted | now apply placed_names_distinct].
Qed.

Lemma mapping_keys_in_order_witness :
  let mapping := match fst (create_atlas example_world defaults initial) with
                 | Ok mapping => mapping
                 | Raise _ => []
                 end in
  StronglySorted lex_le (map fst mapping) /\ NoDup (map fst mapping).
Proof.
  apply (mapping_keys_in_order example_world defaults initial
           (snd (create_atlas example_world defaults initial))
           example_entries).
  - reflexivity.
  - repeat constructor; simpl; intuition discriminate.
  - repeat constructor.
  - vm_compute. reflexivity.
Defined.

(** X13.  No two images overlap in the atlas: when the sprite size and
    the sizes of the decoded images are ordinary dimensions, two entries
    of the mapping with different names have disjoint cells, and so
    disjoint rectangles. *)
Theorem images_do_not_overlap
    (W : world) (self : ImageAtlasGenerator) (s s' : state) (mapping : dict)
    (k k' : string) (pl pl' : placement) :
  dimension (sprite_width self) -> dimension (sprite_height self) ->
  (forall p o, pil_open W p = Ok o ->
               dimension (width o) /\ dimension (height o)) ->
  create_atlas W self s = (Ok mapping, s') ->
  In (k, pl) mapping -> In (k', pl') mapping -> k <> k' ->
  disjoint (cell_rectangle pl) (cell_rectangle pl') /\
  disjoint (recorded_rectangle (k, pl)) (recorded_rectangle (k', pl')).
Proof.
  intros Hsw Hsh Hdim H Hin Hin' Hne.
  destruct (create_atlas_ok W self s s' mapping H)
    as (image_files & cols & rows & s0 & _ & _ & _ & Em & _ & -> & _).
  assert (forall k pl,
             In (k, pl)
                (atlas_mapping
                   (snd (for_each_image W cols (sprite_width self)
                           (sprite_height self) 0 image_files s0))) ->
             exists i image_path,
               nth_error image_files i = Some image_path /\
               k = basename image_path /\
               cols <> 0 /\
               in_cell_of cols (sprite_width self) (sprite_height self)
                          (Z.of_nat i) pl /\
               inside_cell pl) as Hentries.
  { intros k0 pl0 Hin0.
    assert (forall i image_path s1 s2,
               process_image W cols (sprite_width self) (sprite_height self)
                             i image_path s1 = (Ok tt, s2) ->
               exists pl,
                 atlas_mapping s2
                 = dict_set (basename image_path) pl (atlas_mapping s1) /\
                 (cols <> 0 /\
                  in_cell_of cols (sprite_width self) (sprite_height self) i pl
                  /\ inside_cell pl)) as Hbody.
    { intros i p s1 s2 E.
      destruct (process_image_rectangle W cols _ _ i p s1 s2 Hsw Hsh Hdim E)
        as (pl1 & E1 & E2 & E3).
      destruct (process_image_ok _ _ _ _ _ _ _ _ E) as (_ & _ & _ & Hc & _).
      exists pl1. split; [exact E1 | ]. split; [exact Hc | ].
      split; [exact E2 | exact E3]. }
    destruct (loop_entries W cols (sprite_width self) (sprite_height self)
                _ Hbody image_files 0 s0 k0 pl0 Hin0)
      as [Hold | (j & p & Hj & Hk & Hc & Hcell & Hins)].
    - rewrite Em in Hold. destruct Hold.
    - exists j, p. rewrite Z.add_0_l in Hcell.
      split; [exact Hj | ]. split; [exact Hk | ]. split; [exact Hc | ].
      split; [exact Hcell | exact Hins]. }
  destruct (Hentries _ _ Hin) as (i & p & Hi & -> & Hc & Hcell & Hins).
  destruct (Hentries _ _ Hin') as (j & q & Hj & -> & _ & Hcell' & Hins').
  assert (Z.of_nat i <> Z.of_nat j) as Hij.
  { intros E. apply Nat2Z.inj in E. subst j. congruence. }
  unfold dimension in Hsw, Hsh.
  pose proof (cells_disjoint cols (sprite_width self) (sprite_height self)
                _ _ pl pl' Hc ltac:(lia) ltac:(lia) Hij Hcell Hcell') as Hd.
  split; [exact Hd | now apply disjoint_inside].
Qed.

Lemma images_do_not_overlap_witness :
  disjoint (cell_rectangle (mkPlacement 0 15 32 1 0 0 32 32 (128, 7)))
           (cell_rectangle (mkPlacement 32 15 32 1 32 0 32 32 (128, 7))) /\
  disjoint (recorded_rectangle
              ("a.jpg"%string, mkPlacement 0 15 32 1 0 0 32 32 (128, 7)))
           (recorded_rectangle
              ("b.PNG"%string, mkPlacement 32 15 32 1 32 0 32 32 (128, 7))).
Proof.
  apply (images_do_not_overlap example_world defaults initial
           (snd (create_atlas example_world defaults initial))
           [("a.jpg"%string, mkPlacement 0 15 32 1 0 0 32 32 (128, 7));
            ("b.PNG"%string, mkPlacement 32 15 32 1 32 0 32 32 (128, 7))]).
  - by_evaluation.
  - by_evaluation.
  - intros p o Ho. cbn [example_world pil_open] in Ho.
    destruct (String.eqb p "in/bad.png"); [discriminate | ].
    destruct (String.eqb p "in/d.png"); injection Ho as <-;
      split; by_evaluation.
  - vm_compute. reflexivity.
  - left. reflexivity.
  - right. left. reflexivity.
  - vm_compute. discriminate.
Defined.

(** ** Sprites wider than the atlas allows *)

(** X14.  When all the images side by side would still be narrower than
    one sprite ([num_images * atlas_width < sprite_width]), the planner
    computes no column and divides by zero: [create_atlas] raises
    [ZeroDivisionError] before the canvas is made, and [main] prints the
    error and exits with status 1, having written no file. *)
Theorem too_wide_sprites_divide_by_zero
    (W : world) (args : arguments) (s : state) (image_files : list string) :
  let self := generator_of args in
  let num_images := Z.of_nat (List.length image_files) in
  get_image_files W self = Ok image_files ->
  1 <= atlas_width self -> 1 <= num_images ->
  num_images * atlas_width self < sprite_width self ->
  sprite_width self <= max_dimension ->
  fst (calculate_grid_size self num_images s) = Raise ZeroDivisionError /\
  fst (create_atlas W self s) = Raise ZeroDivisionError /\
  fst (main W args s) = 1 /\
  files (snd (main W args s)) = files s /\
  exists out, stdout (snd (main W args s))
              = out ++ [Cols 0; ErrorLine ZeroDivisionError].
Proof.
  intros self num_images Ef Haw Hn Hlt Hsw.
  pose proof (columns_zero self num_images Haw Hn Hlt Hsw) as Ec.
  assert (forall s0, fst (calculate_grid_size self num_images s0)
                     = Raise ZeroDivisionError) as Eg.
  { intros s0. apply calculate_grid_size_zero_columns; [lia | exact Ec]. }
  assert (stdout (snd (calculate_grid_size self num_images initial))
          = [Cols 0]) as Eo.
  { unfold calculate_grid_size.
    assert ((num_images =? 0) = false) as -> by (apply Z.eqb_neq; lia).
    unfold grid_columns in Ec.
    destruct (Float64.truediv (atlas_width self) (sprite_width self))
      as [ratio | e]; [ | discriminate].
    cbn [rbind] in Ec. run_monad.
    destruct (Float64.mul_int ratio num_images) as [product | e];
      [ | discriminate].
    cbn [rbind] in Ec. run_monad.
    destruct (Float64.sqrt product) as [root | e]; [ | discriminate].
    cbn [rbind] in Ec. run_monad. rewrite Ec. run_monad.
    reflexivity. }
  split; [apply Eg | ].
  pose proof (create_atlas_run W self s) as R.
  rewrite Ef in R.
  destruct image_files as [ | p rest]; [cbn in Hn; lia | ].
  cbv zeta in R. fold num_images in R. rewrite Eg, Eo in R.
  split; [now rewrite R | ].
  unfold main. fold self. run_monad. rewrite R.
  cbn [fst snd files stdout].
  split; [reflexivity | ]. split; [reflexivity | ].
  exists (stdout s ++ [Found num_images]).
  now rewrite <- !app_assoc.
Qed.

Lemma too_wide_sprites_divide_by_zero_witness :
  let args := example_arguments 4096 in
  fst (calculate_grid_size (generator_of args) 4 initial)
  = Raise ZeroDivisionError /\
  fst (create_atlas example_world (generator_of args) initial)
  = Raise ZeroDivisionError /\
  fst (main example_world args initial) = 1 /\
  files (snd (main example_world args initial)) = files initial /\
  exists out, stdout (snd (main example_world args initial))
              = out ++ [Cols 0; ErrorLine ZeroDivisionError].
Proof.
  apply (too_wide_sprites_divide_by_zero example_world (example_arguments 4096)
           initial ["in/a.jpg"; "in/b.PNG"; "in/bad.png"; "in/d.png"]%string).
  - vm_compute. reflexivity.
  - simpl. lia.
  - simpl. lia.
  - simpl. lia.
  - unfold max_dimension. simpl. lia.
Defined.

(** ** [main] *)


Lemma example_run_of_main :
  main example_world (example_arguments 32) initial
  = (0,
     mkState
       [Found 4; Cols 8; GridLayout 8 1; CellSize 32 32;
        Processing "a.jpg"; Processing "b.PNG"; Processing "bad.png";
        ErrorProcessing "in/bad.png" UnidentifiedImageError;
        Processing "d.png"; ErrorProcessing "in/d.png" ValueError;
        AtlasSaved "out"; MappingSaved "out_mapping.txt"; Complete;
        AtlasLine "out"; Processed 2]
       [mkPaste (mkImage "in/a.jpg" 32 1 "RGBA") 0 15;
        mkPaste (mkImage "in/b.PNG" 32 1 "RGBA") 32 15]
       [("a.jpg"%string, mkPlacement 0 15 32 1 0 0 32 32 (128, 7));
        ("b.PNG"%string, mkPlacement 32 15 32 1 32 0 32 32 (128, 7))]
       [("out/sprites-atlus.png"%string,
         Png 512 512
             [mkPaste (mkImage "in/a.jpg" 32 1 "RGBA") 0 15;
              mkPaste (mkImage "in/b.PNG" 32 1 "RGBA") 32 15]);
        ("out_mapping.txt"%string,
         MappingText 512 512
           [("a.jpg"%string, mkPlacement 0 15 32 1 0 0 32 32 (128, 7));
            ("b.PNG"%string, mkPlacement 32 15 32 1 32 0 32 32 (128, 7))])]).
Proof. vm_compute. reflexivity. Qed.



(** ** The mapping file *)



(** ** Where the entries come from *)

(** X18.  Where the entries and the pasted images come from: every entry
    of the mapping that [create_atlas] returns is named after one of the
    enumerated files, records the size that file decoded to as its
    original size, and has the size [resize_image_to_fit] computes from
    it; and every image on the canvas has been converted to RGBA. *)
Theorem entries_record_their_source
    (W : world) (self : ImageAtlasGenerator) (s s' : state) (mapping : dict) :
  create_atlas W self s = (Ok mapping, s') ->
  exists image_files,
    get_image_files W self = Ok image_files /\
    (forall k pl,
        In (k, pl) mapping ->
        exists image_path opened,
          In image_path image_files /\
          k = basename image_path /\
          pil_open W image_path = Ok opened /\
          p_original_size pl = (width opened, height opened) /\
          new_size (normalized opened) (sprite_width self) (sprite_height self)
          = Ok (p_width pl, p_height pl)) /\
    Forall (fun pa => mode (pasted pa) = "RGBA"%string) (atlas s').
Proof.
  intros H.
  pose proof (create_atlas_run W self s) as R.
  destruct (get_image_files W self) as [[ | p rest] | e] eqn:Ef;
    try (rewrite R in H; discriminate).
  cbv zeta in R.
  destruct (fst (calculate_grid_size self _ initial)) as [[cols rows] | e];
    [ | rewrite R in H; discriminate].
  destruct (pil_new_raises W _ _) as [e | ]; [rewrite R in H; discriminate | ].
  destruct (fst (for_each_image W cols _ _ 0 (p :: rest) _)) as [[] | e];
    [ | rewrite R in H; discriminate].
  destruct (pil_save_raises W _) as [e | ]; [rewrite R in H; discriminate | ].
  set (s0 := mkState _ [] [] (files s)) in R.
  set (s3 := snd (for_each_image _ _ _ _ _ _ s0)) in R.
  rewrite R in H.
  assert (mapping = atlas_mapping s3) as -> by congruence.
  assert (atlas s' = atlas s3) as Ea.
  { apply (f_equal snd) in H. cbn [snd] in H. now rewrite <- H. }
  exists (p :: rest). split; [reflexivity | ]. split.
  - intros k pl Hin.
    destruct (loop_entries W cols (sprite_width self) (sprite_height self)
                _ (process_image_source W cols (sprite_width self)
                     (sprite_height self))
                (p :: rest) 0 s0 k pl Hin)
      as [Hold | (j & q & Hj & Hk & opened & Eo & Es & En)].
    + destruct Hold.
    + exists q, opened. split; [now apply nth_error_In in Hj | ].
      repeat split; assumption.
  - rewrite Ea. apply loop_pastes_rgba. constructor.
Qed.

Lemma entries_record_their_source_witness :
  exists image_files,
    get_image_files example_world defaults = Ok image_files /\
    (forall k pl,
        In (k, pl)
           [("a.jpg"%string, mkPlacement 0 15 32 1 0 0 32 32 (128, 7));
            ("b.PNG"%string, mkPlacement 32 15 32 1 32 0 32 32 (128, 7))] ->
        exists image_path opened,
          In image_path image_files /\
          k = basename image_path /\
          pil_open example_world image_path = Ok opened /\
          p_original_size pl = (width opened, height opened) /\
          new_size (normalized opened) (sprite_width defaults)
                   (sprite_height defaults)
          = Ok (p_width pl, p_height pl)) /\
    Forall (fun pa => mode (pasted pa) = "RGBA"%string)
           (atlas (snd (create_atlas example_world defaults initial))).
Proof.
  apply (entries_record_their_source example_world defaults initial
           (snd (create_atlas example_world defaults initial))
           [("a.jpg"%string, mkPlacement 0 15 32 1 0 0 32 32 (128, 7));
            ("b.PNG"%string, mkPlacement 32 15 32 1 32 0 32 32 (128, 7))]).
  vm_compute. reflexivity.
Defined.

(** ** Failures *)



